(** * DropBot analog measurements: [src/analog.cpp]

    A shallow embedding of the measurement routines of the DropBot control
    board firmware (namespace [dropbot::analog]) and proofs about them.

    - Integers are [Z] with the wrap-around of each C++ type written out.
    - [float] and [double] are IEEE-754 binary32 and binary64, modelled with
      the parametric specification of [SpecFloat] (round to nearest even).
    - The hardware (ADC conversions, reference selection) and the global
      [high_voltage_] form an explicit state threaded through every routine;
      the values delivered by the converter come from an oracle [adc].
    - Behaviour the language leaves undefined (indexing past the end of a
      vector, converting NaN to an integer) is the value [None].
    - The microsecond counter read by the two benchmarks is no part of that
      state: its two readings are parameters of the benchmarks. *)

From Stdlib Require Import ZArith List Bool Lia Reals Lra Psatz.
From Stdlib Require Import Sorting.Sorted Sorting.Permutation.
From Stdlib Require Import Floats.SpecFloat.
Import ListNotations.

Open Scope Z_scope.

(** ** Machine integers *)

Definition to_u16 (z : Z) : Z := z mod 2 ^ 16.
Definition to_u32 (z : Z) : Z := z mod 2 ^ 32.

Definition INT_MIN : Z := - 2 ^ 31.
Definition INT_MAX : Z := 2 ^ 31 - 1.

(** Two's complement wrap-around of a 32-bit [int]. *)
Definition to_i32 (z : Z) : Z := (z + 2 ^ 31) mod 2 ^ 32 - 2 ^ 31.

Definition in_int (z : Z) : bool := (INT_MIN <=? z) && (z <=? INT_MAX).

(** ** Floating point *)

(** Conversion of a float to the format [(prec, emax)]: exact when the value
    is representable, rounded to nearest even otherwise. *)
Definition SFconvert (prec emax : Z) (x : spec_float) : spec_float :=
  match x with
  | S754_finite s m e => binary_round prec emax s m e
  | _ => x
  end.

(** [float]: binary32. *)
Module F32.
Definition prec : Z := 24.
Definition emax : Z := 128.
Definition zero : spec_float := S754_zero false.
Definition of_Z (z : Z) : spec_float := binary_normalize prec emax z 0 false.
Definition of_double : spec_float -> spec_float := SFconvert prec emax.
Definition add : spec_float -> spec_float -> spec_float := SFadd prec emax.
Definition mul : spec_float -> spec_float -> spec_float := SFmul prec emax.
Definition div : spec_float -> spec_float -> spec_float := SFdiv prec emax.
Definition sqrt : spec_float -> spec_float := SFsqrt prec emax.
Definition leb : spec_float -> spec_float -> bool := SFleb.
End F32.

(** [double]: binary64. *)
Module F64.
Definition prec : Z := 53.
Definition emax : Z := 1024.
Definition of_Z (z : Z) : spec_float := binary_normalize prec emax z 0 false.
Definition of_float : spec_float -> spec_float := SFconvert prec emax.
Definition add : spec_float -> spec_float -> spec_float := SFadd prec emax.
Definition sub : spec_float -> spec_float -> spec_float := SFsub prec emax.
Definition mul : spec_float -> spec_float -> spec_float := SFmul prec emax.
Definition div : spec_float -> spec_float -> spec_float := SFdiv prec emax.
(** A decimal literal [n / 10^k]: the double nearest to it, which is what the
    correctly rounded division of the two (exact) integers gives. *)
Definition decimal (n d : Z) : spec_float := div (of_Z n) (of_Z d).
End F64.

(** Conversion of a floating-point value to an integer type truncates toward
    zero; NaN and the infinities have no integer value. *)
Definition SFtrunc (x : spec_float) : option Z :=
  match x with
  | S754_zero _ => Some 0
  | S754_finite s m e => Some (cond_Zopp s (Z.shiftl (Z.pos m) e))
  | _ => None
  end.

(** Conversion of a floating-point value to [uint16_t]: defined only when the
    truncated value is representable. *)
Definition float_to_u16 (x : spec_float) : option Z :=
  match SFtrunc x with
  | Some z => if (0 <=? z) && (z <=? 65535) then Some z else None
  | None => None
  end.

(** Modelled from the spec: [round] is declared by the headers the file
    includes ([math.h], [Arduino.h]), which are not part of the sources; it
    rounds to the nearest integer, halfway cases away from zero. *)
Definition round_magnitude (m : positive) (e : Z) : Z :=
  if 0 <=? e then Z.pos m * 2 ^ e
  else (2 * Z.pos m + 2 ^ (- e)) / (2 * 2 ^ (- e)).

Definition round (x : spec_float) : option Z :=
  match x with
  | S754_zero _ => Some 0
  | S754_finite s m e => Some (cond_Zopp s (round_magnitude m e))
  | _ => None
  end.

(** The Arduino cores define [round] as a macro,
    [(x) >= 0 ? (long)((x) + 0.5) : (long)((x) - 0.5)], evaluated here on a
    [double]. It differs from the function above only where [x + 0.5] is not
    exact; [round_macro_percentiles] below shows that both give the same
    index for the percentiles 25, 75 and 100. *)
Definition round_macro (x : spec_float) : option Z :=
  if SFleb (S754_zero false) x
  then SFtrunc (F64.add x (F64.decimal 5 10))
  else SFtrunc (F64.sub x (F64.decimal 5 10)).

(** Modelled from the spec: [std::sort] (standard library, not part of the
    sources) sorts the vector ascending; an insertion sort stands for it. *)
Fixpoint insert (x : Z) (l : list Z) : list Z :=
  match l with
  | [] => [x]
  | y :: l' => if x <=? y then x :: l else y :: insert x l'
  end.

Fixpoint sort (l : list Z) : list Z :=
  match l with
  | [] => []
  | x :: l' => insert x (sort l')
  end.

(** ** Hardware and global state *)

(** The ADC reference source selected by [analogReference]. *)
Inductive reference : Type := DEFAULT | INTERNAL.

(** [trace] records every ADC conversion, most recent first, as the pin read
    and the reference in force when it was read. *)
Record state : Type := {
  aref : reference;
  high_voltage_ : spec_float;
  trace : list (Z * reference)
}.

(** State at process start: [float high_voltage_ = 0;]. *)
Definition init : state :=
  {| aref := DEFAULT; high_voltage_ := F32.zero; trace := [] |}.

(** Computations on the state. *)
Definition M (A : Type) : Type := state -> A * state.

Definition ret {A} (a : A) : M A := fun st => (a, st).

Definition bind {A B} (c : M A) (f : A -> M B) : M B :=
  fun st => let (a, st') := c st in f a st'.

Declare Scope monad_scope.
Delimit Scope monad_scope with monad.
Notation "x <- c ;; k" := (bind c (fun x => k))
  (at level 61, c at next level, right associativity) : monad_scope.
Notation "c ;; k" := (bind c (fun _ => k))
  (at level 61, right associativity) : monad_scope.
Open Scope monad_scope.

(** A counted loop threading an accumulator: [for (i = 0; i < k; i++)]. *)
Fixpoint for_loop {A} (k : nat) (body : A -> M A) (acc : A) : M A :=
  match k with
  | O => ret acc
  | S k' => acc' <- body acc ;; for_loop k' body acc'
  end.

(** [std::generate] over a vector of [k] elements, front to back. *)
Fixpoint generate {A} (k : nat) (g : M A) : M (list A) :=
  match k with
  | O => ret []
  | S k' => x <- g ;; xs <- generate k' g ;; ret (x :: xs)
  end.

Definition analogReference (r : reference) : M unit :=
  fun st => (tt, {| aref := r; high_voltage_ := high_voltage_ st;
                    trace := trace st |}).

Definition set_high_voltage_ (v : spec_float) : M unit :=
  fun st => (tt, {| aref := aref st; high_voltage_ := v; trace := trace st |}).

Definition get_high_voltage_ : M spec_float :=
  fun st => (high_voltage_ st, st).

(** ** The routines of [analog.cpp] *)

Section Analog.

(** The raw reading the converter delivers for the [i]-th conversion since
    process start when it is taken on [pin]. *)
Variable adc : nat -> Z -> Z.

(** The pin constant [A1] (HV feedback), defined by the board headers. *)
Variable A1 : Z.

Definition analogRead (pin : Z) : M Z :=
  fun st => (adc (length (trace st)) pin,
             {| aref := aref st; high_voltage_ := high_voltage_ st;
                trace := (pin, aref st) :: trace st |}).

Definition analog_reads_simple (pin n_samples : Z) : M (list Z) :=
  generate (Z.to_nat n_samples) (v <- analogRead pin ;; ret (to_u16 v)).

(** [(int)round((percentile / 100.) * n_samples)] narrowed to [uint16_t]. *)
Definition percentile_index (percentile : spec_float) (n_samples : Z)
  : option Z :=
  match round (F64.mul (F64.div (F64.of_float percentile) (F64.of_Z 100))
                       (F64.of_Z n_samples)) with
  | Some r => if in_int r then Some (to_u16 r) else None
  | None => None
  end.

Definition u16_percentile_diff (pin n_samples : Z)
  (low_percentile high_percentile : spec_float) : M (option Z) :=
  result <- analog_reads_simple pin n_samples ;;
  let result := sort result in
  ret (match percentile_index high_percentile n_samples,
             percentile_index low_percentile n_samples with
       | Some high_i, Some low_i =>
           match nth_error result (Z.to_nat high_i),
                 nth_error result (Z.to_nat low_i) with
           | Some hi, Some lo => Some (to_u16 (hi - lo))
           | _, _ => None
           end
       | _, _ => None
       end).

Definition high_voltage : M spec_float :=
  a1 <- analogRead A1 ;;
  let hv_fb :=
    F32.of_double
      (F64.mul (F64.of_float (F32.div (F32.of_Z a1) (F32.of_Z (2 ^ 16))))
               (F64.decimal 33 10)) in
  let R8 := F32.of_Z 2000000 in
  let R9 := F32.of_Z 20000 in
  let hv_peak_to_peak := F32.div (F32.mul hv_fb R8) R9 in
  set_high_voltage_
    (F32.of_double (F64.mul (F64.decimal 5 10) (F64.of_float hv_peak_to_peak))) ;;
  get_high_voltage_.

(** [for (uint8_t i = 0; i < 255; i++) sum += analogRead(pin);] with
    [uint32_t sum = 0]. *)
Definition sum_255 (pin : Z) : M Z :=
  for_loop 255 (fun sum => v <- analogRead pin ;; ret (to_u32 (sum + v))) 0.

Definition measure_temperature : M spec_float :=
  analogReference INTERNAL ;;
  sum <- sum_255 38 ;;
  analogReference DEFAULT ;;
  let voltage :=
    F32.of_double
      (F64.mul (F64.div (F64.div (F64.of_float (F32.of_Z sum)) (F64.of_Z 255))
                        (F64.of_Z 65535))
               (F64.decimal 12 10)) in
  ret (F32.of_double
         (F64.add (F64.of_Z 25)
                  (F64.mul (F64.decimal 5830904 10000)
                           (F64.sub (F64.decimal 719 1000)
                                    (F64.of_float voltage))))).

Definition measure_aref : M spec_float :=
  sum <- sum_255 39 ;;
  ret (F32.of_double
         (F64.mul (F64.div (F64.mul (F64.decimal 1195 1000) (F64.of_Z 65535))
                           (F64.of_float (F32.of_Z sum)))
                  (F64.of_Z 255))).

Definition read_max (pin n : Z) : M Z :=
  for_loop (Z.to_nat n)
    (fun max_value =>
       v <- analogRead pin ;;
       let value := to_u16 v in
       ret (if max_value <? value then value else max_value))
    0.

(** The loop of [read_rms]: [value * value] is computed as [int] (wrapping
    around past [INT_MAX], as the target does) and then converted to [float]
    for the addition. *)
Definition read_sum2 (pin n : Z) : M spec_float :=
  for_loop (Z.to_nat n)
    (fun sum2 =>
       v <- analogRead pin ;;
       let value := to_u16 v in
       ret (F32.add sum2 (F32.of_Z (to_i32 (value * value)))))
    F32.zero.

(** [sum2 / n]: the count is converted to [float] for the division. *)
Definition mean_square (sum2 : spec_float) (n : Z) : spec_float :=
  F32.div sum2 (F32.of_Z n).

(** [sqrt(sum2 / n)]: the argument is a [float], for which [math.h] in C++
    selects the overload [float sqrt(float)]; the root, rounded to binary32,
    is converted to the return type [uint16_t]. *)
Definition read_rms (pin n : Z) : M (option Z) :=
  sum2 <- read_sum2 pin n ;;
  ret (float_to_u16 (F32.sqrt (mean_square sum2 n))).

(** [static_cast<float>(raw) / (1L << 16) * 3.3], stored in a [float]. *)
Definition raw_to_voltage (raw : Z) : spec_float :=
  F32.of_double
    (F64.mul (F64.of_float (F32.div (F32.of_Z raw) (F32.of_Z (2 ^ 16))))
             (F64.decimal 33 10)).

(** [voltage / (51e3 / 5.1e3 * 1)], returned as [float]. *)
Definition output_current_of_voltage (voltage : spec_float) : spec_float :=
  F32.of_double
    (F64.div (F64.of_float voltage)
             (F64.mul (F64.div (F64.of_Z 51000) (F64.of_Z 5100)) (F64.of_Z 1))).

Definition measure_output_current (n : Z) : M spec_float :=
  raw <- read_max 2 n ;;
  ret (output_current_of_voltage (raw_to_voltage raw)).

Definition measure_output_current_rms (n : Z) : M (option spec_float) :=
  raw <- read_rms 2 n ;;
  ret (match raw with
       | Some raw => Some (output_current_of_voltage (raw_to_voltage raw))
       | None => None
       end).

Definition measure_input_current (n : Z) : M spec_float :=
  raw <- read_max 3 n ;;
  ret (F32.of_double
         (F64.div (F64.of_float (raw_to_voltage raw)) (F64.decimal 3 100))).

(** [micros()] reads the microsecond counter, an [unsigned long] kept by the
    core and no part of the state modelled here: the two readings a benchmark
    takes are its inputs [start] and [stop]. The routine returns
    [(end - start) * 1e-6], the difference being taken in [unsigned long]. *)
Definition elapsed_seconds (start stop : Z) : spec_float :=
  F32.of_double
    (F64.mul (F64.of_Z (to_u32 (stop - start))) (F64.decimal 1 1000000)).

(** The loop overwrites the single element [values[0]]. *)
Definition benchmark_analog_read (start stop : Z) (pin n_samples : Z)
  : M spec_float :=
  for_loop (Z.to_nat n_samples)
    (fun _ => v <- analogRead pin ;; ret (to_u16 v)) 0 ;;
  ret (elapsed_seconds start stop).

(** The results of the repeated calls are discarded; the accumulator records
    whether all of them were defined. *)
Definition benchmmark_u16_percentile_diff (start stop : Z) (pin n_samples : Z)
  (low_percentile high_percentile : spec_float) (n_repeats : Z)
  : M (option spec_float) :=
  defined <- for_loop (Z.to_nat n_repeats)
    (fun defined =>
       r <- u16_percentile_diff pin n_samples low_percentile high_percentile ;;
       ret (match r with Some _ => defined | None => false end))
    true ;;
  ret (if defined then Some (elapsed_seconds start stop) else None).

End Analog.

(** ** Specification-side definitions *)

(** The raw readings of [n] consecutive conversions on [pin], the first one
    being conversion number [t]. *)
Definition samples (adc : nat -> Z -> Z) (pin : Z) (t n : nat) : list Z :=
  map (fun i => adc (t + i)%nat pin) (seq 0 n).

(** A converter that delivers the readings of [l] in order, whatever the pin,
    and 0 afterwards. *)
Definition stream (l : list Z) : nat -> Z -> Z := fun i _ => nth i l 0.

(** What [n] conversions on [pin] under reference [r] add to the trace. *)
Definition reads (pin : Z) (r : reference) (n : nat) : list (Z * reference) :=
  repeat (pin, r) n.

(** The state after [n] further conversions on [pin]. *)
Definition after_reads (pin : Z) (n : nat) (st : state) : state :=
  {| aref := aref st; high_voltage_ := high_voltage_ st;
     trace := reads pin (aref st) n ++ trace st |}.

(** Largest element of a list of non-negative readings, by a linear scan. *)
Definition list_max (l : list Z) : Z := fold_right Z.max 0 l.

Definition sum_list (l : list Z) : Z := fold_right Z.add 0 l.

(** Smallest element of a list of 16-bit readings, by a linear scan. *)
Definition list_min (l : list Z) : Z := fold_right Z.min 65535 l.

(** Whether both indices computed by [u16_percentile_diff] fall inside a
    vector of [n_samples] elements. *)
Definition percentile_defined (n_samples : Z) (low_percentile high_percentile : spec_float)
  : bool :=
  match percentile_index high_percentile n_samples,
        percentile_index low_percentile n_samples with
  | Some high_i, Some low_i =>
      (Z.to_nat high_i <? Z.to_nat n_samples)%nat
      && (Z.to_nat low_i <? Z.to_nat n_samples)%nat
  | _, _ => false
  end.

Definition sum_squares (l : list Z) : Z := sum_list (map (fun v => v * v) l).

Definition is_finite_SF (x : spec_float) : bool :=
  match x with
  | S754_zero _ | S754_finite _ _ _ => true
  | _ => false
  end.

(** *** Real-number semantics of floats *)

Definition bpow (e : Z) : R := powerRZ 2 e.

(** The real value of a finite float (0 for the others). *)
Definition SF2R (x : spec_float) : R :=
  match x with
  | S754_finite s m e => (IZR (cond_Zopp s (Z.pos m)) * bpow e)%R
  | _ => 0%R
  end.

(** Position of a real [y] with respect to the integer [m] below it, as the
    rounding functions of [SpecFloat] encode it. *)
Definition inloc (y : R) (m : Z) (l : location) : Prop :=
  match l with
  | loc_Exact => y = IZR m
  | loc_Inexact Lt => (IZR m < y < IZR m + / 2)%R
  | loc_Inexact Eq => y = (IZR m + / 2)%R
  | loc_Inexact Gt => (IZR m + / 2 < y < IZR m + 1)%R
  end.

(** [rounded prec emax r x]: the float [r] is a round-to-nearest image, in the
    format [(prec, emax)], of the positive real [x], which lies in the binade
    [2^(mag-1) <= x < 2^mag]. *)
Definition rounded (prec emax : Z) (r : spec_float) (x : R) : Prop :=
  exists mag m' : Z,
    (bpow (mag - 1) <= x < bpow mag)%R /\
    (0 <= m')%Z /\
    (Rabs (IZR m' * bpow (fexp prec emax mag) - x)
       <= bpow (fexp prec emax mag) / 2)%R /\
    SF2R r = (IZR m' * bpow (fexp prec emax mag))%R /\
    valid_binary prec emax r = true /\
    is_finite_SF r = true.

(** Unit roundoff of binary32. *)
Definition u32 : R := bpow (- 24).

(** [approx k v x]: [v] is [x] up to [k] roundings, each of relative error at
    most [u32]. *)
Definition approx (k : nat) (v x : R) : Prop :=
  (x * (1 - u32) ^ k <= v <= x * (1 + u32) ^ k)%R.

(** A float [r] that is finite, well formed in the format [(prec, emax)] and
    within [k] roundings of the positive real [x]. *)
Definition tracks (prec emax : Z) (r : spec_float) (k : nat) (x : R) : Prop :=
  valid_binary prec emax r = true /\ is_finite_SF r = true /\
  (0 < x)%R /\ approx k (SF2R r) x.

(** Magnitudes for which no operation of either format overflows or falls
    into the subnormal range. *)
Definition safe (x : R) : Prop := (bpow (- 100) <= x <= bpow 100)%R.

Definition tracks32 : spec_float -> nat -> R -> Prop := tracks F32.prec F32.emax.
Definition tracks64 : spec_float -> nat -> R -> Prop := tracks F64.prec F64.emax.

(** [near prec emax r x]: the finite float [r] is the real [x], of either
    sign, up to one rounding of the format [(prec, emax)]: a relative error
    of [2^-prec], or half a unit of the last subnormal place. *)
Definition near (prec emax : Z) (r : spec_float) (x : R) : Prop :=
  valid_binary prec emax r = true /\ is_finite_SF r = true /\
  (Rabs (SF2R r - x) <= bpow (- prec) * Rabs x + bpow (emin prec emax - 1))%R.

(** * Proofs *)

Open Scope R_scope.

(** ** Powers of two *)

Lemma bpow_pos e : 0 < bpow e.
Proof. apply powerRZ_lt; lra. Qed.

Lemma bpow_add a b : bpow (a + b) = bpow a * bpow b.
Proof. apply powerRZ_add; lra. Qed.

Lemma bpow_0 : bpow 0 = 1.
Proof. reflexivity. Qed.

Lemma bpow_1 : bpow 1 = 2.
Proof. unfold bpow; simpl; lra. Qed.

Lemma bpow_m1 : bpow (-1) = / 2.
Proof. unfold bpow; simpl; f_equal; lra. Qed.

Lemma bpow_opp e : bpow (- e) = / bpow e.
Proof.
  apply Rmult_eq_reg_l with (bpow e); [| pose proof (bpow_pos e); lra].
  rewrite <- bpow_add, Z.add_opp_diag_r, bpow_0.
  rewrite Rinv_r; [reflexivity | pose proof (bpow_pos e); lra].
Qed.

Lemma bpow_IZR k : (0 <= k)%Z -> bpow k = IZR (2 ^ k).
Proof.
  intros Hk. unfold bpow.
  rewrite <- (Z2Nat.id k Hk) at 1.
  rewrite <- pow_powerRZ.
  rewrite <- (Z2Nat.id k Hk) at 2.
  rewrite <- pow_IZR. reflexivity.
Qed.

Lemma bpow_ge1 k : (0 <= k)%Z -> 1 <= bpow k.
Proof.
  intros Hk. rewrite bpow_IZR by assumption.
  apply IZR_le. pose proof (Z.pow_pos_nonneg 2 k). lia.
Qed.

Lemma bpow_le a b : (a <= b)%Z -> bpow a <= bpow b.
Proof.
  intros H. replace b with (a + (b - a))%Z by lia.
  rewrite bpow_add. pose proof (bpow_pos a). pose proof (bpow_ge1 (b - a)).
  assert (1 <= bpow (b - a)) by (apply H1; lia). nra.
Qed.

Lemma bpow_lt a b : (a < b)%Z -> bpow a < bpow b.
Proof.
  intros H. replace b with (a + 1 + (b - a - 1))%Z by lia.
  rewrite !bpow_add, bpow_1. pose proof (bpow_pos a).
  assert (1 <= bpow (b - a - 1)) by (apply bpow_ge1; lia). nra.
Qed.

Lemma bpow_lt_inv a b : bpow a < bpow b -> (a < b)%Z.
Proof.
  intros H. destruct (Z_lt_le_dec a b) as [|Hle]; [assumption|].
  apply bpow_le in Hle. lra.
Qed.

(** ** Binary digits *)

Lemma digits2_size p : digits2_pos p = Pos.size p.
Proof. induction p; simpl; congruence. Qed.

Lemma Zdigits2_bounds m : (0 < m)%Z ->
  (2 ^ (Zdigits2 m - 1) <= m < 2 ^ Zdigits2 m)%Z.
Proof.
  destruct m as [|p|p]; try lia. intros _. cbn [Zdigits2]. rewrite digits2_size.
  split.
  - pose proof (Pos.size_le p) as H.
    apply Pos2Z.pos_le_pos in H. rewrite Pos2Z.inj_pow in H.
    replace (Z.pos (Pos.size p)) with (Z.succ (Z.pos (Pos.size p) - 1)) in H by lia.
    rewrite Z.pow_succ_r in H by lia. lia.
  - pose proof (Pos.size_gt p) as H.
    apply Pos2Z.pos_lt_pos in H. rewrite Pos2Z.inj_pow in H. exact H.
Qed.

Lemma Zdigits2_unique m d : (2 ^ (d - 1) <= m < 2 ^ d)%Z -> (0 < m)%Z -> Zdigits2 m = d.
Proof.
  intros [H1 H2] Hm. pose proof (Zdigits2_bounds m Hm) as [H3 H4].
  assert (Hd : (0 < Zdigits2 m)%Z) by (destruct m; simpl in *; lia).
  assert (Hd' : (0 < d)%Z).
  { destruct (Z_lt_le_dec 0 d); [assumption|]. 
    assert (2 ^ d <= 2 ^ 0)%Z by (apply Z.pow_le_mono_r; lia). simpl in *. lia. }
  destruct (Z.lt_trichotomy (Zdigits2 m) d) as [Hlt|[Heq|Hgt]]; [|assumption|].
  - assert (2 ^ Zdigits2 m <= 2 ^ (d - 1))%Z by (apply Z.pow_le_mono_r; lia). lia.
  - assert (2 ^ d <= 2 ^ (Zdigits2 m - 1))%Z by (apply Z.pow_le_mono_r; lia). lia.
Qed.

Lemma Rabs_le_inv a b : Rabs a <= b -> - b <= a <= b.
Proof. unfold Rabs. destruct (Rcase_abs a); lra. Qed.

(** ** Shifting a mantissa to the right *)

Lemma inloc_bounds y m l : inloc y m l -> IZR m <= y < IZR m + 1.
Proof. destruct l as [|[| |]]; simpl; lra. Qed.

Lemma loc_of_record_of_loc m l :
  loc_of_shr_record (shr_record_of_loc m l) = l /\
  shr_m (shr_record_of_loc m l) = m.
Proof. destruct l as [|[| |]]; split; reflexivity. Qed.

Lemma shr_1_inloc mrs y :
  (0 <= shr_m mrs)%Z ->
  inloc y (shr_m mrs) (loc_of_shr_record mrs) ->
  shr_m (shr_1 mrs) = (shr_m mrs / 2)%Z /\
  inloc (y / 2) (shr_m (shr_1 mrs)) (loc_of_shr_record (shr_1 mrs)).
Proof.
  destruct mrs as [m r s]. cbn [shr_m]. intros Hm Hy.
  destruct m as [|[p|p|]|p]; try lia.
  - split; [reflexivity|].
    destruct r, s; simpl in *; lra.
  - assert (Hd : (Z.pos p~1 / 2 = Z.pos p)%Z).
    { rewrite Pos2Z.inj_xI. symmetry. apply Z.div_unique with 1%Z; lia. }
    split; [rewrite Hd; reflexivity|].
    assert (HI : IZR (Z.pos p~1) = 2 * IZR (Z.pos p) + 1).
    { rewrite Pos2Z.inj_xI, plus_IZR, mult_IZR. reflexivity. }
    destruct r, s; cbn [shr_1 shr_m loc_of_shr_record orb inloc] in *;
      rewrite HI in Hy; lra.
  - assert (Hd : (Z.pos p~0 / 2 = Z.pos p)%Z).
    { rewrite Pos2Z.inj_xO. symmetry. apply Z.div_unique with 0%Z; lia. }
    split; [rewrite Hd; reflexivity|].
    assert (HI : IZR (Z.pos p~0) = 2 * IZR (Z.pos p)).
    { rewrite Pos2Z.inj_xO, mult_IZR. reflexivity. }
    destruct r, s; cbn [shr_1 shr_m loc_of_shr_record orb inloc] in *;
      rewrite HI in Hy; lra.
  - split; [reflexivity|].
    destruct r, s; cbn [shr_1 shr_m loc_of_shr_record orb inloc] in *; lra.
Qed.

Lemma iter_pos_nat {A} (f : A -> A) n x :
  iter_pos f n x = Nat.iter (Pos.to_nat n) f x.
Proof.
  revert x. induction n as [n IH|n IH|]; intros x; cbn [iter_pos].
  - rewrite !IH, Pos2Nat.inj_xI.
    replace (S (2 * Pos.to_nat n)) with (Pos.to_nat n + (Pos.to_nat n + 1))%nat by lia.
    rewrite !Nat.iter_add. reflexivity.
  - rewrite !IH, Pos2Nat.inj_xO.
    replace (2 * Pos.to_nat n)%nat with (Pos.to_nat n + Pos.to_nat n)%nat by lia.
    rewrite Nat.iter_add. reflexivity.
  - reflexivity.
Qed.

Lemma shr_iter_inloc k : forall mrs y,
  (0 <= shr_m mrs)%Z ->
  inloc y (shr_m mrs) (loc_of_shr_record mrs) ->
  let mrs' := Nat.iter k shr_1 mrs in
  shr_m mrs' = (shr_m mrs / 2 ^ Z.of_nat k)%Z /\
  inloc (y * bpow (- Z.of_nat k)) (shr_m mrs') (loc_of_shr_record mrs').
Proof.
  induction k as [|k IH]; intros mrs y Hm Hy.
  - cbn. rewrite Z.div_1_r. split; [reflexivity|].
    change (bpow (-0)) with 1. rewrite Rmult_1_r. assumption.
  - cbn zeta. rewrite Nat.iter_succ.
    destruct (IH mrs y Hm Hy) as [IHm IHy].
    assert (H0 : (0 <= shr_m (Nat.iter k shr_1 mrs))%Z).
    { rewrite IHm. apply Z.div_pos; [assumption|]. apply Z.pow_pos_nonneg; lia. }
    destruct (shr_1_inloc _ _ H0 IHy) as [Hm1 Hy1].
    split.
    + rewrite Hm1, IHm, Nat2Z.inj_succ, Z.pow_succ_r by lia.
      rewrite Z.div_div by (try apply Z.pow_pos_nonneg; lia).
      f_equal. lia.
    + replace (y * bpow (- Z.of_nat (S k))) with (y * bpow (- Z.of_nat k) / 2);
        [assumption|].
      rewrite Nat2Z.inj_succ.
      replace (- Z.succ (Z.of_nat k))%Z with (- Z.of_nat k + -1)%Z by lia.
      rewrite bpow_add, bpow_m1. unfold Rdiv. ring.
Qed.


(** ** Rounding to nearest *)

Lemma round_nearest_even_spec y m l :
  inloc y m l ->
  (round_nearest_even m l = m \/ round_nearest_even m l = (m + 1)%Z) /\
  Rabs (IZR (round_nearest_even m l) - y) <= / 2.
Proof.
  intros Hy.
  destruct l as [|[| |]]; cbn [round_nearest_even inloc] in *.
  - split; [left; reflexivity|]. rewrite Hy. unfold Rminus.
    rewrite Rplus_opp_r, Rabs_R0. lra.
  - destruct (Z.even m).
    + split; [left; reflexivity|]. apply Rabs_le. lra.
    + split; [right; reflexivity|]. rewrite plus_IZR. apply Rabs_le. lra.
  - split; [left; reflexivity|]. apply Rabs_le. lra.
  - split; [right; reflexivity|]. rewrite plus_IZR. apply Rabs_le. lra.
Qed.

Lemma IZR_bpow_bounds m : (0 < m)%Z ->
  bpow (Zdigits2 m - 1) <= IZR m < bpow (Zdigits2 m).
Proof.
  intros Hm. destruct (Zdigits2_bounds m Hm) as [H1 H2].
  assert (0 < Zdigits2 m)%Z by (destruct m; simpl in *; lia).
  rewrite !bpow_IZR by lia. split; [apply IZR_le | apply IZR_lt]; assumption.
Qed.

Lemma iter_xO_Z mx p : Z.pos (Pos.iter xO mx p) = (Z.pos mx * 2 ^ Z.pos p)%Z.
Proof.
  induction p as [|p IH] using Pos.peano_ind.
  - cbn [Pos.iter]. rewrite Pos2Z.inj_xO. change (2 ^ 1)%Z with 2%Z. lia.
  - rewrite Pos.iter_succ, Pos2Z.inj_xO, IH, Pos2Z.inj_succ, Z.pow_succ_r by lia.
    lia.
Qed.

Lemma Zdigits2_shift m k :
  (0 < m)%Z -> (0 <= k)%Z -> Zdigits2 (m * 2 ^ k) = (Zdigits2 m + k)%Z.
Proof.
  intros Hm Hk. destruct (Zdigits2_bounds m Hm) as [H1 H2].
  assert (Hd : (0 < Zdigits2 m)%Z) by (destruct m; simpl in *; lia).
  assert (Hp : (0 < 2 ^ k)%Z) by (apply Z.pow_pos_nonneg; lia).
  apply Zdigits2_unique; [|nia].
  replace (Zdigits2 m + k - 1)%Z with ((Zdigits2 m - 1) + k)%Z by lia.
  rewrite !Z.pow_add_r by lia. nia.
Qed.

Lemma pos_finite_inv x :
  is_finite_SF x = true -> 0 < SF2R x -> exists m e, x = S754_finite false m e.
Proof.
  destruct x as [s|s| |s m e]; cbn; intros Hf Hp; try lra; try discriminate.
  destruct s; [|eauto].
  exfalso. cbn in Hp. pose proof (bpow_pos e).
  assert (IZR (Z.neg m) < 0) by (apply IZR_lt; lia). nra.
Qed.

Lemma new_location_inloc m2 q r :
  (0 < m2)%Z -> (0 <= r < m2)%Z ->
  inloc (IZR q + IZR r / IZR m2) q (new_location m2 r).
Proof.
  intros Hm [Hr0 Hr1].
  assert (Hm' : 0 < IZR m2) by (apply IZR_lt; assumption).
  set (t := IZR r / IZR m2).
  assert (Ht : t * IZR m2 = IZR r) by (unfold t; field; lra).
  assert (Hr0' : 0 <= IZR r) by (apply IZR_le; assumption).
  assert (Hr1' : IZR r < IZR m2) by (apply IZR_lt; assumption).
  assert (Hzero : r = 0%Z -> t = 0) by (intros ->; unfold t; field; lra).
  unfold new_location.
  destruct (Z.even m2) eqn:Hev;
    unfold new_location_even, new_location_odd;
    (destruct (Z.eqb_spec r 0) as [Hz|Hnz];
     [specialize (Hzero Hz); cbn [inloc]; lra|]);
    assert (Hrpos : 0 < IZR r) by (apply IZR_lt; lia).
  - destruct (Z.compare_spec (2 * r) m2) as [Hc|Hc|Hc]; cbn [inloc].
    + assert (2 * IZR r = IZR m2) by (rewrite <- Hc, mult_IZR; reflexivity). nra.
    + assert (2 * IZR r < IZR m2) by (rewrite <- mult_IZR; apply IZR_lt; assumption).
      nra.
    + assert (IZR m2 < 2 * IZR r) by (rewrite <- mult_IZR; apply IZR_lt; assumption).
      nra.
  - assert (Hodd : (2 * r <> m2)%Z).
    { intros Heq. rewrite <- Heq, Z.even_mul in Hev. discriminate. }
    destruct (Z.compare_spec (2 * r + 1) m2) as [Hc|Hc|Hc]; cbn [inloc].
    + assert (2 * IZR r < IZR m2) by (rewrite <- mult_IZR; apply IZR_lt; lia). nra.
    + assert (2 * IZR r < IZR m2) by (rewrite <- mult_IZR; apply IZR_lt; lia). nra.
    + assert (IZR m2 < 2 * IZR r) by (rewrite <- mult_IZR; apply IZR_lt; lia). nra.
Qed.

Lemma shiftl_cases m s :
  (0 <= s)%Z ->
  match s with
  | 0%Z => m
  | Z.pos _ => Z.shiftl m s
  | Z.neg _ => 0%Z
  end = (m * 2 ^ s)%Z.
Proof.
  intros Hs. destruct s as [|p|p]; [cbn; lia | | lia].
  rewrite Z.shiftl_mul_pow2 by lia. reflexivity.
Qed.

Section Rounding.

Variables prec emax : Z.
Hypothesis Hprec : (1 < prec)%Z.
Hypothesis Hemax : (prec < emax)%Z.

Local Abbreviation emin := (emin prec emax).
Local Abbreviation fexp := (fexp prec emax).

Lemma fexp_ge_emin e : (emin <= fexp e)%Z.
Proof. unfold SpecFloat.fexp. lia. Qed.

Lemma fexp_mono a b : (a <= b)%Z -> (fexp a <= fexp b)%Z.
Proof. unfold SpecFloat.fexp. lia. Qed.

Lemma shr_fexp_spec m e l x :
  (0 <= m)%Z -> inloc (x * bpow (- e)) m l ->
  exists mrs,
    shr_fexp prec emax m e l = (mrs, Z.max e (fexp (Zdigits2 m + e))) /\
    shr_m mrs = (m / 2 ^ (Z.max e (fexp (Zdigits2 m + e)) - e))%Z /\
    inloc (x * bpow (- Z.max e (fexp (Zdigits2 m + e))))
          (shr_m mrs) (loc_of_shr_record mrs).
Proof.
  intros Hm Hx. unfold shr_fexp, shr.
  destruct (loc_of_record_of_loc m l) as [Hl Hr].
  destruct (fexp (Zdigits2 m + e) - e)%Z as [|p|p] eqn:Hk.
  - exists (shr_record_of_loc m l).
    replace (Z.max e (fexp (Zdigits2 m + e))) with e by lia.
    rewrite Z.sub_diag, Z.div_1_r, Hl, Hr. auto.
  - exists (iter_pos shr_1 p (shr_record_of_loc m l)).
    replace (Z.max e (fexp (Zdigits2 m + e))) with (e + Z.pos p)%Z by lia.
    split; [reflexivity|].
    rewrite iter_pos_nat.
    assert (Hm' : (0 <= shr_m (shr_record_of_loc m l))%Z) by (rewrite Hr; exact Hm).
    assert (Hx' : inloc (x * bpow (- e)) (shr_m (shr_record_of_loc m l))
                        (loc_of_shr_record (shr_record_of_loc m l)))
      by (rewrite Hr, Hl; exact Hx).
    destruct (shr_iter_inloc (Pos.to_nat p) _ _ Hm' Hx') as [H1 H2].
    rewrite positive_nat_Z in H1, H2. rewrite Hr in H1.
    split.
    + rewrite H1. f_equal. f_equal. lia.
    + replace (- (e + Z.pos p))%Z with (- e + - Z.pos p)%Z by lia.
      rewrite bpow_add, <- Rmult_assoc. exact H2.
  - exists (shr_record_of_loc m l).
    replace (Z.max e (fexp (Zdigits2 m + e))) with e by lia.
    rewrite Z.sub_diag, Z.div_1_r, Hl, Hr. auto.
Qed.

Lemma binary_round_aux_correct sx m e l x :
  (0 < m)%Z -> inloc (x * bpow (- e)) m l ->
  (e <= fexp (Zdigits2 m + e))%Z ->
  x < bpow (emax - 1) ->
  exists m' : Z, (0 <= m')%Z /\
    Rabs (IZR m' * bpow (fexp (Zdigits2 m + e)) - x)
      <= bpow (fexp (Zdigits2 m + e)) / 2 /\
    SF2R (binary_round_aux prec emax sx m e l)
      = IZR (cond_Zopp sx m') * bpow (fexp (Zdigits2 m + e)) /\
    valid_binary prec emax (binary_round_aux prec emax sx m e l) = true /\
    is_finite_SF (binary_round_aux prec emax sx m e l) = true.
Proof.
  intros Hm Hx Hal Hov.
  set (d := Zdigits2 m) in *. set (E := fexp (d + e)) in *.
  assert (HEmin : (emin <= E)%Z) by apply fexp_ge_emin.
  assert (HEd : (d + e - prec <= E)%Z) by (unfold E, SpecFloat.fexp; lia).
  destruct (Zdigits2_bounds m Hm) as [Hd1 Hd2]. fold d in Hd1, Hd2.
  assert (Hdpos : (0 < d)%Z) by (unfold d; destruct m; simpl in *; lia).
  (* magnitude of x bounds the exponent *)
  assert (Hmag : (d + e <= emax - 1)%Z).
  { apply inloc_bounds in Hx. destruct Hx as [Hx _].
    destruct (IZR_bpow_bounds m Hm) as [Hb _]. fold d in Hb.
    assert (bpow (d - 1 + e) <= x).
    { rewrite bpow_add. pose proof (bpow_pos e). pose proof (bpow_pos (- e)).
      assert (IZR m * bpow e <= x).
      { replace x with (x * bpow (- e) * bpow e).
        - apply Rmult_le_compat_r; lra.
        - rewrite Rmult_assoc, <- bpow_add, Z.add_opp_diag_l, bpow_0. ring. }
      nra. }
    assert (d - 1 + e < emax - 1)%Z by (apply bpow_lt_inv; lra). lia. }
  assert (HEov : (E + 1 <= emax - prec)%Z).
  { unfold E, SpecFloat.fexp, SpecFloat.emin. lia. }
  unfold binary_round_aux.
  destruct (shr_fexp_spec m e l x (Z.lt_le_incl _ _ Hm) Hx) as (mrs1 & Hs1 & Hm1 & Hl1).
  fold d in Hs1, Hm1, Hl1.
  replace (Z.max e (fexp (d + e))) with E in Hs1, Hm1, Hl1 by (unfold E; lia).
  rewrite Hs1.
  set (m1 := shr_m mrs1) in *.
  assert (Hp2 : (0 < 2 ^ (E - e))%Z) by (apply Z.pow_pos_nonneg; lia).
  assert (Hm1lo : (0 <= m1)%Z) by (rewrite Hm1; apply Z.div_pos; lia).
  assert (Hm1hi : (m1 < 2 ^ prec)%Z).
  { rewrite Hm1. apply Z.div_lt_upper_bound; [assumption|].
    rewrite <- Z.pow_add_r by lia.
    apply Z.lt_le_trans with (2 ^ d)%Z; [assumption|].
    apply Z.pow_le_mono_r; lia. }
  assert (Hm1norm : (emin < E -> 2 ^ (prec - 1) <= m1)%Z).
  { intros HE. assert (HEe : (E = d + e - prec)%Z) by (unfold E, SpecFloat.fexp in *; lia).
    rewrite Hm1. apply Z.div_le_lower_bound; [assumption|].
    rewrite <- Z.pow_add_r by lia.
    replace (E - e + (prec - 1))%Z with (d - 1)%Z by lia. assumption. }
  destruct (round_nearest_even_spec _ _ _ Hl1) as [Hm2 Herr].
  set (m2 := round_nearest_even m1 (loc_of_shr_record mrs1)) in *.
  assert (Hbound : Rabs (IZR m2 * bpow E - x) <= bpow E / 2).
  { pose proof (bpow_pos E) as HbE.
    replace (IZR m2 * bpow E - x) with ((IZR m2 - x * bpow (- E)) * bpow E).
    - rewrite Rabs_mult, (Rabs_pos_eq (bpow E)) by lra. nra.
    - rewrite Rmult_minus_distr_r, Rmult_assoc, <- bpow_add, Z.add_opp_diag_l, bpow_0.
      ring. }
  assert (Hm2lo : (0 <= m2)%Z) by lia.
  assert (Hm2hi : (m2 <= 2 ^ prec)%Z) by lia.
  exists m2. split; [assumption|]. split; [assumption|].
  unfold shr_fexp, shr. cbn [shr_record_of_loc].
  destruct (Z.eq_dec m2 0) as [Hz|Hnz].
  - (* the rounded mantissa is zero *)
    rewrite Hz. cbn [Zdigits2].
    replace (fexp (0 + E) - E)%Z with (fexp E - E)%Z by (f_equal; lia).
    assert (Hle : (fexp E - E <= 0)%Z) by (unfold SpecFloat.fexp; lia).
    destruct (fexp E - E)%Z eqn:Hk; try lia; cbn [shr_m];
      (split; [destruct sx; cbn; lra | split; reflexivity]).
  - destruct (Z.eq_dec m2 (2 ^ prec)) as [Hc|Hnc].
    + (* carry into the next binade *)
      assert (Hdig : Zdigits2 m2 = (prec + 1)%Z).
      { apply Zdigits2_unique; [|lia]. rewrite Hc.
        replace (prec + 1 - 1)%Z with prec by lia. split; [lia|].
        apply Z.pow_lt_mono_r; lia. }
      rewrite Hdig.
      replace (fexp (prec + 1 + E) - E)%Z with 1%Z by (unfold SpecFloat.fexp; lia).
      cbn [iter_pos].
      assert (Hh : shr_m (shr_1 {| shr_m := m2; shr_r := false; shr_s := false |})
                   = (2 ^ (prec - 1))%Z).
      { destruct (shr_1_inloc {| shr_m := m2; shr_r := false; shr_s := false |}
                    (IZR m2) Hm2lo eq_refl) as [Hh _].
        rewrite Hh. cbn [shr_m]. rewrite Hc.
        replace prec with (Z.succ (prec - 1)) at 1 by lia.
        rewrite Z.pow_succ_r by lia. rewrite Z.mul_comm, Z.div_mul by lia. reflexivity. }
      rewrite Hh.
      assert (Hpp : (0 < 2 ^ (prec - 1))%Z) by (apply Z.pow_pos_nonneg; lia).
      destruct (2 ^ (prec - 1))%Z as [|q|q] eqn:Hq; try lia.
      replace (E + 1 <=? emax - prec)%Z with true by (symmetry; apply Z.leb_le; lia).
      assert (Hdq : Z.pos (digits2_pos q) = prec).
      { change (Zdigits2 (Z.pos q) = prec). apply Zdigits2_unique; [|lia].
        rewrite <- Hq. split; [lia|]. apply Z.pow_lt_mono_r; lia. }
      split; [|split].
      * cbn [SF2R]. rewrite Hc.
        replace prec with (Z.succ (prec - 1)) at 1 by lia.
        rewrite Z.pow_succ_r, Hq by lia.
        rewrite bpow_add, bpow_1.
        destruct sx; cbn [cond_Zopp]; rewrite ?opp_IZR, ?mult_IZR; ring.
      * cbn [valid_binary]. unfold bounded, canonical_mantissa.
        rewrite Hdq. apply andb_true_intro. split.
        -- apply Z.eqb_eq. unfold SpecFloat.fexp. lia.
        -- apply Z.leb_le. lia.
      * reflexivity.
    + (* the rounded mantissa fits *)
      assert (Hm2pos : (0 < m2)%Z) by lia.
      assert (Hdig : (Zdigits2 m2 <= prec)%Z).
      { destruct (Zdigits2_bounds m2 Hm2pos) as [Hlo _].
        destruct (Z_le_gt_dec (Zdigits2 m2) prec); [assumption|].
        assert (2 ^ prec <= 2 ^ (Zdigits2 m2 - 1))%Z by (apply Z.pow_le_mono_r; lia).
        lia. }
      assert (Hcan : fexp (Zdigits2 m2 + E) = E).
      { destruct (Z.eq_dec E emin) as [He|He].
        - unfold SpecFloat.fexp. lia.
        - assert (2 ^ (prec - 1) <= m1)%Z by (apply Hm1norm; lia).
          assert (Zdigits2 m2 = prec).
          { apply Zdigits2_unique; lia. }
          unfold SpecFloat.fexp. lia. }
      rewrite Hcan, Z.sub_diag. cbn [shr_m].
      destruct m2 as [|q|q] eqn:Hq; try lia.
      replace (E <=? emax - prec)%Z with true by (symmetry; apply Z.leb_le; lia).
      split; [|split].
      * reflexivity.
      * cbn [valid_binary]. unfold bounded, canonical_mantissa.
        apply andb_true_intro. split.
        -- apply Z.eqb_eq. exact Hcan.
        -- apply Z.leb_le. lia.
      * reflexivity.
Qed.


Lemma scaled_back x e : x * bpow (- e) * bpow e = x.
Proof.
  rewrite Rmult_assoc, <- bpow_add, Z.add_opp_diag_l, bpow_0. ring.
Qed.

Lemma scaled_back_r x e : x * bpow e * bpow (- e) = x.
Proof.
  rewrite Rmult_assoc, <- bpow_add, Z.add_opp_diag_r, bpow_0. ring.
Qed.

Lemma round_aux_rounded m e l x :
  (0 < m)%Z -> inloc (x * bpow (- e)) m l ->
  (e <= fexp (Zdigits2 m + e))%Z ->
  x < bpow (emax - 1) ->
  rounded prec emax (binary_round_aux prec emax false m e l) x.
Proof.
  intros Hm Hx Hal Hov.
  destruct (binary_round_aux_correct false m e l x Hm Hx Hal Hov)
    as (m' & Hm' & Herr & Hval & Hvalid & Hfin).
  exists (Zdigits2 m + e)%Z, m'. repeat split; try assumption.
  - apply inloc_bounds in Hx. destruct (IZR_bpow_bounds m Hm) as [Hb _].
    replace (Zdigits2 m + e - 1)%Z with ((Zdigits2 m - 1) + e)%Z by lia.
    rewrite bpow_add. pose proof (bpow_pos e).
    rewrite <- (scaled_back x e). apply Rmult_le_compat_r; lra.
  - apply inloc_bounds in Hx. destruct (Zdigits2_bounds m Hm) as [_ Hb].
    assert (Hd : (0 < Zdigits2 m)%Z) by (destruct m; simpl in *; lia).
    assert (IZR m + 1 <= bpow (Zdigits2 m)).
    { rewrite bpow_IZR by lia. rewrite <- plus_IZR. apply IZR_le. lia. }
    rewrite bpow_add. pose proof (bpow_pos e).
    rewrite <- (scaled_back x e).
    apply Rlt_le_trans with ((IZR m + 1) * bpow e).
    + apply Rmult_lt_compat_r; lra.
    + apply Rmult_le_compat_r; lra.
Qed.

Lemma rounded_rel r x :
  rounded prec emax r x -> bpow (emin + prec - 1) <= x ->
  Rabs (SF2R r - x) <= bpow (- prec) * x.
Proof.
  intros (mag & m' & [Hlo Hhi] & Hm' & Herr & Hval & _) Hnorm.
  assert (Hmag : (emin + prec - 1 < mag)%Z) by (apply bpow_lt_inv; lra).
  rewrite Hval.
  replace (fexp mag) with (mag - prec)%Z in * by (unfold SpecFloat.fexp; lia).
  eapply Rle_trans; [exact Herr|].
  replace (mag - prec)%Z with ((mag - 1) + (- prec) + 1)%Z by lia.
  rewrite !bpow_add, bpow_1.
  pose proof (bpow_pos (- prec)). nra.
Qed.

Lemma rounded_exact r x k ek :
  rounded prec emax r x -> x = IZR k * bpow ek -> (Z.abs k < 2 ^ prec)%Z ->
  (emin <= ek)%Z -> SF2R r = x.
Proof.
  intros (mag & m' & [Hlo Hhi] & Hm' & Herr & Hval & _) Hx Hk Hek.
  assert (Hxpos : 0 < x) by (pose proof (bpow_pos (mag - 1)); lra).
  assert (Hkpos : (0 < k)%Z).
  { destruct (Z_lt_le_dec 0 k); [assumption|].
    assert (IZR k <= 0) by (apply IZR_le; assumption).
    pose proof (bpow_pos ek). nra. }
  assert (Hmag : (mag - 1 < prec + ek)%Z).
  { apply bpow_lt_inv. eapply Rle_lt_trans; [exact Hlo|].
    rewrite Hx, bpow_add. pose proof (bpow_pos ek).
    apply Rmult_lt_compat_r; [assumption|].
    rewrite bpow_IZR by lia. apply IZR_lt. lia. }
  assert (HE : (fexp mag <= ek)%Z) by (unfold SpecFloat.fexp; lia).
  set (E := fexp mag) in *.
  assert (HxE : x = IZR (k * 2 ^ (ek - E)) * bpow E).
  { rewrite Hx, mult_IZR, <- bpow_IZR by lia.
    rewrite Rmult_assoc, <- bpow_add. do 2 f_equal. lia. }
  rewrite Hval. rewrite HxE in Herr |- *.
  f_equal. f_equal.
  assert (Hd : Rabs (IZR m' - IZR (k * 2 ^ (ek - E))) <= / 2).
  { pose proof (bpow_pos E) as HbE.
    rewrite <- Rmult_minus_distr_r, Rabs_mult, (Rabs_pos_eq (bpow E)) in Herr by lra.
    nra. }
  rewrite <- minus_IZR in Hd.
  apply Rabs_le_inv in Hd.
  assert (- 1 < m' - k * 2 ^ (ek - E) < 1)%Z.
  { split; apply lt_IZR; lra. }
  lia.
Qed.

Lemma rounded_pos r x :
  rounded prec emax r x -> bpow (emin + prec - 1) <= x -> 0 < SF2R r.
Proof.
  intros Hr Hn. pose proof (rounded_rel r x Hr Hn) as H.
  apply Rabs_le_inv in H.
  assert (0 < x) by (pose proof (bpow_pos (emin + prec - 1)); lra).
  assert (bpow (- prec) <= / 2).
  { rewrite <- bpow_m1. apply bpow_le. lia. }
  nra.
Qed.

Lemma rounded_valid r x : rounded prec emax r x -> valid_binary prec emax r = true.
Proof. intros (? & ? & ? & ? & ? & ? & ? & ?). assumption. Qed.

Lemma rounded_finite r x : rounded prec emax r x -> is_finite_SF r = true.
Proof. intros (? & ? & ? & ? & ? & ? & ? & ?). assumption. Qed.

(** ** The operations round correctly *)

Lemma binary_round_rounded mx ex :
  IZR (Z.pos mx) * bpow ex < bpow (emax - 1) ->
  rounded prec emax (binary_round prec emax false mx ex) (IZR (Z.pos mx) * bpow ex).
Proof.
  intros Hov. unfold binary_round, shl_align.
  set (F := fexp (Z.pos (digits2_pos mx) + ex)).
  destruct (F - ex)%Z as [|p|p] eqn:Hk.
  - apply round_aux_rounded; try assumption; try lia.
    + cbn [inloc]. apply scaled_back_r.
    + cbn [Zdigits2]. fold F. lia.
  - apply round_aux_rounded; try assumption; try lia.
    + cbn [inloc]. apply scaled_back_r.
    + cbn [Zdigits2]. fold F. lia.
  - assert (Hdig : (Zdigits2 (Z.pos (Pos.iter xO mx p)) + F
                    = Z.pos (digits2_pos mx) + ex)%Z).
    { rewrite iter_xO_Z, Zdigits2_shift by lia. cbn [Zdigits2]. lia. }
    apply round_aux_rounded; try assumption; try lia.
    + cbn [inloc]. rewrite iter_xO_Z, mult_IZR, <- bpow_IZR by lia.
      rewrite Rmult_assoc, <- bpow_add. f_equal. f_equal. lia.
    + rewrite Hdig. fold F. lia.
Qed.

Lemma of_Z_rounded z :
  (0 < z)%Z -> IZR z < bpow (emax - 1) ->
  rounded prec emax (binary_normalize prec emax z 0 false) (IZR z).
Proof.
  intros Hz Hov. destruct z as [|p|p]; try lia. cbn [binary_normalize].
  replace (IZR (Z.pos p)) with (IZR (Z.pos p) * bpow 0) by (rewrite bpow_0; ring).
  apply binary_round_rounded. rewrite bpow_0, Rmult_1_r. assumption.
Qed.

Lemma valid_canonical m e :
  valid_binary prec emax (S754_finite false m e) = true ->
  fexp (Z.pos (digits2_pos m) + e) = e.
Proof.
  cbn [valid_binary]. unfold bounded, canonical_mantissa.
  intros H. apply andb_prop in H. destruct H as [H _].
  apply Z.eqb_eq in H. exact H.
Qed.

Lemma emin_neg : (emin < 0)%Z.
Proof. unfold SpecFloat.emin. lia. Qed.

Lemma SFmul_rounded x y :
  valid_binary prec emax x = true -> valid_binary prec emax y = true ->
  is_finite_SF x = true -> is_finite_SF y = true ->
  0 < SF2R x -> 0 < SF2R y ->
  SF2R x * SF2R y < bpow (emax - 1) ->
  rounded prec emax (SFmul prec emax x y) (SF2R x * SF2R y).
Proof.
  intros Hvx Hvy Hfx Hfy Hpx Hpy Hov.
  destruct (pos_finite_inv x Hfx Hpx) as (mx & ex & ->).
  destruct (pos_finite_inv y Hfy Hpy) as (my & ey & ->).
  cbn [SFmul xorb]. cbn [SF2R cond_Zopp] in *.
  apply valid_canonical in Hvx, Hvy.
  apply round_aux_rounded; try assumption; try lia.
  - cbn [inloc]. rewrite Pos2Z.inj_mul, mult_IZR.
    replace (- (ex + ey))%Z with (- ex + - ey)%Z by lia.
    rewrite bpow_add.
    transitivity (IZR (Z.pos mx) * (bpow ex * bpow (- ex))
                  * (IZR (Z.pos my) * (bpow ey * bpow (- ey)))); [ring|].
    rewrite <- !bpow_add, !Z.add_opp_diag_r, bpow_0. ring.
  - (* the product of two canonical mantissas is wide enough *)
    assert (Hdx := Zdigits2_bounds (Z.pos mx) eq_refl).
    assert (Hdy := Zdigits2_bounds (Z.pos my) eq_refl).
    assert (Hdp := Zdigits2_bounds (Z.pos (mx * my)) eq_refl).
    cbn [Zdigits2] in *.
    set (dx := Z.pos (digits2_pos mx)) in *.
    set (dy := Z.pos (digits2_pos my)) in *.
    set (dp := Z.pos (digits2_pos (mx * my))) in *.
    assert (Hd : (dx + dy - 1 <= dp)%Z).
    { assert (2 ^ (dx - 1 + (dy - 1)) < 2 ^ dp)%Z.
      { rewrite Z.pow_add_r by lia. rewrite Pos2Z.inj_mul in Hdp. nia. }
      apply Z.pow_lt_mono_r_iff in H; lia. }
    pose proof emin_neg.
    unfold SpecFloat.fexp in *. lia.
Qed.

Lemma SFadd_rounded x y :
  is_finite_SF x = true -> is_finite_SF y = true ->
  0 < SF2R x -> 0 < SF2R y ->
  SF2R x + SF2R y < bpow (emax - 1) ->
  rounded prec emax (SFadd prec emax x y) (SF2R x + SF2R y).
Proof.
  intros Hfx Hfy Hpx Hpy Hov.
  destruct (pos_finite_inv x Hfx Hpx) as (mx & ex & ->).
  destruct (pos_finite_inv y Hfy Hpy) as (my & ey & ->).
  cbn [SFadd cond_Zopp]. cbn [SF2R cond_Zopp] in *.
  set (ez := Z.min ex ey).
  assert (Hal : forall m e, (ez <= e)%Z ->
            IZR (Z.pos (fst (shl_align m e ez))) * bpow ez = IZR (Z.pos m) * bpow e).
  { intros m e He. unfold shl_align.
    destruct (ez - e)%Z as [|p|p] eqn:Hk; cbn [fst].
    - replace e with ez by lia. reflexivity.
    - lia.
    - rewrite iter_xO_Z, mult_IZR, <- bpow_IZR by lia.
      rewrite Rmult_assoc, <- bpow_add. do 2 f_equal. lia. }
  cbn [Z.add binary_normalize].
  replace (IZR (Z.pos mx) * bpow ex + IZR (Z.pos my) * bpow ey)
    with (IZR (Z.pos (fst (shl_align mx ex ez) + fst (shl_align my ey ez))) * bpow ez).
  - apply binary_round_rounded.
    rewrite Pos2Z.inj_add, plus_IZR, Rmult_plus_distr_r, !Hal by (unfold ez; lia).
    assumption.
  - rewrite Pos2Z.inj_add, plus_IZR, Rmult_plus_distr_r, !Hal by (unfold ez; lia).
    reflexivity.
Qed.

Lemma SFdiv_rounded x y :
  is_finite_SF x = true -> is_finite_SF y = true ->
  0 < SF2R x -> 0 < SF2R y ->
  bpow (emin + prec - 1) <= SF2R x / SF2R y ->
  SF2R x / SF2R y < bpow (emax - 1) ->
  rounded prec emax (SFdiv prec emax x y) (SF2R x / SF2R y).
Proof.
  intros Hfx Hfy Hpx Hpy Hnorm Hov.
  destruct (pos_finite_inv x Hfx Hpx) as (mx & ex & ->).
  destruct (pos_finite_inv y Hfy Hpy) as (my & ey & ->).
  cbn [SFdiv xorb]. cbn [SF2R cond_Zopp] in *.
  unfold SFdiv_core_binary.
  assert (Hdx := Zdigits2_bounds (Z.pos mx) eq_refl).
  assert (Hdy := Zdigits2_bounds (Z.pos my) eq_refl).
  destruct (IZR_bpow_bounds (Z.pos mx) eq_refl) as [_ Hbx].
  destruct (IZR_bpow_bounds (Z.pos my) eq_refl) as [Hby _].
  set (d1 := Zdigits2 (Z.pos mx)) in *. set (d2 := Zdigits2 (Z.pos my)) in *.
  assert (Hd1 : (0 < d1)%Z) by (unfold d1; cbn; lia).
  assert (Hd2 : (0 < d2)%Z) by (unfold d2; cbn; lia).
  set (D := (d1 + ex - (d2 + ey))%Z).
  set (e' := Z.min (fexp D) (ex - ey)).
  set (s := (ex - ey - e')%Z).
  assert (Hs : (0 <= s)%Z) by (unfold s, e'; lia).
  set (t := IZR (Z.pos mx) * bpow ex / (IZR (Z.pos my) * bpow ey)) in *.
  pose proof (bpow_pos ex) as Hbex. pose proof (bpow_pos ey) as Hbey.
  assert (HX : 0 < IZR (Z.pos mx)) by (apply IZR_lt; lia).
  assert (HY : 0 < IZR (Z.pos my)) by (apply IZR_lt; lia).
  (* the quotient is below 2^(D+1) *)
  assert (HtD : t < bpow (D + 1)).
  { assert (Ht : t * (IZR (Z.pos my) * bpow ey) = IZR (Z.pos mx) * bpow ex)
      by (unfold t; field; lra).
    assert (H1 : IZR (Z.pos mx) * bpow ex < bpow (d1 + ex)).
    { rewrite bpow_add. apply Rmult_lt_compat_r; assumption. }
    assert (H2 : bpow (d2 - 1 + ey) <= IZR (Z.pos my) * bpow ey).
    { rewrite bpow_add. apply Rmult_le_compat_r; lra. }
    assert (H3 : bpow (d1 + ex) = bpow (D + 1) * bpow (d2 - 1 + ey)).
    { rewrite <- bpow_add. f_equal. unfold D. lia. }
    pose proof (bpow_pos (D + 1)). pose proof (bpow_pos (d2 - 1 + ey)).
    assert (0 < IZR (Z.pos my) * bpow ey) by nra.
    nra. }
  assert (HD : (emin + prec - 1 < D + 1)%Z) by (apply bpow_lt_inv; lra).
  assert (He' : (e' <= fexp D)%Z) by (unfold e'; lia).
  assert (Hk : (0 <= d1 + s - d2 - 1)%Z).
  { unfold s, e', D, SpecFloat.fexp in *. lia. }
  set (m' := match s with
             | 0%Z => Z.pos mx
             | Z.pos _ => Z.shiftl (Z.pos mx) s
             | Z.neg _ => 0%Z
             end).
  assert (Hm' : m' = (Z.pos mx * 2 ^ s)%Z).
  { apply shiftl_cases. exact Hs. }
  pose proof (Z_div_mod m' (Z.pos my) eq_refl) as Hdiv.
  destruct (Z.div_eucl m' (Z.pos my)) as [q r].
  destruct Hdiv as [Hqr Hr].
  assert (Hps : (0 < 2 ^ s)%Z) by (apply Z.pow_pos_nonneg; lia).
  assert (Hq : (2 ^ (d1 + s - d2 - 1) <= q)%Z).
  { assert (Hpk : (0 < 2 ^ (d1 + s - d2 - 1))%Z) by (apply Z.pow_pos_nonneg; lia).
    assert (H1 : (2 ^ d2 * 2 ^ (d1 + s - d2 - 1) = 2 ^ (d1 - 1) * 2 ^ s)%Z).
    { rewrite <- !Z.pow_add_r by lia. f_equal. lia. }
    assert (H2 : (Z.pos my * 2 ^ (d1 + s - d2 - 1) < m')%Z) by (rewrite Hm'; nia).
    nia. }
  assert (Hqpos : (0 < q)%Z).
  { assert (0 < 2 ^ (d1 + s - d2 - 1))%Z by (apply Z.pow_pos_nonneg; lia). lia. }
  apply round_aux_rounded; try assumption.
  - replace (t * bpow (- e')) with (IZR q + IZR r / IZR (Z.pos my)).
    + apply new_location_inloc; [reflexivity | assumption].
    + assert (HI : IZR m' = IZR (Z.pos my) * IZR q + IZR r)
        by (rewrite Hqr, plus_IZR, mult_IZR; reflexivity).
      assert (Hbs : IZR m' = IZR (Z.pos mx) * (bpow ex * bpow (- ey) * bpow (- e'))).
      { rewrite Hm', mult_IZR, <- bpow_IZR, <- !bpow_add by lia.
        do 2 f_equal; try (unfold s; lia). }
      rewrite bpow_opp in Hbs.
      unfold t. rewrite (bpow_opp e') in *.
      pose proof (bpow_pos e').
      apply Rmult_eq_reg_r with (IZR (Z.pos my)); [|lra].
      transitivity (IZR m'); [rewrite HI; field; lra | rewrite Hbs; field; lra].
  - assert (Hdq : (d1 + s - d2 - 1 < Zdigits2 q)%Z).
    { destruct (Zdigits2_bounds q Hqpos) as [_ Hhi].
      apply (Z.pow_lt_mono_r_iff 2); [lia | | lia].
      destruct q; cbn in *; lia. }
    apply Z.le_trans with (fexp D); [assumption|].
    apply fexp_mono. unfold s, D in *. lia.
Qed.

End Rounding.

(** ** Accumulated rounding errors *)

Lemma u32_val : u32 = / 16777216.
Proof.
  unfold u32. change (- 24)%Z with (Z.opp 24). rewrite bpow_opp, bpow_IZR by lia.
  reflexivity.
Qed.

Lemma u32_bounds : 0 < u32 < / 1000000.
Proof. rewrite u32_val. lra. Qed.

Lemma approx_S k v x : 0 <= x -> approx k v x -> approx (S k) v x.
Proof.
  unfold approx. intros Hx [H1 H2]. pose proof u32_bounds as Hu.
  assert (0 <= (1 - u32) ^ k) by (apply pow_le; lra).
  assert (0 <= (1 + u32) ^ k) by (apply pow_le; lra).
  cbn [pow].
  set (P := (1 - u32) ^ k) in *. set (Q := (1 + u32) ^ k) in *. clearbody P Q.
  assert (0 <= x * P) by (apply Rmult_le_pos; assumption).
  assert (0 <= x * Q) by (apply Rmult_le_pos; assumption).
  split; nra.
Qed.

Lemma approx_weaken j k v x : (j <= k)%nat -> 0 <= x -> approx j v x -> approx k v x.
Proof.
  intros Hjk Hx H. induction Hjk; [assumption|]. apply approx_S; assumption.
Qed.

Lemma approx_exact v x : v = x -> approx 0 v x.
Proof. intros ->. unfold approx. cbn [pow]. lra. Qed.

Lemma approx_0_inv v x : approx 0 v x -> v = x.
Proof. unfold approx. cbn [pow]. lra. Qed.

Lemma pow_16_bounds : / 2 <= (1 - u32) ^ 16 /\ (1 + u32) ^ 16 <= 2.
Proof. rewrite u32_val. cbn [pow]. lra. Qed.

Lemma pow_8_bounds :
  1 - / 1048576 <= (1 - u32) ^ 8 /\ (1 + u32) ^ 8 <= 1 + / 1048576.
Proof. rewrite u32_val. cbn [pow]. lra. Qed.

Lemma approx_bounds k v x :
  (k <= 16)%nat -> 0 <= x -> approx k v x -> x / 2 <= v <= 2 * x.
Proof.
  intros Hk Hx H. apply (approx_weaken k 16) in H; try assumption.
  destruct H as [H1 H2]. destruct pow_16_bounds as [P1 P2].
  set (P := (1 - u32) ^ 16) in *. set (Q := (1 + u32) ^ 16) in *. clearbody P Q.
  split; nra.
Qed.

(** After at most eight roundings the relative error is below [2^-20]. *)
Lemma approx_close k v x :
  (k <= 8)%nat -> 0 <= x -> approx k v x -> Rabs (v - x) <= / 1048576 * x.
Proof.
  intros Hk Hx H. apply (approx_weaken k 8) in H; try assumption.
  destruct H as [H1 H2]. destruct pow_8_bounds as [P1 P2].
  set (P := (1 - u32) ^ 8) in *. set (Q := (1 + u32) ^ 8) in *. clearbody P Q.
  apply Rabs_le. split; nra.
Qed.

Lemma approx_mul j k a b x y :
  0 <= x -> 0 <= y -> approx j a x -> approx k b y ->
  approx (j + k) (a * b) (x * y).
Proof.
  unfold approx. intros Hx Hy [A1 A2] [B1 B2]. pose proof u32_bounds as Hu.
  rewrite !pow_add.
  assert (0 <= (1 - u32) ^ j) by (apply pow_le; lra).
  assert (0 <= (1 - u32) ^ k) by (apply pow_le; lra).
  assert (0 <= (1 + u32) ^ j) by (apply pow_le; lra).
  assert (0 <= (1 + u32) ^ k) by (apply pow_le; lra).
  assert (0 <= x * (1 - u32) ^ j) by (apply Rmult_le_pos; assumption).
  assert (0 <= y * (1 - u32) ^ k) by (apply Rmult_le_pos; assumption).
  split.
  - replace (x * y * ((1 - u32) ^ j * (1 - u32) ^ k))
      with ((x * (1 - u32) ^ j) * (y * (1 - u32) ^ k)) by ring.
    apply Rmult_le_compat; lra.
  - replace (x * y * ((1 + u32) ^ j * (1 + u32) ^ k))
      with ((x * (1 + u32) ^ j) * (y * (1 + u32) ^ k)) by ring.
    apply Rmult_le_compat; lra.
Qed.

Lemma approx_div_exact j a x y :
  0 < y -> approx j a x -> approx j (a / y) (x / y).
Proof.
  unfold approx. intros Hy [A1 A2].
  assert (0 < / y) by (apply Rinv_0_lt_compat; assumption).
  unfold Rdiv. split.
  - replace (x * / y * (1 - u32) ^ j) with (x * (1 - u32) ^ j * / y) by ring.
    apply Rmult_le_compat_r; lra.
  - replace (x * / y * (1 + u32) ^ j) with (x * (1 + u32) ^ j * / y) by ring.
    apply Rmult_le_compat_r; lra.
Qed.

Section Tracking.

Variables prec emax : Z.
Hypothesis Hprec : (24 <= prec)%Z.
Hypothesis Hemax : (prec < emax)%Z.
Hypothesis Hemax128 : (128 <= emax)%Z.

Local Abbreviation emin := (emin prec emax).

Lemma prec_gt_1 : (1 < prec)%Z.
Proof. lia. Qed.

Lemma safe_normal a x :
  safe x -> x / 2 <= a <= 2 * x ->
  bpow (emin + prec - 1) <= a /\ a < bpow (emax - 1).
Proof.
  intros [S1 S2] [A1 A2].
  assert (bpow (emin + prec - 1) <= bpow (- 101)).
  { apply bpow_le. unfold SpecFloat.emin. lia. }
  assert (bpow 102 <= bpow (emax - 1)) by (apply bpow_le; lia).
  assert (bpow (- 100) = 2 * bpow (- 101)).
  { replace (- 100)%Z with (1 + - 101)%Z by lia. rewrite bpow_add, bpow_1. ring. }
  assert (bpow 102 = 4 * bpow 100).
  { replace 102%Z with (1 + 1 + 100)%Z by lia. rewrite !bpow_add, bpow_1. ring. }
  pose proof (bpow_pos 100). pose proof (bpow_pos (- 101)).
  split; lra.
Qed.

Lemma rounded_tracks r a k x :
  rounded prec emax r a -> approx k a x -> 0 < x -> safe x -> (k < 16)%nat ->
  tracks prec emax r (S k) x.
Proof.
  intros Hr Ha Hx Hs Hk.
  assert (Hab : x / 2 <= a <= 2 * x) by (apply (approx_bounds k); [lia | lra | assumption]).
  destruct (safe_normal a x Hs Hab) as [Hn _].
  pose proof (rounded_rel prec emax r a Hr Hn) as Hrel.
  apply Rabs_le_inv in Hrel.
  assert (Hu : bpow (- prec) <= u32) by (apply bpow_le; lia).
  pose proof u32_bounds as Hu'. pose proof (bpow_pos (- prec)) as Hp.
  assert (Ha0 : 0 < a) by lra.
  repeat split.
  - eapply rounded_valid; eassumption.
  - eapply rounded_finite; eassumption.
  - assumption.
  - destruct Ha as [A1 A2]. cbn [pow].
    set (P := (1 - u32) ^ k) in *. clearbody P.
    apply Rle_trans with (a * (1 - u32)); [|nra].
    replace (x * ((1 - u32) * P)) with (x * P * (1 - u32)) by ring.
    apply Rmult_le_compat_r; lra.
  - destruct Ha as [A1 A2]. cbn [pow].
    set (Q := (1 + u32) ^ k) in *. clearbody Q.
    apply Rle_trans with (a * (1 + u32)); [nra|].
    replace (x * ((1 + u32) * Q)) with (x * Q * (1 + u32)) by ring.
    apply Rmult_le_compat_r; lra.
Qed.

Lemma tracks_pos r k x : tracks prec emax r k x -> (k <= 16)%nat -> 0 < SF2R r.
Proof.
  intros (_ & _ & Hx & Ha) Hk.
  pose proof (approx_bounds k _ _ Hk (Rlt_le _ _ Hx) Ha). lra.
Qed.

Lemma tracks_of_Z z :
  (0 < z < 2 ^ 24)%Z ->
  tracks prec emax (binary_normalize prec emax z 0 false) 0 (IZR z).
Proof.
  intros [Hz1 Hz2].
  assert (Hov : IZR z < bpow (emax - 1)).
  { apply Rlt_le_trans with (bpow 24).
    - rewrite bpow_IZR by lia. apply IZR_lt. assumption.
    - apply bpow_le. lia. }
  pose proof (of_Z_rounded prec emax prec_gt_1 Hemax z Hz1 Hov) as Hr.
  refine (conj _ (conj _ (conj _ _))).
  - eapply rounded_valid; eassumption.
  - eapply rounded_finite; eassumption.
  - apply IZR_lt. assumption.
  - apply approx_exact.
    apply (rounded_exact prec emax prec_gt_1 _ _ z 0 Hr).
    + rewrite bpow_0. ring.
    + assert (2 ^ 24 <= 2 ^ prec)%Z by (apply Z.pow_le_mono_r; lia). lia.
    + unfold SpecFloat.emin. lia.
Qed.

Lemma tracks_mul a b j k x y :
  tracks prec emax a j x -> tracks prec emax b k y ->
  safe (x * y) -> (j + k < 16)%nat ->
  tracks prec emax (SFmul prec emax a b) (S (j + k)) (x * y).
Proof.
  intros Ta Tb Hs Hk.
  pose proof (tracks_pos a j x Ta ltac:(lia)) as Pa.
  pose proof (tracks_pos b k y Tb ltac:(lia)) as Pb.
  destruct Ta as (Va & Fa & Hx & Aa). destruct Tb as (Vb & Fb & Hy & Ab).
  assert (Hxy : 0 < x * y) by nra.
  pose proof (approx_mul j k _ _ x y (Rlt_le _ _ Hx) (Rlt_le _ _ Hy) Aa Ab) as Hab.
  assert (Hb : x * y / 2 <= SF2R a * SF2R b <= 2 * (x * y)).
  { apply (approx_bounds (j + k)); [lia | lra | assumption]. }
  destruct (safe_normal _ _ Hs Hb) as [_ Hov].
  eapply rounded_tracks; try eassumption.
  apply SFmul_rounded; try assumption. apply prec_gt_1.
Qed.

Lemma tracks_div a b j x y :
  tracks prec emax a j x -> tracks prec emax b 0 y ->
  safe (x / y) -> (j < 16)%nat ->
  tracks prec emax (SFdiv prec emax a b) (S j) (x / y).
Proof.
  intros Ta Tb Hs Hk.
  pose proof (tracks_pos a j x Ta ltac:(lia)) as Pa.
  pose proof (tracks_pos b 0 y Tb ltac:(lia)) as Pb.
  destruct Ta as (Va & Fa & Hx & Aa). destruct Tb as (Vb & Fb & Hy & Ab).
  apply approx_0_inv in Ab.
  assert (Hxy : 0 < x / y) by (apply Rdiv_lt_0_compat; assumption).
  pose proof (approx_div_exact j _ x y Hy Aa) as Hab.
  rewrite <- Ab in Hab at 1.
  assert (Hb : x / y / 2 <= SF2R a / SF2R b <= 2 * (x / y)).
  { apply (approx_bounds j); [lia | lra | assumption]. }
  destruct (safe_normal _ _ Hs Hb) as [Hn Hov].
  eapply rounded_tracks; try eassumption.
  apply SFdiv_rounded; try assumption. apply prec_gt_1.
Qed.

Lemma tracks_convert p0 e0 a j x :
  tracks p0 e0 a j x -> safe x -> (j < 16)%nat ->
  tracks prec emax (SFconvert prec emax a) (S j) x.
Proof.
  intros (Va & Fa & Hx & Aa) Hs Hk.
  assert (Hb : x / 2 <= SF2R a <= 2 * x).
  { apply (approx_bounds j); [lia | lra | assumption]. }
  assert (Pa : 0 < SF2R a) by lra.
  destruct (safe_normal _ _ Hs Hb) as [_ Hov].
  destruct (pos_finite_inv a Fa Pa) as (m & e & ->).
  cbn [SFconvert]. cbn [SF2R cond_Zopp] in *.
  eapply rounded_tracks; try eassumption.
  apply binary_round_rounded; try assumption. apply prec_gt_1.
Qed.

End Tracking.

(** ** Sorting *)

Open Scope Z_scope.

Lemma insert_length x l : length (insert x l) = S (length l).
Proof.
  induction l as [|y l IH]; cbn; [reflexivity|].
  destruct (x <=? y); cbn; [reflexivity | rewrite IH; reflexivity].
Qed.

Lemma sort_length l : length (sort l) = length l.
Proof.
  induction l as [|x l IH]; cbn; [reflexivity|].
  rewrite insert_length, IH. reflexivity.
Qed.

Lemma insert_perm x l : Permutation (x :: l) (insert x l).
Proof.
  induction l as [|y l IH]; cbn; [apply Permutation_refl|].
  destruct (x <=? y); [apply Permutation_refl|].
  eapply Permutation_trans; [apply perm_swap|]. apply perm_skip, IH.
Qed.

Lemma sort_perm l : Permutation l (sort l).
Proof.
  induction l as [|x l IH]; cbn; [apply perm_nil|].
  eapply Permutation_trans; [apply perm_skip, IH | apply insert_perm].
Qed.

Lemma insert_sorted x l :
  StronglySorted Z.le l -> StronglySorted Z.le (insert x l).
Proof.
  induction 1 as [|y l Hs IH Hy]; cbn.
  - constructor; [constructor | constructor].
  - destruct (Z.leb_spec x y) as [Hxy|Hxy].
    + constructor; [constructor; assumption|].
      constructor; [assumption|].
      eapply Forall_impl; [|exact Hy]. cbn. intros; lia.
    + constructor; [assumption|].
      apply (Permutation_Forall (insert_perm x l)).
      constructor; [lia | assumption].
Qed.

Lemma sort_sorted l : StronglySorted Z.le (sort l).
Proof.
  induction l as [|x l IH]; cbn; [constructor | apply insert_sorted, IH].
Qed.

(** In a sorted list, elements are ordered like their positions. *)
Lemma sorted_nth l : StronglySorted Z.le l ->
  forall i j d, (i <= j < length l)%nat -> nth i l d <= nth j l d.
Proof.
  induction 1 as [|x l Hs IH Hx]; intros i j d Hij; cbn in Hij; [lia|].
  destruct i as [|i], j as [|j]; cbn; try lia.
  - rewrite Forall_forall in Hx. apply Hx, nth_In. lia.
  - apply IH. lia.
Qed.

Lemma sort_range (P : Z -> Prop) l : Forall P l -> Forall P (sort l).
Proof. apply Permutation_Forall, sort_perm. Qed.

(** ** Loops over ADC conversions *)

Section Programs.

Variable adc : nat -> Z -> Z.
Variable A1 : Z.

Lemma samples_S pin t n :
  samples adc pin t (S n) = adc t pin :: samples adc pin (S t) n.
Proof.
  unfold samples. cbn [seq map]. rewrite Nat.add_0_r. f_equal.
  rewrite <- seq_shift, map_map. apply map_ext. intros i. f_equal. lia.
Qed.

Lemma samples_length pin t n : length (samples adc pin t n) = n.
Proof. unfold samples. rewrite length_map, length_seq. reflexivity. Qed.

Lemma after_reads_0 pin st : after_reads pin 0 st = st.
Proof. destruct st; reflexivity. Qed.

Lemma after_reads_S pin n st :
  after_reads pin n (snd (analogRead adc pin st)) = after_reads pin (S n) st.
Proof.
  unfold after_reads, reads. cbn. f_equal.
  change ((pin, aref st) :: trace st) with ([(pin, aref st)] ++ trace st).
  rewrite app_assoc, <- repeat_cons. reflexivity.
Qed.

Lemma for_loop_analogRead {A} (f : A -> Z -> A) pin k : forall a st,
  for_loop k (fun acc => v <- analogRead adc pin ;; ret (f acc v)) a st
  = (fold_left f (samples adc pin (length (trace st)) k) a,
     after_reads pin k st).
Proof.
  induction k as [|k IH]; intros a st.
  - cbn. rewrite after_reads_0. reflexivity.
  - rewrite samples_S. cbn [fold_left for_loop].
    unfold bind at 1 2. cbn [analogRead ret].
    rewrite IH. cbn [trace length].
    rewrite <- after_reads_S. reflexivity.
Qed.

Lemma generate_analogRead {A} (g : Z -> A) pin k : forall st,
  generate k (v <- analogRead adc pin ;; ret (g v)) st
  = (map g (samples adc pin (length (trace st)) k), after_reads pin k st).
Proof.
  induction k as [|k IH]; intros st.
  - cbn. rewrite after_reads_0. reflexivity.
  - rewrite samples_S. cbn [map generate].
    unfold bind at 1 2. cbn [analogRead ret].
    unfold bind at 1. rewrite IH. cbn [trace length ret].
    rewrite <- after_reads_S. reflexivity.
Qed.

End Programs.

(** ** The two formats of the firmware *)

Open Scope R_scope.

Lemma bpow_pos_lit p : bpow (Z.pos p) = IZR (2 ^ Z.pos p).
Proof. apply bpow_IZR. lia. Qed.

Lemma bpow_neg_lit p : bpow (Z.neg p) = / IZR (2 ^ Z.pos p).
Proof.
  change (Z.neg p) with (- Z.pos p)%Z. rewrite bpow_opp, bpow_IZR by lia.
  reflexivity.
Qed.

(** Turns powers of two with literal exponents into numerals. *)
Ltac bpow_eval :=
  repeat match goal with
  | |- context [bpow (Z.pos ?p)] =>
      let v := eval vm_compute in (2 ^ Z.pos p)%Z in
      rewrite (bpow_pos_lit p); change (2 ^ Z.pos p)%Z with v
  | |- context [bpow (Z.neg ?p)] =>
      let v := eval vm_compute in (2 ^ Z.pos p)%Z in
      rewrite (bpow_neg_lit p); change (2 ^ Z.pos p)%Z with v
  end.

Lemma safe_intro x : / 1000000000 <= x <= 1000000000 -> safe x.
Proof. unfold safe. intros [H1 H2]. bpow_eval. split; lra. Qed.

(** A float whose mantissa and exponent are literals: its value is read off. *)
Lemma tracks_literal prec emax m e x :
  valid_binary prec emax (S754_finite false m e) = true ->
  0 < x -> IZR (Z.pos m) * bpow e = x ->
  tracks prec emax (S754_finite false m e) 0 x.
Proof.
  intros Hv Hx He. refine (conj Hv (conj eq_refl (conj Hx _))).
  apply approx_exact. exact He.
Qed.

Lemma valid_mantissa prec emax m e :
  (0 < prec)%Z ->
  valid_binary prec emax (S754_finite false m e) = true ->
  (Z.pos m < 2 ^ prec)%Z /\ (emin prec emax <= e)%Z.
Proof.
  intros Hp Hv. cbn [valid_binary] in Hv. unfold bounded, canonical_mantissa in Hv.
  apply andb_prop in Hv. destruct Hv as [Hc _]. apply Z.eqb_eq in Hc.
  destruct (Zdigits2_bounds (Z.pos m) eq_refl) as [_ Hd]. cbn [Zdigits2] in Hd.
  unfold fexp in Hc. split; [|lia].
  apply Z.lt_le_trans with (1 := Hd). apply Z.pow_le_mono_r; lia.
Qed.

Lemma F32_of_Z z : (0 < z < 2 ^ 24)%Z -> tracks32 (F32.of_Z z) 0 (IZR z).
Proof. intros Hz. apply (tracks_of_Z 24 128); try lia. Qed.

Lemma F64_of_Z z : (0 < z < 2 ^ 24)%Z -> tracks64 (F64.of_Z z) 0 (IZR z).
Proof. intros Hz. apply (tracks_of_Z 53 1024); try lia. Qed.

Lemma F32_mul a b j k x y :
  tracks32 a j x -> tracks32 b k y -> safe (x * y) -> (j + k < 16)%nat ->
  tracks32 (F32.mul a b) (S (j + k)) (x * y).
Proof. apply (tracks_mul 24 128); lia. Qed.

Lemma F64_mul a b j k x y :
  tracks64 a j x -> tracks64 b k y -> safe (x * y) -> (j + k < 16)%nat ->
  tracks64 (F64.mul a b) (S (j + k)) (x * y).
Proof. apply (tracks_mul 53 1024); lia. Qed.

Lemma F32_div a b j x y :
  tracks32 a j x -> tracks32 b 0 y -> safe (x / y) -> (j < 16)%nat ->
  tracks32 (F32.div a b) (S j) (x / y).
Proof. apply (tracks_div 24 128); lia. Qed.

Lemma F64_div a b j x y :
  tracks64 a j x -> tracks64 b 0 y -> safe (x / y) -> (j < 16)%nat ->
  tracks64 (F64.div a b) (S j) (x / y).
Proof. apply (tracks_div 53 1024); lia. Qed.

(** Narrowing a [double] to [float] rounds once. *)
Lemma F32_of_double a j x :
  tracks64 a j x -> safe x -> (j < 16)%nat -> tracks32 (F32.of_double a) (S j) x.
Proof. apply (tracks_convert 24 128); lia. Qed.

(** Widening a [float] to [double] is exact. *)
Lemma F64_of_float a j x :
  tracks32 a j x -> safe x -> (j <= 16)%nat -> tracks64 (F64.of_float a) j x.
Proof.
  intros (Va & Fa & Hx & Aa) Hs Hk.
  assert (Hb : x / 2 <= SF2R a <= 2 * x).
  { apply (approx_bounds j); [lia | lra | assumption]. }
  assert (Pa : 0 < SF2R a) by lra.
  destruct (safe_normal 53 1024 ltac:(lia) _ _ Hs Hb) as [_ Hov].
  destruct (pos_finite_inv a Fa Pa) as (m & e & ->).
  destruct (valid_mantissa 24 128 m e ltac:(lia) Va) as [Hm He].
  cbn [SF2R cond_Zopp] in *.
  pose proof (binary_round_rounded 53 1024 ltac:(lia) ltac:(lia) m e Hov) as Hr.
  assert (Hex : SF2R (F64.of_float (S754_finite false m e)) = IZR (Z.pos m) * bpow e).
  { apply (rounded_exact 53 1024 ltac:(lia) _ _ (Z.pos m) e Hr); [reflexivity| |].
    - assert (2 ^ 24 < 2 ^ 53)%Z by (apply Z.pow_lt_mono_r; lia).
      rewrite Z.abs_eq by lia. lia.
    - unfold emin in *. lia. }
  refine (conj _ (conj _ (conj Hx _))).
  - eapply rounded_valid; exact Hr.
  - eapply rounded_finite; exact Hr.
  - rewrite Hex. exact Aa.
Qed.

(** The decimal literals of the source. *)
Lemma F64_decimal n d :
  (0 < n < 2 ^ 24)%Z -> (0 < d < 2 ^ 24)%Z -> safe (IZR n / IZR d) ->
  tracks64 (F64.decimal n d) 1 (IZR n / IZR d).
Proof.
  intros Hn Hd Hs. apply F64_div; [apply F64_of_Z | apply F64_of_Z | | lia]; assumption.
Qed.

Lemma half_exact : tracks64 (F64.decimal 5 10) 0 (/ 2).
Proof.
  change (F64.decimal 5 10) with (S754_finite false 4503599627370496 (-53)).
  apply tracks_literal; [reflexivity | lra |]. bpow_eval. lra.
Qed.

Lemma ten_exact :
  tracks64 (F64.mul (F64.div (F64.of_Z 51000) (F64.of_Z 5100)) (F64.of_Z 1)) 0 10.
Proof.
  change (F64.mul (F64.div (F64.of_Z 51000) (F64.of_Z 5100)) (F64.of_Z 1))
    with (S754_finite false 5629499534213120 (-49)).
  apply tracks_literal; [reflexivity | lra |]. bpow_eval. lra.
Qed.

(** ** Scaling of a raw reading *)

Lemma raw_to_voltage_tracks raw :
  (0 < raw < 2 ^ 16)%Z ->
  tracks32 (raw_to_voltage raw) 4 (IZR raw / 65536 * (33 / 10)).
Proof.
  intros Hraw.
  assert (H1 : 1 <= IZR raw) by (apply IZR_le; lia).
  assert (H2 : IZR raw <= 65535) by (apply IZR_le; lia).
  unfold raw_to_voltage.
  apply F32_of_double; [|apply safe_intro; lra|lia].
  apply (F64_mul _ _ 1 1); [| |apply safe_intro; lra|lia].
  - apply F64_of_float; [|apply safe_intro; lra|lia].
    apply (F32_div _ _ 0); [| |apply safe_intro; lra|lia].
    + apply F32_of_Z. lia.
    + apply (F32_of_Z (2 ^ 16)). lia.
  - apply (F64_decimal 33 10); [lia | lia | apply safe_intro; lra].
Qed.

Lemma raw_to_voltage_0 : raw_to_voltage 0 = S754_zero false.
Proof. reflexivity. Qed.

(** ** What each routine computes and how it changes the state *)

Open Scope Z_scope.

Section Routines.

Variable adc : nat -> Z -> Z.
Variable A1 : Z.

Lemma analogRead_run pin st :
  analogRead adc pin st = (adc (length (trace st)) pin, after_reads pin 1 st).
Proof. reflexivity. Qed.

Lemma analog_reads_simple_run pin n st :
  analog_reads_simple adc pin n st
  = (map to_u16 (samples adc pin (length (trace st)) (Z.to_nat n)),
     after_reads pin (Z.to_nat n) st).
Proof. exact (generate_analogRead adc to_u16 pin (Z.to_nat n) st). Qed.

Lemma sum_255_run pin st :
  sum_255 adc pin st
  = (fold_left (fun sum v => to_u32 (sum + v))
               (samples adc pin (length (trace st)) 255) 0,
     after_reads pin 255 st).
Proof.
  exact (for_loop_analogRead adc (fun sum v => to_u32 (sum + v)) pin 255 0 st).
Qed.

Lemma read_max_run pin n st :
  read_max adc pin n st
  = (fold_left (fun max_value v =>
                  if max_value <? to_u16 v then to_u16 v else max_value)
               (samples adc pin (length (trace st)) (Z.to_nat n)) 0,
     after_reads pin (Z.to_nat n) st).
Proof.
  exact (for_loop_analogRead adc
           (fun max_value v =>
              if max_value <? to_u16 v then to_u16 v else max_value)
           pin (Z.to_nat n) 0 st).
Qed.

Lemma read_sum2_run pin n st :
  read_sum2 adc pin n st
  = (fold_left (fun sum2 v =>
                  F32.add sum2 (F32.of_Z (to_i32 (to_u16 v * to_u16 v))))
               (samples adc pin (length (trace st)) (Z.to_nat n)) F32.zero,
     after_reads pin (Z.to_nat n) st).
Proof.
  exact (for_loop_analogRead adc
           (fun sum2 v => F32.add sum2 (F32.of_Z (to_i32 (to_u16 v * to_u16 v))))
           pin (Z.to_nat n) F32.zero st).
Qed.

Lemma read_rms_run pin n st :
  read_rms adc pin n st
  = (float_to_u16 (F32.sqrt (mean_square (fst (read_sum2 adc pin n st)) n)),
     after_reads pin (Z.to_nat n) st).
Proof.
  unfold read_rms, bind. rewrite read_sum2_run. reflexivity.
Qed.

Lemma u16_percentile_diff_state pin n lowp highp st :
  snd (u16_percentile_diff adc pin n lowp highp st)
  = after_reads pin (Z.to_nat n) st.
Proof.
  unfold u16_percentile_diff, bind. rewrite analog_reads_simple_run. reflexivity.
Qed.

Lemma measure_temperature_state st :
  snd (measure_temperature adc st)
  = {| aref := DEFAULT; high_voltage_ := high_voltage_ st;
       trace := reads 38 INTERNAL 255 ++ trace st |}.
Proof.
  unfold measure_temperature, bind. cbn [analogReference].
  rewrite sum_255_run. reflexivity.
Qed.

Lemma measure_aref_state st :
  snd (measure_aref adc st) = after_reads 39 255 st.
Proof.
  unfold measure_aref, bind. rewrite sum_255_run. reflexivity.
Qed.

Lemma measure_output_current_run n st :
  measure_output_current adc n st
  = (output_current_of_voltage (raw_to_voltage (fst (read_max adc 2 n st))),
     after_reads 2 (Z.to_nat n) st).
Proof.
  unfold measure_output_current, bind. rewrite read_max_run. reflexivity.
Qed.

Lemma measure_output_current_rms_state n st :
  snd (measure_output_current_rms adc n st) = after_reads 2 (Z.to_nat n) st.
Proof.
  unfold measure_output_current_rms, bind. rewrite read_rms_run. reflexivity.
Qed.

Lemma measure_input_current_state n st :
  snd (measure_input_current adc n st) = after_reads 3 (Z.to_nat n) st.
Proof.
  unfold measure_input_current, bind. rewrite read_max_run. reflexivity.
Qed.

Lemma high_voltage_run st :
  high_voltage adc A1 st
  = (let hv_fb := raw_to_voltage (adc (length (trace st)) A1) in
     let v := F32.of_double
                (F64.mul (F64.decimal 5 10)
                   (F64.of_float
                      (F32.div (F32.mul hv_fb (F32.of_Z 2000000))
                               (F32.of_Z 20000)))) in
     (v, {| aref := aref st; high_voltage_ := v;
            trace := (A1, aref st) :: trace st |})).
Proof. reflexivity. Qed.

(** The running maximum is the maximum of the samples. *)
Lemma fold_max_list_max l : forall a, 0 <= a ->
  fold_left (fun max_value v =>
               if max_value <? to_u16 v then to_u16 v else max_value) l a
  = Z.max a (list_max (map to_u16 l)).
Proof.
  induction l as [|v l IH]; intros a Ha; cbn [fold_left map list_max fold_right].
  - lia.
  - assert (Hv : 0 <= to_u16 v) by (apply Z.mod_pos_bound; lia).
    fold (list_max (map to_u16 l)).
    destruct (Z.ltb_spec a (to_u16 v)); rewrite IH by lia; lia.
Qed.

Lemma list_max_nonneg l : 0 <= list_max l.
Proof.
  induction l as [|x l IH]; unfold list_max in *; cbn [fold_right]; lia.
Qed.

Lemma list_max_bound l b :
  0 <= b -> Forall (fun v => v <= b) l -> list_max l <= b.
Proof.
  intros Hb. induction 1 as [|x l Hx Hl IH]; unfold list_max in *;
    cbn [fold_right]; lia.
Qed.

Lemma to_u16_range v : 0 <= to_u16 v <= 65535.
Proof. unfold to_u16. pose proof (Z.mod_pos_bound v (2 ^ 16)). lia. Qed.

Lemma Forall_to_u16 l : Forall (fun v => 0 <= v <= 65535) (map to_u16 l).
Proof. apply Forall_forall. intros x Hx. apply in_map_iff in Hx.
  destruct Hx as (v & <- & _). apply to_u16_range. Qed.

(** Without overflow of the 32-bit counter the loop sum is the exact sum. *)
Lemma fold_sum_exact l : forall a,
  Forall (fun v => 0 <= v <= 65535) l ->
  0 <= a -> a + 65535 * Z.of_nat (length l) < 2 ^ 32 ->
  fold_left (fun sum v => to_u32 (sum + v)) l a = a + sum_list l.
Proof.
  induction l as [|v l IH]; intros a Hl Ha Hb; cbn [fold_left sum_list fold_right].
  - lia.
  - inversion Hl as [|? ? Hv Hl']; subst. fold (sum_list l).
    cbn [length] in Hb. rewrite Nat2Z.inj_succ in Hb.
    unfold to_u32. rewrite Z.mod_small by lia.
    rewrite IH; try assumption; lia.
Qed.

Lemma sum_list_bounds l :
  Forall (fun v => 0 <= v <= 65535) l ->
  0 <= sum_list l <= 65535 * Z.of_nat (length l).
Proof.
  induction 1 as [|v l Hv Hl IH]; cbn [sum_list fold_right length]; [lia|].
  fold (sum_list l). rewrite Nat2Z.inj_succ. lia.
Qed.

Lemma sum_255_exact pin st :
  (forall i, 0 <= adc i pin <= 65535) ->
  fst (sum_255 adc pin st) = sum_list (samples adc pin (length (trace st)) 255) /\
  0 <= fst (sum_255 adc pin st) <= 255 * 65535.
Proof.
  intros Hadc.
  assert (Hrange : Forall (fun v => 0 <= v <= 65535)
                     (samples adc pin (length (trace st)) 255)).
  { apply Forall_forall. intros v Hv. unfold samples in Hv.
    apply in_map_iff in Hv. destruct Hv as (i & <- & _). apply Hadc. }
  pose proof (sum_list_bounds _ Hrange) as Hb.
  assert (Hlen : Z.of_nat (length (samples adc pin (length (trace st)) 255)) = 255).
  { rewrite samples_length. reflexivity. }
  rewrite Hlen in Hb.
  rewrite sum_255_run. cbn [fst].
  rewrite fold_sum_exact; try assumption; lia.
Qed.

Lemma measure_aref_value st :
  fst (measure_aref adc st)
  = F32.of_double
      (F64.mul (F64.div (F64.mul (F64.decimal 1195 1000) (F64.of_Z 65535))
                        (F64.of_float (F32.of_Z (fst (sum_255 adc 39 st)))))
               (F64.of_Z 255)).
Proof. unfold measure_aref, bind. destruct (sum_255 adc 39 st). reflexivity. Qed.

End Routines.

(** ** Exact float results *)

Open Scope R_scope.

(** A well-formed positive float is determined by its value. *)
Lemma valid_eq prec emax x y :
  valid_binary prec emax x = true -> valid_binary prec emax y = true ->
  is_finite_SF x = true -> is_finite_SF y = true ->
  0 < SF2R x -> SF2R x = SF2R y -> x = y.
Proof.
  intros Vx Vy Fx Fy Px Hxy.
  assert (Py : 0 < SF2R y) by lra.
  destruct (pos_finite_inv x Fx Px) as (m1 & e1 & ->).
  destruct (pos_finite_inv y Fy Py) as (m2 & e2 & ->).
  apply valid_canonical in Vx, Vy. cbn [SF2R cond_Zopp] in *.
  destruct (IZR_bpow_bounds (Z.pos m1) eq_refl) as [L1 U1].
  destruct (IZR_bpow_bounds (Z.pos m2) eq_refl) as [L2 U2].
  cbn [Zdigits2] in *.
  set (d1 := Z.pos (digits2_pos m1)) in *. set (d2 := Z.pos (digits2_pos m2)) in *.
  pose proof (bpow_pos e1) as B1. pose proof (bpow_pos e2) as B2.
  assert (Hmag : (d1 + e1 = d2 + e2)%Z).
  { assert (bpow (d1 - 1 + e1) < bpow (d2 + e2)).
    { rewrite !bpow_add. nra. }
    assert (bpow (d2 - 1 + e2) < bpow (d1 + e1)).
    { rewrite !bpow_add. nra. }
    apply bpow_lt_inv in H, H0. lia. }
  assert (He : e1 = e2) by (rewrite <- Vx, <- Vy, Hmag; reflexivity).
  subst e2. f_equal.
  assert (IZR (Z.pos m1) = IZR (Z.pos m2)) by nra.
  apply eq_IZR in H. congruence.
Qed.

Lemma F32_of_Z_value z :
  (0 < z <= 2 ^ 24)%Z ->
  valid_binary 24 128 (F32.of_Z z) = true /\ is_finite_SF (F32.of_Z z) = true /\
  SF2R (F32.of_Z z) = IZR z.
Proof.
  intros Hz. destruct (Z.eq_dec z (2 ^ 24)) as [->|Hne].
  - change (F32.of_Z (2 ^ 24)) with (S754_finite false 8388608 1).
    split; [reflexivity|]. split; [reflexivity|].
    cbn [SF2R cond_Zopp]. change (2 ^ 24)%Z with 16777216%Z. bpow_eval. lra.
  - destruct (F32_of_Z z ltac:(lia)) as (V & F & _ & A).
    apply approx_0_inv in A. auto.
Qed.

(** Sums of integers that stay within [2^24] are computed exactly. *)
Lemma F32_add_exact a q :
  (0 <= a)%Z -> (0 <= q)%Z -> (a + q <= 2 ^ 24)%Z ->
  F32.add (F32.of_Z a) (F32.of_Z q) = F32.of_Z (a + q).
Proof.
  intros Ha Hq Hs.
  destruct (Z.eq_dec a 0) as [->|Hane].
  - destruct (Z.eq_dec q 0) as [->|Hqne]; [reflexivity|].
    destruct (F32_of_Z_value q ltac:(lia)) as (V & F & E).
    assert (P : 0 < SF2R (F32.of_Z q)) by (rewrite E; apply IZR_lt; lia).
    destruct (pos_finite_inv _ F P) as (m & e & Hm).
    rewrite Z.add_0_l, Hm. reflexivity.
  - destruct (F32_of_Z_value a ltac:(lia)) as (Va & Fa & Ea).
    assert (Pa : 0 < SF2R (F32.of_Z a)) by (rewrite Ea; apply IZR_lt; lia).
    destruct (Z.eq_dec q 0) as [->|Hqne].
    + destruct (pos_finite_inv _ Fa Pa) as (m & e & Hm).
      rewrite Z.add_0_r, Hm. reflexivity.
    + destruct (F32_of_Z_value q ltac:(lia)) as (Vq & Fq & Eq).
      assert (Pq : 0 < SF2R (F32.of_Z q)) by (rewrite Eq; apply IZR_lt; lia).
      destruct (F32_of_Z_value (a + q) ltac:(lia)) as (Vs & Fs & Es).
      assert (Hov : SF2R (F32.of_Z a) + SF2R (F32.of_Z q) < bpow (128 - 1)).
      { rewrite Ea, Eq, <- plus_IZR.
        apply Rle_lt_trans with (IZR (2 ^ 24)); [apply IZR_le; lia|].
        change (2 ^ 24)%Z with 16777216%Z. change (128 - 1)%Z with 127%Z.
        bpow_eval. lra. }
      pose proof (SFadd_rounded 24 128 ltac:(lia) ltac:(lia) _ _ Fa Fq Pa Pq Hov) as Hr.
      rewrite Ea, Eq, <- plus_IZR in Hr.
      assert (Hval : SF2R (F32.add (F32.of_Z a) (F32.of_Z q)) = IZR (a + q)).
      { destruct (Z.eq_dec (a + q) (2 ^ 24)) as [Heq|Hlt].
        - apply (rounded_exact 24 128 ltac:(lia) _ _ 1 24 Hr).
          + rewrite Heq. change (2 ^ 24)%Z with 16777216%Z. bpow_eval. lra.
          + reflexivity.
          + unfold emin. lia.
        - apply (rounded_exact 24 128 ltac:(lia) _ _ (a + q) 0 Hr).
          + rewrite bpow_0. ring.
          + rewrite Z.abs_eq by lia. lia.
          + unfold emin. lia. }
      apply (valid_eq 24 128).
      * eapply rounded_valid; exact Hr.
      * exact Vs.
      * eapply rounded_finite; exact Hr.
      * exact Fs.
      * rewrite Hval. apply IZR_lt. lia.
      * rewrite Hval, Es. reflexivity.
Qed.

Open Scope Z_scope.

Lemma sum_squares_cons v l : sum_squares (v :: l) = v * v + sum_squares l.
Proof. reflexivity. Qed.

Lemma sum_squares_nonneg l : 0 <= sum_squares l.
Proof.
  induction l as [|v l IH]; [cbn; lia|]. rewrite sum_squares_cons. nia.
Qed.

Lemma fold_sum2_exact l : forall a,
  0 <= a -> a + sum_squares l <= 2 ^ 24 ->
  fold_left (fun sum2 v => F32.add sum2 (F32.of_Z (v * v))) l (F32.of_Z a)
  = F32.of_Z (a + sum_squares l).
Proof.
  induction l as [|v l IH]; intros a Ha Hs.
  - cbn [fold_left]. f_equal. cbn. lia.
  - rewrite sum_squares_cons in *. pose proof (sum_squares_nonneg l).
    cbn [fold_left]. rewrite F32_add_exact by nia.
    rewrite IH by nia. f_equal. lia.
Qed.

(** ** Squares in [int] *)

Lemma to_i32_small z : INT_MIN <= z <= INT_MAX -> to_i32 z = z.
Proof.
  unfold INT_MIN, INT_MAX, to_i32. intros H. rewrite Z.mod_small; lia.
Qed.

Lemma square_fits v : 0 <= v <= 46340 -> INT_MIN <= v * v <= INT_MAX.
Proof. unfold INT_MIN, INT_MAX. intros H. nia. Qed.

Lemma square_overflows v : 46340 < v -> INT_MAX < v * v.
Proof. unfold INT_MAX. intros H. nia. Qed.

Lemma fold_sum2_squares l : forall a,
  Forall (fun v => 0 <= v <= 46340) l ->
  fold_left (fun sum2 v => F32.add sum2 (F32.of_Z (to_i32 (v * v)))) l a
  = fold_left (fun sum2 v => F32.add sum2 (F32.of_Z (v * v))) l a.
Proof.
  induction l as [|v l IH]; intros a Hl; [reflexivity|].
  inversion Hl as [|? ? Hv Hl']; subst. cbn [fold_left].
  rewrite to_i32_small by (apply square_fits; assumption).
  apply IH. assumption.
Qed.

Lemma fold_left_map {A B C} (f : A -> C -> A) (g : B -> C) l : forall a,
  fold_left (fun acc v => f acc (g v)) l a = fold_left f (map g l) a.
Proof. induction l as [|v l IH]; intros a; cbn; [reflexivity | apply IH]. Qed.

(** ** Conversion to an integer *)

Open Scope R_scope.

(** Truncation of a non-negative float is the integer part of its value. *)
Lemma SFtrunc_floor x r :
  SFtrunc x = Some r -> 0 <= SF2R x -> IZR r <= SF2R x < IZR r + 1.
Proof.
  destruct x as [s|s| |s m e]; cbn [SFtrunc SF2R]; intros Hr Hx;
    try discriminate Hr; injection Hr as <-.
  - lra.
  - pose proof (bpow_pos e) as Hb.
    destruct s; cbn [cond_Zopp] in *.
    + assert (IZR (- Z.pos m) < 0) by (apply IZR_lt; lia). nra.
    + destruct (Z_le_gt_dec 0 e) as [He|He].
      * rewrite Z.shiftl_mul_pow2, mult_IZR, <- bpow_IZR by lia. lra.
      * rewrite Z.shiftl_div_pow2 by lia.
        assert (Hd : (0 < 2 ^ (- e))%Z) by (apply Z.pow_pos_nonneg; lia).
        pose proof (Z.div_mod (Z.pos m) (2 ^ (- e)) ltac:(lia)) as Hdm.
        pose proof (Z.mod_pos_bound (Z.pos m) (2 ^ (- e)) Hd) as Hmod.
        set (q := (Z.pos m / 2 ^ (- e))%Z) in *.
        set (t := (Z.pos m mod 2 ^ (- e))%Z) in *.
        assert (Hm : IZR (Z.pos m) = bpow (- e) * IZR q + IZR t).
        { rewrite Hdm, plus_IZR, mult_IZR, bpow_IZR by lia. reflexivity. }
        assert (Ht0 : 0 <= IZR t) by (apply IZR_le; lia).
        assert (Ht1 : IZR t < bpow (- e)).
        { rewrite bpow_IZR by lia. apply IZR_lt. lia. }
        assert (Hbb : bpow (- e) * bpow e = 1).
        { rewrite <- bpow_add, Z.add_opp_diag_l. reflexivity. }
        assert (0 <= IZR t * bpow e) by (apply Rmult_le_pos; lra).
        assert (IZR t * bpow e < 1).
        { rewrite <- Hbb. apply Rmult_lt_compat_r; lra. }
        rewrite Hm.
        replace ((bpow (- e) * IZR q + IZR t) * bpow e)
          with (IZR q * (bpow (- e) * bpow e) + IZR t * bpow e) by ring.
        rewrite Hbb. lra.
Qed.

(** Rounding a non-negative mantissa never gives a negative float. *)
Lemma binary_round_aux_nonneg prec emax m e l :
  0 <= SF2R (binary_round_aux prec emax false m e l).
Proof.
  unfold binary_round_aux.
  destruct (shr_fexp prec emax m e l) as [mrs' e'].
  destruct (shr_fexp prec emax _ e' loc_Exact) as [mrs'' e''].
  destruct (shr_m mrs'') as [|p|p]; cbn [SF2R]; try lra.
  destruct (e'' <=? emax - prec)%Z; cbn [SF2R cond_Zopp]; [|lra].
  pose proof (bpow_pos e''). assert (0 < IZR (Z.pos p)) by (apply IZR_lt; lia).
  nra.
Qed.

Lemma SFsqrt_nonneg prec emax x : 0 <= SF2R (SFsqrt prec emax x).
Proof.
  destruct x as [s|[|]| |[|] m e]; cbn [SFsqrt SF2R]; try lra.
  destruct (SFsqrt_core_binary prec emax (Z.pos m) e) as [[mz ez] lz].
  apply binary_round_aux_nonneg.
Qed.

Lemma float_to_u16_floor x r :
  float_to_u16 x = Some r -> 0 <= SF2R x ->
  (0 <= r <= 65535)%Z /\ IZR r <= SF2R x < IZR r + 1.
Proof.
  unfold float_to_u16. intros Hr Hx.
  destruct (SFtrunc x) as [z|] eqn:Hz; [|discriminate Hr].
  destruct ((0 <=? z)%Z && (z <=? 65535)%Z) eqn:Hb; [|discriminate Hr].
  injection Hr as <-. apply andb_prop in Hb. destruct Hb as [H0 H1].
  apply Z.leb_le in H0, H1. split; [lia|].
  apply SFtrunc_floor; assumption.
Qed.

Open Scope Z_scope.

(** ** The index of a percentile *)

(** [round] on a positive float whose value is [k / 2^j]. *)
Lemma round_of_value x k j :
  is_finite_SF x = true -> (0 < k)%Z -> (0 <= j)%Z ->
  SF2R x = (IZR k * bpow (- j))%R ->
  round x = Some ((2 * k + 2 ^ j) / (2 * 2 ^ j)).
Proof.
  intros Fx Hk Hj Hv.
  assert (Hp : (0 < SF2R x)%R).
  { rewrite Hv. apply Rmult_lt_0_compat; [apply IZR_lt; lia | apply bpow_pos]. }
  destruct (pos_finite_inv x Fx Hp) as (m & e & ->).
  cbn [round cond_Zopp SF2R] in *. f_equal. unfold round_magnitude.
  assert (Hpj : 0 < 2 ^ j) by (apply Z.pow_pos_nonneg; lia).
  (* the value equation, over the integers *)
  assert (Hz : forall a b, (0 <= a)%Z -> (0 <= b)%Z -> (e = a - b)%Z ->
               (Z.pos m * 2 ^ a * 2 ^ j = k * 2 ^ b)%Z).
  { intros a b Ha Hb He. apply eq_IZR. rewrite !mult_IZR, <- !bpow_IZR by lia.
    transitivity (IZR (Z.pos m) * bpow e * (bpow b * bpow j))%R.
    - rewrite He. replace (a - b)%Z with (a + - b)%Z by lia.
      rewrite bpow_add, (bpow_opp b). field.
      pose proof (bpow_pos b). lra.
    - rewrite Hv, bpow_opp. field. pose proof (bpow_pos j). lra. }
  destruct (Z.leb_spec 0 e) as [He|He].
  - specialize (Hz e 0 He ltac:(lia) ltac:(lia)). rewrite Z.pow_0_r, Z.mul_1_r in Hz.
    rewrite <- Hz.
    replace (2 * (Z.pos m * 2 ^ e * 2 ^ j) + 2 ^ j)
      with ((2 * (Z.pos m * 2 ^ e) + 1) * 2 ^ j) by ring.
    rewrite Z.div_mul_cancel_r by lia.
    apply Z.div_unique with 1; lia.
  - specialize (Hz 0 (- e) ltac:(lia) ltac:(lia) ltac:(lia)).
    rewrite Z.pow_0_r, Z.mul_1_r in Hz.
    assert (Hpe : 0 < 2 ^ (- e)) by (apply Z.pow_pos_nonneg; lia).
    rewrite <- (Z.div_mul_cancel_r (2 * Z.pos m + 2 ^ (- e)) (2 * 2 ^ (- e)) (2 ^ j))
      by lia.
    rewrite <- (Z.div_mul_cancel_r (2 * k + 2 ^ j) (2 * 2 ^ j) (2 ^ (- e))) by lia.
    f_equal; nia.
Qed.

(** Truncation of a positive float whose value is [k / 2^j]. *)
Lemma SFtrunc_of_value x k j :
  is_finite_SF x = true -> (0 < k)%Z -> (0 <= j)%Z ->
  SF2R x = (IZR k * bpow (- j))%R ->
  SFtrunc x = Some (k / 2 ^ j).
Proof.
  intros Fx Hk Hj Hv.
  assert (Hp : (0 < SF2R x)%R).
  { rewrite Hv. apply Rmult_lt_0_compat; [apply IZR_lt; lia | apply bpow_pos]. }
  destruct (pos_finite_inv x Fx Hp) as (m & e & ->).
  cbn [SFtrunc cond_Zopp SF2R] in *. f_equal.
  assert (Hpj : 0 < 2 ^ j) by (apply Z.pow_pos_nonneg; lia).
  assert (Hz : forall a b, (0 <= a)%Z -> (0 <= b)%Z -> (e = a - b)%Z ->
               (Z.pos m * 2 ^ a * 2 ^ j = k * 2 ^ b)%Z).
  { intros a b Ha Hb He. apply eq_IZR. rewrite !mult_IZR, <- !bpow_IZR by lia.
    transitivity (IZR (Z.pos m) * bpow e * (bpow b * bpow j))%R.
    - rewrite He. replace (a - b)%Z with (a + - b)%Z by lia.
      rewrite bpow_add, (bpow_opp b). field.
      pose proof (bpow_pos b). lra.
    - rewrite Hv, bpow_opp. field. pose proof (bpow_pos j). lra. }
  destruct (Z_le_gt_dec 0 e) as [He|He].
  - specialize (Hz e 0 He ltac:(lia) ltac:(lia)). rewrite Z.pow_0_r, Z.mul_1_r in Hz.
    rewrite Z.shiftl_mul_pow2 by lia. rewrite <- Hz, Z.div_mul by lia. reflexivity.
  - specialize (Hz 0 (- e) ltac:(lia) ltac:(lia) ltac:(lia)).
    rewrite Z.pow_0_r, Z.mul_1_r in Hz.
    assert (Hpe : 0 < 2 ^ (- e)) by (apply Z.pow_pos_nonneg; lia).
    rewrite Z.shiftl_div_pow2 by lia.
    rewrite <- (Z.div_mul_cancel_r (Z.pos m) (2 ^ (- e)) (2 ^ j)) by lia.
    rewrite <- (Z.div_mul_cancel_r k (2 ^ j) (2 ^ (- e))) by lia.
    f_equal; lia.
Qed.

(** The product [(percentile / 100.) * n_samples] when the hundredth of the
    percentile is [q / 4]: it is exact. *)
Lemma percentile_product_quarters c q n :
  valid_binary 53 1024 c = true -> is_finite_SF c = true ->
  SF2R c = (IZR q * bpow (- (2)))%R ->
  1 <= q <= 4 -> 0 < n < 2 ^ 16 ->
  valid_binary 53 1024 (F64.mul c (F64.of_Z n)) = true /\
  is_finite_SF (F64.mul c (F64.of_Z n)) = true /\
  SF2R (F64.mul c (F64.of_Z n)) = (IZR (q * n) * bpow (- (2)))%R.
Proof.
  intros Vc Fc Ec Hq Hn.
  destruct (F64_of_Z n ltac:(lia)) as (Vn & Fn & Pn & An).
  apply approx_0_inv in An.
  assert (Pc : (0 < SF2R c)%R).
  { rewrite Ec. apply Rmult_lt_0_compat; [apply IZR_lt; lia | apply bpow_pos]. }
  assert (Hprod : (SF2R c * SF2R (F64.of_Z n) = IZR (q * n) * bpow (- (2)))%R).
  { rewrite Ec, An, mult_IZR. ring. }
  assert (Hov : (SF2R c * SF2R (F64.of_Z n) < bpow (1024 - 1))%R).
  { rewrite Hprod.
    apply Rlt_le_trans with (IZR (2 ^ 20) * bpow (- (2)))%R.
    - apply Rmult_lt_compat_r; [apply bpow_pos|]. apply IZR_lt. nia.
    - change (2 ^ 20)%Z with 1048576%Z. change (1024 - 1)%Z with 1023%Z.
      apply Rle_trans with (bpow 20).
      + change (- (2))%Z with (-2)%Z. bpow_eval. lra.
      + apply bpow_le. lia. }
  assert (Pn' : (0 < SF2R (F64.of_Z n))%R) by (rewrite An; exact Pn).
  pose proof (SFmul_rounded 53 1024 ltac:(lia) ltac:(lia) c (F64.of_Z n)
                Vc Vn Fc Fn Pc Pn' Hov) as Hr.
  split; [exact (rounded_valid _ _ _ _ Hr)|].
  split; [exact (rounded_finite _ _ _ _ Hr)|].
  rewrite <- Hprod.
  apply (rounded_exact 53 1024 ltac:(lia) _ _ (q * n) (- (2)) Hr).
  - exact Hprod.
  - rewrite Z.abs_eq by nia.
    apply Z.lt_trans with (2 ^ 20); [nia|]. apply Z.pow_lt_mono_r; lia.
  - unfold emin. lia.
Qed.

(** The index computed for a percentile whose hundredth is [q / 4]. *)
Lemma percentile_index_quarters p q n :
  valid_binary 53 1024 (F64.div (F64.of_float p) (F64.of_Z 100)) = true ->
  is_finite_SF (F64.div (F64.of_float p) (F64.of_Z 100)) = true ->
  SF2R (F64.div (F64.of_float p) (F64.of_Z 100)) = (IZR q * bpow (- (2)))%R ->
  1 <= q <= 4 -> 0 < n < 2 ^ 16 ->
  percentile_index p n = Some ((2 * (q * n) + 4) / 8).
Proof.
  intros Vc Fc Ec Hq Hn. unfold percentile_index.
  destruct (percentile_product_quarters _ q n Vc Fc Ec Hq Hn) as (_ & Fx & Ex).
  rewrite (round_of_value _ (q * n) 2 Fx ltac:(nia) ltac:(lia) Ex).
  change (2 * 2 ^ 2) with 8. change (2 ^ 2) with 4.
  set (i := (2 * (q * n) + 4) / 8).
  assert (Hi : 0 <= i <= 65535).
  { unfold i. split.
    - apply Z.div_pos; nia.
    - assert ((2 * (q * n) + 4) / 8 < 65536); [|lia].
      apply Z.div_lt_upper_bound; nia. }
  unfold in_int, INT_MIN, INT_MAX.
  replace (- 2 ^ 31 <=? i) with true by (symmetry; apply Z.leb_le; lia).
  replace (i <=? 2 ^ 31 - 1) with true by (symmetry; apply Z.leb_le; lia).
  cbn [andb]. unfold to_u16. rewrite Z.mod_small by lia. reflexivity.
Qed.

(** On these products the macro form of [round] gives the same integer. *)
Lemma round_macro_quarters c q n :
  valid_binary 53 1024 c = true -> is_finite_SF c = true ->
  SF2R c = (IZR q * bpow (- (2)))%R ->
  1 <= q <= 4 -> 0 < n < 2 ^ 16 ->
  round_macro (F64.mul c (F64.of_Z n)) = round (F64.mul c (F64.of_Z n)).
Proof.
  intros Vc Fc Ec Hq Hn.
  destruct (percentile_product_quarters c q n Vc Fc Ec Hq Hn) as (Vx & Fx & Ex).
  rewrite (round_of_value _ (q * n) 2 Fx ltac:(nia) ltac:(lia) Ex).
  set (x := F64.mul c (F64.of_Z n)) in *.
  assert (Px : (0 < SF2R x)%R).
  { rewrite Ex. apply Rmult_lt_0_compat; [apply IZR_lt; nia | apply bpow_pos]. }
  destruct half_exact as (Vh & Fh & _ & Ah). apply approx_0_inv in Ah.
  assert (Hsum : (SF2R x + SF2R (F64.decimal 5 10)
                  = IZR (q * n + 2) * bpow (- (2)))%R).
  { rewrite Ex, Ah, plus_IZR. change (- (2))%Z with (-2)%Z. bpow_eval. lra. }
  assert (Hov : (SF2R x + SF2R (F64.decimal 5 10) < bpow (1024 - 1))%R).
  { rewrite Hsum.
    apply Rlt_le_trans with (IZR (2 ^ 20) * bpow (- (2)))%R.
    - apply Rmult_lt_compat_r; [apply bpow_pos|]. apply IZR_lt. nia.
    - change (2 ^ 20)%Z with 1048576%Z. change (1024 - 1)%Z with 1023%Z.
      apply Rle_trans with (bpow 20).
      + change (- (2))%Z with (-2)%Z. bpow_eval. lra.
      + apply bpow_le. lia. }
  pose proof (SFadd_rounded 53 1024 ltac:(lia) ltac:(lia) x (F64.decimal 5 10)
                Fx Fh Px ltac:(rewrite Ah; lra) Hov) as Hr.
  assert (Hval : SF2R (F64.add x (F64.decimal 5 10))
                 = (IZR (q * n + 2) * bpow (- (2)))%R).
  { rewrite <- Hsum.
    apply (rounded_exact 53 1024 ltac:(lia) _ _ (q * n + 2) (- (2)) Hr).
    - exact Hsum.
    - rewrite Z.abs_eq by nia.
      apply Z.lt_trans with (2 ^ 20); [nia|]. apply Z.pow_lt_mono_r; lia.
    - unfold emin. lia. }
  assert (Hle : SFleb (S754_zero false) x = true).
  { clear - Fx Px. destruct (pos_finite_inv x Fx Px) as (m & e & Hx).
    rewrite Hx. reflexivity. }
  unfold round_macro. rewrite Hle.
  rewrite (SFtrunc_of_value (F64.add x (F64.decimal 5 10)) (q * n + 2) 2
             (rounded_finite _ _ _ _ Hr) ltac:(nia) ltac:(lia) Hval).
  f_equal. change (2 * 2 ^ 2) with (4 * 2). change (2 ^ 2) with 4.
  replace (2 * (q * n) + 4) with ((q * n + 2) * 2) by ring.
  rewrite Z.div_mul_cancel_r by lia. reflexivity.
Qed.

Lemma percentile_index_75 n :
  0 < n < 2 ^ 16 -> percentile_index (F32.of_Z 75) n = Some ((3 * n + 2) / 4).
Proof.
  intros Hn.
  rewrite (percentile_index_quarters (F32.of_Z 75) 3 n); try lia.
  - f_equal. replace (2 * (3 * n) + 4) with ((3 * n + 2) * 2) by ring.
    change 8 with (4 * 2). apply Z.div_mul_cancel_r; lia.
  - reflexivity.
  - reflexivity.
  - change (F64.div (F64.of_float (F32.of_Z 75)) (F64.of_Z 100))
      with (S754_finite false 6755399441055744 (-53)).
    cbn [SF2R cond_Zopp]. change (- (2)) with (-2). bpow_eval. lra.
Qed.

Lemma percentile_index_25 n :
  0 < n < 2 ^ 16 -> percentile_index (F32.of_Z 25) n = Some ((n + 2) / 4).
Proof.
  intros Hn.
  rewrite (percentile_index_quarters (F32.of_Z 25) 1 n); try lia.
  - f_equal. replace (2 * (1 * n) + 4) with ((n + 2) * 2) by ring.
    change 8 with (4 * 2). apply Z.div_mul_cancel_r; lia.
  - reflexivity.
  - reflexivity.
  - change (F64.div (F64.of_float (F32.of_Z 25)) (F64.of_Z 100))
      with (S754_finite false 4503599627370496 (-54)).
    cbn [SF2R cond_Zopp]. change (- (2)) with (-2). bpow_eval. lra.
Qed.

Lemma percentile_index_100 n :
  0 < n < 2 ^ 16 -> percentile_index (F32.of_Z 100) n = Some n.
Proof.
  intros Hn.
  rewrite (percentile_index_quarters (F32.of_Z 100) 4 n); try lia.
  - f_equal. replace (2 * (4 * n) + 4) with (4 + n * 8) by ring.
    rewrite Z.div_add by lia. reflexivity.
  - reflexivity.
  - reflexivity.
  - change (F64.div (F64.of_float (F32.of_Z 100)) (F64.of_Z 100))
      with (S754_finite false 4503599627370496 (-52)).
    cbn [SF2R cond_Zopp]. change (- (2)) with (-2). bpow_eval. lra.
Qed.

(** For the percentiles 25, 75 and 100 the macro and the function [round]
    select the same index. *)
Lemma round_macro_percentiles n :
  0 < n < 2 ^ 16 ->
  let product p :=
    F64.mul (F64.div (F64.of_float (F32.of_Z p)) (F64.of_Z 100)) (F64.of_Z n) in
  round_macro (product 25) = round (product 25) /\
  round_macro (product 75) = round (product 75) /\
  round_macro (product 100) = round (product 100).
Proof.
  intros Hn product. unfold product.
  split; [|split].
  - apply (round_macro_quarters _ 1 n); try lia; try reflexivity.
    change (F64.div (F64.of_float (F32.of_Z 25)) (F64.of_Z 100))
      with (S754_finite false 4503599627370496 (-54)).
    cbn [SF2R cond_Zopp]. change (- (2)) with (-2). bpow_eval. lra.
  - apply (round_macro_quarters _ 3 n); try lia; try reflexivity.
    change (F64.div (F64.of_float (F32.of_Z 75)) (F64.of_Z 100))
      with (S754_finite false 6755399441055744 (-53)).
    cbn [SF2R cond_Zopp]. change (- (2)) with (-2). bpow_eval. lra.
  - apply (round_macro_quarters _ 4 n); try lia; try reflexivity.
    change (F64.div (F64.of_float (F32.of_Z 100)) (F64.of_Z 100))
      with (S754_finite false 4503599627370496 (-52)).
    cbn [SF2R cond_Zopp]. change (- (2)) with (-2). bpow_eval. lra.
Qed.

Lemma percentile_index_50 n :
  0 < n < 2 ^ 16 -> percentile_index (F32.of_Z 50) n = Some ((n + 1) / 2).
Proof.
  intros Hn.
  rewrite (percentile_index_quarters (F32.of_Z 50) 2 n); try lia.
  - f_equal. replace (2 * (2 * n) + 4) with ((n + 1) * 4) by ring.
    change 8 with (2 * 4). apply Z.div_mul_cancel_r; lia.
  - reflexivity.
  - reflexivity.
  - change (F64.div (F64.of_float (F32.of_Z 50)) (F64.of_Z 100))
      with (S754_finite false 4503599627370496 (-53)).
    cbn [SF2R cond_Zopp]. change (- (2)) with (-2). bpow_eval. lra.
Qed.

Lemma percentile_index_0 n :
  0 <= n < 2 ^ 16 -> percentile_index (F32.of_Z 0) n = Some 0.
Proof.
  intros Hn. unfold percentile_index.
  change (F64.div (F64.of_float (F32.of_Z 0)) (F64.of_Z 100)) with (S754_zero false).
  destruct (Z.eq_dec n 0) as [->|Hn0]; [reflexivity|].
  destruct (F64_of_Z n) as (_ & F & P & A);
    [change (2 ^ 24) with 16777216; change (2 ^ 16) with 65536 in Hn; lia|].
  apply approx_0_inv in A.
  destruct (pos_finite_inv _ F ltac:(rewrite A; exact P)) as (m & e & ->).
  reflexivity.
Qed.

(** ** The scaling pipelines *)

Open Scope R_scope.

Lemma Rdiv_bounds a s B : 0 <= a -> 1 <= s <= B -> a / B <= a / s <= a.
Proof.
  intros Ha [Hs HB].
  assert (/ B <= / s) by (apply Rinv_le_contravar; lra).
  assert (/ s <= / 1) by (apply Rinv_le_contravar; lra).
  rewrite Rinv_1 in *. unfold Rdiv. split; nra.
Qed.

Lemma tracks_finite prec emax r k x : tracks prec emax r k x -> is_finite_SF r = true.
Proof. intros (_ & F & _). exact F. Qed.

Lemma tracks_close prec emax r k x :
  tracks prec emax r k x -> (k <= 8)%nat -> Rabs (SF2R r - x) <= / 1048576 * x.
Proof.
  intros (_ & _ & Hx & A) Hk. apply (approx_close k); [assumption | lra | assumption].
Qed.

(** [voltage / (51e3 / 5.1e3 * 1)] *)
Lemma output_current_tracks v x :
  tracks32 v 4 x -> / 100000 <= x <= 100 ->
  tracks32 (output_current_of_voltage v) 6 (x / 10).
Proof.
  intros Tv Hx. unfold output_current_of_voltage.
  apply F32_of_double; [|apply safe_intro; lra|lia].
  apply (F64_div _ _ 4); [|exact ten_exact|apply safe_intro; lra|lia].
  apply F64_of_float; [exact Tv|apply safe_intro; lra|lia].
Qed.

(** [0.5 * (hv_fb * R8 / R9)] *)
Lemma high_voltage_tracks hv_fb x :
  tracks32 hv_fb 4 x -> / 100000 <= x <= 100 ->
  tracks32
    (F32.of_double
       (F64.mul (F64.decimal 5 10)
          (F64.of_float
             (F32.div (F32.mul hv_fb (F32.of_Z 2000000)) (F32.of_Z 20000)))))
    8 (/ 2 * (x * 2000000 / 20000)).
Proof.
  intros Tv Hx.
  apply F32_of_double; [|apply safe_intro; lra|lia].
  apply (F64_mul _ _ 0 6); [exact half_exact| |apply safe_intro; lra|lia].
  apply F64_of_float; [|apply safe_intro; lra|lia].
  apply (F32_div _ _ 5); [|apply (F32_of_Z 20000); lia|apply safe_intro; lra|lia].
  replace 5%nat with (S (4 + 0)) by reflexivity.
  apply F32_mul; [exact Tv|apply (F32_of_Z 2000000); lia|apply safe_intro; lra|lia].
Qed.

(** [1.195 * 65535.0 / (float)sum * 255.0] *)
Lemma aref_tracks sum :
  (0 < sum <= 255 * 65535)%Z ->
  tracks32
    (F32.of_double
       (F64.mul (F64.div (F64.mul (F64.decimal 1195 1000) (F64.of_Z 65535))
                         (F64.of_float (F32.of_Z sum)))
                (F64.of_Z 255)))
    5 (1195 / 1000 * 65535 / IZR sum * 255).
Proof.
  intros Hsum.
  assert (H1 : 1 <= IZR sum) by (apply IZR_le; lia).
  assert (H2 : IZR sum <= 16711425) by (apply IZR_le; lia).
  pose proof (Rdiv_bounds (1195 / 1000 * 65535) (IZR sum) 16711425 ltac:(lra)
                (conj H1 H2)) as Hq.
  apply F32_of_double; [|apply safe_intro; lra|lia].
  replace 4%nat with (S (3 + 0)) by reflexivity.
  apply F64_mul; [|apply (F64_of_Z 255); lia|apply safe_intro; lra|lia].
  apply (F64_div _ _ 2); [| |apply safe_intro; lra|lia].
  - replace 2%nat with (S (1 + 0)) by reflexivity.
    apply F64_mul; [|apply (F64_of_Z 65535); lia|apply safe_intro; lra|lia].
    apply (F64_decimal 1195 1000); [lia|lia|apply safe_intro; lra].
  - apply F64_of_float; [|apply safe_intro; lra|lia].
    apply F32_of_Z. lia.
Qed.

Lemma aref_close sum :
  (0 < sum <= 255 * 65535)%Z ->
  is_finite_SF
    (F32.of_double
       (F64.mul (F64.div (F64.mul (F64.decimal 1195 1000) (F64.of_Z 65535))
                         (F64.of_float (F32.of_Z sum)))
                (F64.of_Z 255))) = true /\
  Rabs (SF2R
          (F32.of_double
             (F64.mul (F64.div (F64.mul (F64.decimal 1195 1000) (F64.of_Z 65535))
                               (F64.of_float (F32.of_Z sum)))
                      (F64.of_Z 255)))
        - 1195 / 1000 * 65535 / (IZR sum / 255))
  <= / 1048576 * (1195 / 1000 * 65535 / (IZR sum / 255)) /\
  1195 / 1000 * 65535 / (IZR sum / 255) = 1195 / 1000 * 65535 * 255 / IZR sum.
Proof.
  intros Hsum.
  assert (1 <= IZR sum) by (apply IZR_le; lia).
  pose proof (aref_tracks sum Hsum) as T.
  assert (E : 1195 / 1000 * 65535 / (IZR sum / 255)
              = 1195 / 1000 * 65535 / IZR sum * 255) by (field; lra).
  split; [exact (tracks_finite _ _ _ _ _ T)|]. split.
  - rewrite E. eapply tracks_close; [exact T | lia].
  - field. lra.
Qed.

Open Scope Z_scope.

(** ** More on samples, maxima and sorted lists *)

Lemma samples_app adc pin t a b :
  samples adc pin t (a + b) = samples adc pin t a ++ samples adc pin (t + a) b.
Proof.
  revert t. induction a as [|a IH]; intros t.
  - cbn. rewrite Nat.add_0_r. reflexivity.
  - cbn [Nat.add]. rewrite !samples_S, IH. cbn [app].
    replace (S t + a)%nat with (t + S a)%nat by lia. reflexivity.
Qed.

Lemma after_reads_trace_length pin n st :
  length (trace (after_reads pin n st)) = (length (trace st) + n)%nat.
Proof.
  unfold after_reads, reads. cbn [trace].
  rewrite length_app, repeat_length. lia.
Qed.

Lemma after_reads_add pin a b st :
  after_reads pin b (after_reads pin a st) = after_reads pin (a + b) st.
Proof.
  unfold after_reads, reads. cbn [aref high_voltage_ trace]. f_equal.
  rewrite app_assoc, <- repeat_app. f_equal. f_equal. lia.
Qed.

Lemma list_max_app l1 l2 : list_max (l1 ++ l2) = Z.max (list_max l1) (list_max l2).
Proof.
  induction l1 as [|x l1 IH]; unfold list_max in *; cbn [app fold_right].
  - pose proof (list_max_nonneg l2). unfold list_max in *. lia.
  - rewrite IH. lia.
Qed.

Lemma list_max_upper l : Forall (fun v => v <= list_max l) l.
Proof.
  induction l as [|x l IH]; [constructor|].
  unfold list_max in *. cbn [fold_right]. constructor; [lia|].
  eapply Forall_impl; [|exact IH]. cbn. intros; lia.
Qed.

Lemma list_max_In l :
  l <> [] -> Forall (fun v => 0 <= v) l -> In (list_max l) l.
Proof.
  induction l as [|x l IH]; [congruence|]. intros _ Hl.
  inversion Hl as [|? ? Hx Hl']; subst.
  unfold list_max in *. cbn [fold_right].
  destruct l as [|y l].
  - cbn. left. lia.
  - destruct (Z.max_spec x (fold_right Z.max 0 (y :: l))) as [[_ ->]|[_ ->]].
    + right. apply IH; [discriminate | assumption].
    + left. reflexivity.
Qed.

Lemma list_min_lower l : Forall (fun v => list_min l <= v) l.
Proof.
  induction l as [|x l IH]; [constructor|].
  unfold list_min in *. cbn [fold_right]. constructor; [lia|].
  eapply Forall_impl; [|exact IH]. cbn. intros; lia.
Qed.

(** Two sorted lists with the same elements are equal. *)
Lemma sorted_perm_eq l : forall l',
  StronglySorted Z.le l -> StronglySorted Z.le l' -> Permutation l l' -> l = l'.
Proof.
  induction l as [|x l IH]; intros l' Hs Hs' Hp.
  - apply Permutation_nil in Hp. congruence.
  - destruct l' as [|y l'].
    + apply Permutation_sym, Permutation_nil in Hp. discriminate.
    + inversion Hs as [|? ? Hsl Hx]; subst. inversion Hs' as [|? ? Hsl' Hy]; subst.
      rewrite Forall_forall in Hx, Hy.
      assert (Hxy : x = y).
      { assert (Hin : In x (y :: l')) by (apply (Permutation_in _ Hp); left; reflexivity).
        assert (Hin' : In y (x :: l)).
        { apply (Permutation_in _ (Permutation_sym Hp)). left. reflexivity. }
        destruct Hin as [->|Hin]; [reflexivity|].
        destruct Hin' as [->|Hin']; [reflexivity|].
        specialize (Hx _ Hin'). specialize (Hy _ Hin). lia. }
      subst y. f_equal. apply IH; try assumption.
      eapply Permutation_cons_inv. exact Hp.
Qed.

Lemma sort_permutation l l' : Permutation l l' -> sort l = sort l'.
Proof.
  intros Hp. apply sorted_perm_eq; try apply sort_sorted.
  eapply Permutation_trans; [apply Permutation_sym, sort_perm|].
  eapply Permutation_trans; [exact Hp | apply sort_perm].
Qed.

Lemma nth_error_nil_None {A} k : nth_error (@nil A) k = None.
Proof. destruct k; reflexivity. Qed.

Lemma list_min_In l :
  l <> [] -> Forall (fun v => v <= 65535) l -> In (list_min l) l.
Proof.
  induction l as [|x l IH]; [congruence|]. intros _ Hl.
  inversion Hl as [|? ? Hx Hl']; subst.
  unfold list_min in *. cbn [fold_right].
  destruct l as [|y l].
  - cbn. left. lia.
  - destruct (Z.min_spec x (fold_right Z.min 65535 (y :: l))) as [[_ ->]|[_ ->]].
    + left. reflexivity.
    + right. apply IH; [discriminate | assumption].
Qed.

(** The first element of the sorted vector is the smallest sample. *)
Lemma sort_head_min l :
  l <> [] -> Forall (fun v => v <= 65535) l -> nth 0 (sort l) 0 = list_min l.
Proof.
  intros Hne Hl.
  assert (Hlen : (0 < length (sort l))%nat).
  { rewrite sort_length. destruct l; [congruence | cbn; lia]. }
  apply Z.le_antisymm.
  - pose proof (list_min_In l Hne Hl) as Hin.
    apply (Permutation_in _ (sort_perm l)) in Hin.
    destruct (In_nth _ _ 0 Hin) as (i & Hi & <-).
    apply sorted_nth; [apply sort_sorted | lia].
  - pose proof (list_min_lower l) as Hlow. rewrite Forall_forall in Hlow.
    apply Hlow. apply (Permutation_in _ (Permutation_sym (sort_perm l))).
    apply nth_In. exact Hlen.
Qed.

(** ** Division by an inexact divisor, wide integers *)

Open Scope R_scope.

Lemma approx_div j k a b x y :
  0 < x -> 0 < y -> approx j a x -> approx k b y ->
  approx (j + (k + k)) (a / b) (x / y).
Proof.
  unfold approx. intros Hx Hy [A1 A2] [B1 B2]. pose proof u32_bounds as Hu.
  rewrite !pow_add.
  assert (HPj : 0 < (1 - u32) ^ j) by (apply pow_lt; lra).
  assert (HQj : 0 < (1 + u32) ^ j) by (apply pow_lt; lra).
  assert (HP : 0 < (1 - u32) ^ k) by (apply pow_lt; lra).
  assert (HQ : 0 < (1 + u32) ^ k) by (apply pow_lt; lra).
  assert (HP1 : (1 - u32) ^ k <= 1).
  { apply Rle_trans with (1 ^ k); [apply pow_incr; lra | rewrite pow1; lra]. }
  assert (HPQ : (1 - u32) ^ k * (1 + u32) ^ k <= 1).
  { rewrite <- Rpow_mult_distr.
    apply Rle_trans with (1 ^ k); [apply pow_incr; nra | rewrite pow1; lra]. }
  assert (HQQP : 1 <= (1 + u32) ^ k * (1 + u32) ^ k * (1 - u32) ^ k).
  { rewrite <- !Rpow_mult_distr. apply pow_R1_Rle. nra. }
  set (Pj := (1 - u32) ^ j) in *. set (Qj := (1 + u32) ^ j) in *.
  set (p := (1 - u32) ^ k) in *. set (q := (1 + u32) ^ k) in *.
  clearbody Pj Qj p q.
  assert (Hyp : 0 < y * p) by (apply Rmult_lt_0_compat; assumption).
  assert (Hb : 0 < b) by lra.
  assert (Hib : 0 < / b) by (apply Rinv_0_lt_compat; assumption).
  assert (Hiy : 0 < / y) by (apply Rinv_0_lt_compat; assumption).
  assert (HxP : 0 < x * Pj) by (apply Rmult_lt_0_compat; assumption).
  assert (HxQ : 0 < x * Qj) by (apply Rmult_lt_0_compat; assumption).
  split.
  - (* x/y * Pj * p * p <= a / b *)
    apply Rmult_le_reg_r with b; [exact Hb|].
    replace (a / b * b) with a by (field; lra).
    apply Rle_trans with (x * Pj); [|exact A1].
    apply Rle_trans with (x / y * (Pj * (p * p)) * (y * q)).
    + apply Rmult_le_compat_l; [|exact B2].
      apply Rmult_le_pos; [apply Rlt_le, Rdiv_lt_0_compat; assumption|].
      apply Rlt_le, Rmult_lt_0_compat; [assumption|].
      apply Rmult_lt_0_compat; assumption.
    + replace (x / y * (Pj * (p * p)) * (y * q)) with (x * Pj * (p * (p * q)))
        by (field; lra).
      rewrite <- (Rmult_1_r (x * Pj)) at 2.
      apply Rmult_le_compat_l; [lra|]. nra.
  - apply Rmult_le_reg_r with b; [exact Hb|].
    replace (a / b * b) with a by (field; lra).
    apply Rle_trans with (x * Qj); [exact A2|].
    apply Rle_trans with (x / y * (Qj * (q * q)) * (y * p)).
    + replace (x / y * (Qj * (q * q)) * (y * p)) with (x * Qj * (q * q * p))
        by (field; lra).
      rewrite <- (Rmult_1_r (x * Qj)) at 1.
      apply Rmult_le_compat_l; lra.
    + apply Rmult_le_compat_l; [|exact B1].
      apply Rmult_le_pos; [apply Rlt_le, Rdiv_lt_0_compat; assumption|].
      apply Rlt_le, Rmult_lt_0_compat; [assumption|].
      apply Rmult_lt_0_compat; assumption.
Qed.

Lemma tracks_div_gen prec emax a b j k x y :
  (24 <= prec)%Z -> (prec < emax)%Z -> (128 <= emax)%Z ->
  tracks prec emax a j x -> tracks prec emax b k y ->
  safe (x / y) -> (j + (k + k) < 16)%nat ->
  tracks prec emax (SFdiv prec emax a b) (S (j + (k + k))) (x / y).
Proof.
  intros Hprec Hemax Hemax128 Ta Tb Hs Hk.
  pose proof (tracks_pos prec emax a j x Ta ltac:(lia)) as Pa.
  pose proof (tracks_pos prec emax b k y Tb ltac:(lia)) as Pb.
  destruct Ta as (Va & Fa & Hx & Aa). destruct Tb as (Vb & Fb & Hy & Ab).
  assert (Hxy : 0 < x / y) by (apply Rdiv_lt_0_compat; assumption).
  pose proof (approx_div j k _ _ x y Hx Hy Aa Ab) as Hab.
  assert (Hb : x / y / 2 <= SF2R a / SF2R b <= 2 * (x / y)).
  { apply (approx_bounds (j + (k + k))); [lia | lra | assumption]. }
  destruct (safe_normal prec emax Hemax128 _ _ Hs Hb) as [Hn Hov].
  eapply (rounded_tracks prec emax); try eassumption.
  apply SFdiv_rounded; try assumption. lia.
Qed.

Lemma F64_div_gen a b j k x y :
  tracks64 a j x -> tracks64 b k y -> safe (x / y) -> (j + (k + k) < 16)%nat ->
  tracks64 (F64.div a b) (S (j + (k + k))) (x / y).
Proof. apply (tracks_div_gen 53 1024); lia. Qed.

(** A [double] holds every integer below [2 ^ 53] exactly. *)
Lemma F64_of_Z_wide z : (0 < z < 2 ^ 53)%Z -> tracks64 (F64.of_Z z) 0 (IZR z).
Proof.
  intros [Hz1 Hz2].
  assert (Hov : IZR z < bpow (1024 - 1)).
  { apply Rlt_le_trans with (bpow 53).
    - rewrite bpow_IZR by lia. apply IZR_lt. assumption.
    - apply bpow_le. lia. }
  pose proof (of_Z_rounded 53 1024 ltac:(lia) ltac:(lia) z Hz1 Hov) as Hr.
  refine (conj _ (conj _ (conj _ _))).
  - eapply rounded_valid; eassumption.
  - eapply rounded_finite; eassumption.
  - apply IZR_lt. assumption.
  - apply approx_exact.
    apply (rounded_exact 53 1024 ltac:(lia) _ _ z 0 Hr).
    + rewrite bpow_0. ring.
    + lia.
    + unfold SpecFloat.emin. lia.
Qed.

(** [voltage / 0.03] *)
Lemma input_current_tracks v x :
  tracks32 v 4 x -> / 100000 <= x <= 100 ->
  tracks32 (F32.of_double (F64.div (F64.of_float v) (F64.decimal 3 100)))
    8 (x / (3 / 100)).
Proof.
  intros Tv Hx.
  apply F32_of_double; [|apply safe_intro; lra|lia].
  apply (F64_div_gen _ _ 4 1); [| |apply safe_intro; lra|lia].
  - apply F64_of_float; [exact Tv|apply safe_intro; lra|lia].
  - apply (F64_decimal 3 100); [lia|lia|apply safe_intro; lra].
Qed.

(** The scaled value of a 16-bit reading, for the shunt of the output
    current and for that of the input current. *)
Lemma scaled_reading_close M :
  (0 <= M <= 65535)%Z ->
  (is_finite_SF (output_current_of_voltage (raw_to_voltage M)) = true /\
   Rabs (SF2R (output_current_of_voltage (raw_to_voltage M))
         - IZR M / 65536 * (33 / 10) / (51000 / 5100))
   <= / 1048576 * (IZR M / 65536 * (33 / 10) / (51000 / 5100))) /\
  (is_finite_SF
     (F32.of_double (F64.div (F64.of_float (raw_to_voltage M)) (F64.decimal 3 100)))
   = true /\
   Rabs (SF2R (F32.of_double
                 (F64.div (F64.of_float (raw_to_voltage M)) (F64.decimal 3 100)))
         - IZR M / 65536 * (33 / 10) / (3 / 100))
   <= / 1048576 * (IZR M / 65536 * (33 / 10) / (3 / 100))).
Proof.
  intros HM. destruct (Z.eq_dec M 0) as [HM0|HM0].
  - rewrite HM0. split; (split; [reflexivity|]).
    + change (SF2R (output_current_of_voltage (raw_to_voltage 0))) with 0.
      rewrite Rabs_pos_eq; lra.
    + change (SF2R (F32.of_double
                (F64.div (F64.of_float (raw_to_voltage 0)) (F64.decimal 3 100))))
        with 0.
      rewrite Rabs_pos_eq; lra.
  - assert (1 <= IZR M) by (apply IZR_le; lia).
    assert (IZR M <= 65535) by (apply IZR_le; lia).
    pose proof (raw_to_voltage_tracks M ltac:(lia)) as Tv.
    assert (Tc : tracks32 (output_current_of_voltage (raw_to_voltage M)) 6
                   (IZR M / 65536 * (33 / 10) / 10)).
    { apply output_current_tracks; [exact Tv | lra]. }
    assert (Ti : tracks32
                   (F32.of_double
                      (F64.div (F64.of_float (raw_to_voltage M)) (F64.decimal 3 100)))
                   8 (IZR M / 65536 * (33 / 10) / (3 / 100))).
    { apply input_current_tracks; [exact Tv | lra]. }
    replace (51000 / 5100) with 10 by field.
    split; (split; [eapply tracks_finite; eassumption|]);
      eapply tracks_close; try eassumption; lia.
Qed.

(** [(end - start) * 1e-6] *)
Lemma elapsed_seconds_close start stop :
  is_finite_SF (elapsed_seconds start stop) = true /\
  Rabs (SF2R (elapsed_seconds start stop)
        - IZR (to_u32 (stop - start)) / 1000000)
  <= / 1048576 * (IZR (to_u32 (stop - start)) / 1000000).
Proof.
  unfold elapsed_seconds.
  assert (Hd : (0 <= to_u32 (stop - start) < 2 ^ 32)%Z)
    by (apply Z.mod_pos_bound; lia).
  set (d := to_u32 (stop - start)) in *. clearbody d.
  destruct (Z.eq_dec d 0) as [->|Hd0].
  - split; [reflexivity|].
    change (SF2R _) with 0. rewrite Rabs_pos_eq; lra.
  - assert (1 <= IZR d) by (apply IZR_le; lia).
    assert (IZR d <= 4294967295) by (apply IZR_le; lia).
    assert (T : tracks32
                  (F32.of_double (F64.mul (F64.of_Z d) (F64.decimal 1 1000000)))
                  3 (IZR d * (1 / 1000000))).
    { apply F32_of_double; [|unfold safe; bpow_eval; split; lra|lia].
      apply (F64_mul _ _ 0 1); [| |unfold safe; bpow_eval; split; lra|lia].
      - apply F64_of_Z_wide. lia.
      - apply (F64_decimal 1 1000000); [lia|lia|apply safe_intro; lra]. }
    replace (IZR d / 1000000) with (IZR d * (1 / 1000000)) by field.
    split; [eapply tracks_finite; eassumption|].
    eapply tracks_close; [exact T | lia].
Qed.

Open Scope Z_scope.

(** ** Repeated percentile differences *)

Lemma percentile_diff_defined adc pin n lowp highp st :
  match fst (u16_percentile_diff adc pin n lowp highp st) with
  | Some _ => true
  | None => false
  end = percentile_defined n lowp highp.
Proof.
  unfold u16_percentile_diff, bind, percentile_defined.
  rewrite analog_reads_simple_run. cbn [fst ret].
  destruct (percentile_index highp n) as [hi|]; [|reflexivity].
  destruct (percentile_index lowp n) as [lo|]; [|reflexivity].
  set (L := sort _).
  assert (Hlen : length L = Z.to_nat n).
  { unfold L. rewrite sort_length, length_map. apply samples_length. }
  destruct (Nat.ltb_spec (Z.to_nat hi) (Z.to_nat n)) as [Hh|Hh].
  - destruct (nth_error L (Z.to_nat hi)) as [vh|] eqn:Eh.
    2:{ apply nth_error_None in Eh. lia. }
    destruct (Nat.ltb_spec (Z.to_nat lo) (Z.to_nat n)) as [Hl|Hl].
    + destruct (nth_error L (Z.to_nat lo)) as [vl|] eqn:El; [reflexivity|].
      apply nth_error_None in El. lia.
    + assert (El : nth_error L (Z.to_nat lo) = None) by (apply nth_error_None; lia).
      rewrite El. reflexivity.
  - assert (Eh : nth_error L (Z.to_nat hi) = None) by (apply nth_error_None; lia).
    rewrite Eh. reflexivity.
Qed.

Lemma percentile_loop adc pin n lowp highp k : forall d st,
  for_loop k
    (fun defined =>
       r <- u16_percentile_diff adc pin n lowp highp ;;
       ret (match r with Some _ => defined | None => false end)) d st
  = (match k with
     | O => d
     | S _ => d && percentile_defined n lowp highp
     end, after_reads pin (k * Z.to_nat n) st).
Proof.
  induction k as [|k IH]; intros d st.
  - cbn. rewrite after_reads_0. reflexivity.
  - cbn [for_loop]. unfold bind at 1 2.
    pose proof (percentile_diff_defined adc pin n lowp highp st) as Hd.
    pose proof (u16_percentile_diff_state adc pin n lowp highp st) as Hs.
    destruct (u16_percentile_diff adc pin n lowp highp st) as [r st'].
    cbn [fst snd] in Hd, Hs. subst st'. cbn [ret].
    rewrite IH, after_reads_add. f_equal.
    rewrite <- Hd. destruct k, r, d; reflexivity.
Qed.

(** ** Floats of either sign *)

Open Scope R_scope.

Lemma binary_round_aux_opp prec emax m e l :
  binary_round_aux prec emax true m e l
  = SFopp (binary_round_aux prec emax false m e l).
Proof.
  unfold binary_round_aux.
  destruct (shr_fexp prec emax m e l) as [mrs' e'].
  destruct (shr_fexp prec emax _ e' loc_Exact) as [mrs'' e''].
  destruct (shr_m mrs'') as [|p|p]; try reflexivity.
  destruct (e'' <=? emax - prec)%Z; reflexivity.
Qed.

Lemma binary_round_opp prec emax m e :
  binary_round prec emax true m e = SFopp (binary_round prec emax false m e).
Proof.
  unfold binary_round. destruct (shl_align m e _) as [mz ez].
  apply binary_round_aux_opp.
Qed.

Lemma SF2R_opp r : SF2R (SFopp r) = - SF2R r.
Proof.
  destruct r as [s|s| |s m e]; cbn [SFopp SF2R]; try lra.
  destruct s; cbn [negb cond_Zopp].
  - change (- Z.pos m)%Z with (Z.opp (Z.pos m)). rewrite opp_IZR. ring.
  - change (- Z.pos m)%Z with (Z.opp (Z.pos m)). rewrite opp_IZR. ring.
Qed.

Lemma valid_opp prec emax r :
  valid_binary prec emax (SFopp r) = valid_binary prec emax r.
Proof. destruct r; reflexivity. Qed.

Lemma finite_opp r : is_finite_SF (SFopp r) = is_finite_SF r.
Proof. destruct r; reflexivity. Qed.

Lemma SFopp_involutive r : SFopp (SFopp r) = r.
Proof. destruct r as [s|s| |s m e]; cbn; try destruct s; reflexivity. Qed.

Lemma near_opp prec emax r x : near prec emax r x -> near prec emax (SFopp r) (- x).
Proof.
  intros (V & F & E). refine (conj _ (conj _ _)).
  - rewrite valid_opp. exact V.
  - rewrite finite_opp. exact F.
  - rewrite SF2R_opp, Rabs_Ropp.
    replace (- SF2R r - - x) with (- (SF2R r - x)) by ring.
    rewrite Rabs_Ropp. exact E.
Qed.

Lemma near_exact prec emax r x :
  valid_binary prec emax r = true -> is_finite_SF r = true -> SF2R r = x ->
  near prec emax r x.
Proof.
  intros V F E. refine (conj V (conj F _)). rewrite E.
  unfold Rminus. rewrite Rplus_opp_r, Rabs_R0.
  pose proof (bpow_pos (- prec)). pose proof (bpow_pos (emin prec emax - 1)).
  pose proof (Rabs_pos x). nra.
Qed.

Lemma rounded_near prec emax r x : rounded prec emax r x -> near prec emax r x.
Proof.
  intros (mag & m' & [Hlo Hhi] & Hm' & Herr & Hval & V & F).
  refine (conj V (conj F _)).
  assert (Hx : 0 < x) by (pose proof (bpow_pos (mag - 1)); lra).
  rewrite (Rabs_pos_eq x) by lra. rewrite Hval.
  eapply Rle_trans; [exact Herr|].
  pose proof (bpow_pos (- prec)) as Hp.
  pose proof (bpow_pos (emin prec emax - 1)) as He.
  unfold SpecFloat.fexp.
  destruct (Z.max_spec (mag - prec) (emin prec emax)) as [[_ ->]|[_ ->]].
  - replace (emin prec emax) with (1 + (emin prec emax - 1))%Z at 1 by lia.
    rewrite bpow_add, bpow_1. nra.
  - replace (mag - prec)%Z with (1 + ((mag - 1) + - prec))%Z by lia.
    rewrite !bpow_add, bpow_1. nra.
Qed.

Lemma shl_align_value m e ez :
  (ez <= e)%Z ->
  IZR (Z.pos (fst (shl_align m e ez))) * bpow ez = IZR (Z.pos m) * bpow e.
Proof.
  intros He. unfold shl_align.
  destruct (ez - e)%Z as [|p|p] eqn:Hk; cbn [fst].
  - replace e with ez by lia. reflexivity.
  - lia.
  - rewrite iter_xO_Z, mult_IZR, <- bpow_IZR by lia.
    rewrite Rmult_assoc, <- bpow_add. do 2 f_equal. lia.
Qed.

Lemma IZR_cond_Zopp s z : IZR (cond_Zopp s z) = (if s then - IZR z else IZR z).
Proof. destruct s; cbn [cond_Zopp]; [apply opp_IZR | reflexivity]. Qed.

Section Signed.

Variables prec emax : Z.
Hypothesis Hprec : (1 < prec)%Z.
Hypothesis Hemax : (prec < emax)%Z.

Lemma binary_normalize_near M e :
  Rabs (IZR M * bpow e) < bpow (emax - 1) ->
  near prec emax (binary_normalize prec emax M e false) (IZR M * bpow e).
Proof.
  intros Hov. destruct M as [|p|p]; cbn [binary_normalize].
  - apply near_exact; try reflexivity. cbn [SF2R]. ring.
  - apply rounded_near. apply binary_round_rounded; try assumption.
    rewrite Rabs_pos_eq in Hov; [exact Hov|].
    apply Rmult_le_pos; [apply IZR_le; lia | apply Rlt_le, bpow_pos].
  - rewrite binary_round_opp.
    replace (IZR (Z.neg p) * bpow e) with (- (IZR (Z.pos p) * bpow e)) in *
      by (change (Z.neg p) with (Z.opp (Z.pos p)); rewrite opp_IZR; ring).
    apply near_opp, rounded_near. apply binary_round_rounded; try assumption.
    rewrite Rabs_Ropp, Rabs_pos_eq in Hov; [exact Hov|].
    apply Rmult_le_pos; [apply IZR_le; lia | apply Rlt_le, bpow_pos].
Qed.

Lemma SFadd_near x y :
  valid_binary prec emax x = true -> valid_binary prec emax y = true ->
  is_finite_SF x = true -> is_finite_SF y = true ->
  Rabs (SF2R x) + Rabs (SF2R y) < bpow (emax - 1) ->
  near prec emax (SFadd prec emax x y) (SF2R x + SF2R y).
Proof.
  intros Vx Vy Fx Fy Hov.
  destruct x as [sx|sx| |sx mx ex]; try discriminate Fx;
    destruct y as [sy|sy| |sy my ey]; try discriminate Fy.
  - apply near_exact; [destruct sx, sy; reflexivity .. |].
    destruct sx, sy; cbn; ring.
  - apply near_exact; [assumption | reflexivity |]. cbn [SFadd SF2R]. ring.
  - apply near_exact; [assumption | reflexivity |]. cbn [SFadd SF2R]. ring.
  - cbn [SFadd]. cbn [SF2R] in *.
    set (ez := Z.min ex ey).
    pose proof (shl_align_value mx ex ez ltac:(unfold ez; lia)) as Hx.
    pose proof (shl_align_value my ey ez ltac:(unfold ez; lia)) as Hy.
    set (Mx := Z.pos (fst (shl_align mx ex ez))) in *.
    set (My := Z.pos (fst (shl_align my ey ez))) in *.
    assert (E : IZR (cond_Zopp sx Mx + cond_Zopp sy My) * bpow ez
                = IZR (cond_Zopp sx (Z.pos mx)) * bpow ex
                  + IZR (cond_Zopp sy (Z.pos my)) * bpow ey).
    { rewrite plus_IZR, !IZR_cond_Zopp. destruct sx, sy; lra. }
    rewrite <- E. apply binary_normalize_near. rewrite E.
    eapply Rle_lt_trans; [apply Rabs_triang | exact Hov].
Qed.

Lemma SFsub_near x y :
  valid_binary prec emax x = true -> valid_binary prec emax y = true ->
  is_finite_SF x = true -> is_finite_SF y = true ->
  Rabs (SF2R x) + Rabs (SF2R y) < bpow (emax - 1) ->
  near prec emax (SFsub prec emax x y) (SF2R x - SF2R y).
Proof.
  intros Vx Vy Fx Fy Hov.
  destruct x as [sx|sx| |sx mx ex]; try discriminate Fx;
    destruct y as [sy|sy| |sy my ey]; try discriminate Fy.
  - apply near_exact; [destruct sx, sy; reflexivity .. |].
    destruct sx, sy; cbn; ring.
  - apply near_exact; [exact Vy | reflexivity |].
    cbn [SFsub SF2R]. rewrite !IZR_cond_Zopp. destruct sy; cbn [negb]; ring.
  - apply near_exact; [assumption | reflexivity |]. cbn [SFsub SF2R]. ring.
  - cbn [SFsub]. cbn [SF2R] in *.
    set (ez := Z.min ex ey).
    pose proof (shl_align_value mx ex ez ltac:(unfold ez; lia)) as Hx.
    pose proof (shl_align_value my ey ez ltac:(unfold ez; lia)) as Hy.
    set (Mx := Z.pos (fst (shl_align mx ex ez))) in *.
    set (My := Z.pos (fst (shl_align my ey ez))) in *.
    assert (E : IZR (cond_Zopp sx Mx - cond_Zopp sy My) * bpow ez
                = IZR (cond_Zopp sx (Z.pos mx)) * bpow ex
                  - IZR (cond_Zopp sy (Z.pos my)) * bpow ey).
    { rewrite minus_IZR, !IZR_cond_Zopp. destruct sx, sy; lra. }
    rewrite <- E. apply binary_normalize_near. rewrite E.
    eapply Rle_lt_trans; [|exact Hov].
    unfold Rminus. eapply Rle_trans; [apply Rabs_triang|].
    rewrite Rabs_Ropp. lra.
Qed.

Lemma SFmul_near x y :
  valid_binary prec emax x = true -> valid_binary prec emax y = true ->
  is_finite_SF x = true -> is_finite_SF y = true ->
  Rabs (SF2R x * SF2R y) < bpow (emax - 1) ->
  near prec emax (SFmul prec emax x y) (SF2R x * SF2R y).
Proof.
  intros Vx Vy Fx Fy Hov.
  destruct x as [sx|sx| |sx mx ex]; try discriminate Fx;
    destruct y as [sy|sy| |sy my ey]; try discriminate Fy;
    try (apply near_exact; [reflexivity | reflexivity | cbn [SFmul SF2R]; ring]).
  assert (Hp : forall m e, 0 < SF2R (S754_finite false m e)).
  { intros m e. cbn [SF2R cond_Zopp]. apply Rmult_lt_0_compat;
      [apply IZR_lt; lia | apply bpow_pos]. }
  assert (Hr : rounded prec emax
                 (SFmul prec emax (S754_finite false mx ex) (S754_finite false my ey))
                 (SF2R (S754_finite false mx ex) * SF2R (S754_finite false my ey))).
  { apply SFmul_rounded; try assumption; try reflexivity; try apply Hp.
    eapply Rle_lt_trans; [|exact Hov].
    cbn [SF2R]. rewrite Rabs_mult, !Rabs_mult, !IZR_cond_Zopp.
    rewrite !(Rabs_pos_eq (bpow _)) by (apply Rlt_le, bpow_pos).
    assert (Hm : forall (s : bool) m, Rabs (if s then - IZR (Z.pos m) else IZR (Z.pos m))
                        = IZR (Z.pos m)).
    { intros s m. assert (0 < IZR (Z.pos m)) by (apply IZR_lt; lia).
      destruct s; [rewrite Rabs_Ropp|]; apply Rabs_pos_eq; lra. }
    rewrite !Hm. cbn [cond_Zopp]. lra. }
  apply rounded_near in Hr.
  assert (Hv : SF2R (S754_finite sx mx ex) * SF2R (S754_finite sy my ey)
               = (if xorb sx sy
                  then - (SF2R (S754_finite false mx ex) * SF2R (S754_finite false my ey))
                  else SF2R (S754_finite false mx ex) * SF2R (S754_finite false my ey))).
  { cbn [SF2R]. rewrite !IZR_cond_Zopp. destruct sx, sy; cbn [xorb]; ring. }
  rewrite Hv. cbn [SFmul] in *.
  destruct (xorb sx sy); cbn [xorb] in *.
  - rewrite binary_round_aux_opp. apply near_opp. exact Hr.
  - exact Hr.
Qed.

Lemma SFconvert_near x :
  is_finite_SF x = true -> Rabs (SF2R x) < bpow (emax - 1) ->
  near prec emax (SFconvert prec emax x) (SF2R x).
Proof.
  intros Fx Hov. destruct x as [sx|sx| |sx mx ex]; try discriminate Fx.
  - apply near_exact; reflexivity.
  - cbn [SFconvert].
    assert (Hr : rounded prec emax (binary_round prec emax false mx ex)
                   (IZR (Z.pos mx) * bpow ex)).
    { apply binary_round_rounded; try assumption.
      eapply Rle_lt_trans; [|exact Hov]. cbn [SF2R].
      rewrite Rabs_mult, IZR_cond_Zopp, (Rabs_pos_eq (bpow _))
        by (apply Rlt_le, bpow_pos).
      assert (0 < IZR (Z.pos mx)) by (apply IZR_lt; lia).
      apply Rmult_le_compat_r; [apply Rlt_le, bpow_pos|].
      destruct sx; [rewrite Rabs_Ropp|]; rewrite Rabs_pos_eq; lra. }
    apply rounded_near in Hr. cbn [SF2R]. rewrite IZR_cond_Zopp.
    destruct sx.
    + rewrite binary_round_opp.
      replace (- IZR (Z.pos mx) * bpow ex) with (- (IZR (Z.pos mx) * bpow ex)) by ring.
      apply near_opp. exact Hr.
    + exact Hr.
Qed.

End Signed.

Open Scope Z_scope.

(** ** The square root rounds correctly *)

Open Scope R_scope.

Lemma sqrt_digits m' q r D :
  (0 < D)%Z -> (2 ^ (D - 1) <= m' < 2 ^ D)%Z ->
  (m' = q * q + r)%Z -> (0 <= r <= 2 * q)%Z ->
  Zdigits2 q = ((D + 1) / 2)%Z /\ (0 < q)%Z.
Proof.
  intros HD [Hlo Hhi] Hm Hr.
  pose proof (Z.div_mod (D + 1) 2 ltac:(lia)) as Hdm.
  pose proof (Z.mod_pos_bound (D + 1) 2 ltac:(lia)) as Hmb.
  set (j := ((D + 1) / 2)%Z) in *.
  assert (Hj : (1 <= j)%Z) by lia.
  assert (Hp : (0 < 2 ^ (D - 1))%Z) by (apply Z.pow_pos_nonneg; lia).
  assert (Hq : (0 < q)%Z) by nia.
  split; [|exact Hq].
  apply Zdigits2_unique; [|exact Hq].
  assert (H1 : (2 ^ D <= 2 ^ j * 2 ^ j)%Z).
  { rewrite <- Z.pow_add_r by lia. apply Z.pow_le_mono_r; lia. }
  assert (H2 : (2 ^ (j - 1) * 2 ^ (j - 1) <= 2 ^ (D - 1))%Z).
  { rewrite <- Z.pow_add_r by lia. apply Z.pow_le_mono_r; lia. }
  assert (H3 : (0 < 2 ^ j)%Z) by (apply Z.pow_pos_nonneg; lia).
  assert (H4 : (0 < 2 ^ (j - 1))%Z) by (apply Z.pow_pos_nonneg; lia).
  split; nia.
Qed.

Lemma sqrt_shift m s :
  (0 <= s)%Z ->
  match s with
  | 0%Z => m
  | Z.pos _ => Z.shiftl m s
  | Z.neg _ => 0%Z
  end = (m * 2 ^ s)%Z.
Proof.
  intros Hs. destruct s as [|p|p]; [| |lia].
  - change (2 ^ 0)%Z with 1%Z. lia.
  - rewrite Z.shiftl_mul_pow2 by lia. reflexivity.
Qed.

Section Sqrt.

Variables prec emax : Z.
Hypothesis Hprec : (1 < prec)%Z.
Hypothesis Hemax : (prec < emax)%Z.

Lemma SFsqrt_rounded m e :
  IZR (Z.pos m) * bpow e < bpow (2 * (emax - 1)) ->
  rounded prec emax (SFsqrt prec emax (S754_finite false m e))
    (sqrt (IZR (Z.pos m) * bpow e)).
Proof.
  intros Hov. cbn [SFsqrt]. unfold SFsqrt_core_binary.
  rewrite !Z.div2_div.
  set (d := Zdigits2 (Z.pos m)).
  set (e' := Z.min (fexp prec emax ((d + e + 1) / 2)) (e / 2)).
  pose proof (Z.div_mod e 2 ltac:(lia)) as Hdm.
  pose proof (Z.mod_pos_bound e 2 ltac:(lia)) as Hmb.
  assert (He1 : (e' <= fexp prec emax ((d + e + 1) / 2))%Z) by apply Z.le_min_l.
  assert (He2 : (e' <= e / 2)%Z) by apply Z.le_min_r.
  set (s := (e - 2 * e')%Z).
  assert (Hs : (0 <= s)%Z) by (unfold s; lia).
  rewrite (sqrt_shift (Z.pos m) s Hs). set (m' := (Z.pos m * 2 ^ s)%Z).
  assert (Hd : (0 < d)%Z) by (unfold d; cbn; lia).
  assert (HD : Zdigits2 m' = (d + s)%Z) by (apply Zdigits2_shift; lia).
  assert (Hp : (0 < 2 ^ s)%Z) by (apply Z.pow_pos_nonneg; lia).
  assert (Hm'pos : (0 < m')%Z) by (unfold m'; nia).
  pose proof (Zdigits2_bounds m' Hm'pos) as Hb. rewrite HD in Hb.
  pose proof (Z.sqrtrem_spec m' ltac:(lia)) as Hspec.
  destruct (Z.sqrtrem m') as [q r]. destruct Hspec as [Hqr Hr].
  destruct (sqrt_digits m' q r (d + s) ltac:(lia) Hb Hqr Hr) as [Hdq Hq].
  (* the real square root *)
  assert (HX : IZR (Z.pos m) * bpow e = IZR m' * (bpow e' * bpow e')).
  { unfold m'. rewrite mult_IZR, <- bpow_IZR by lia.
    rewrite Rmult_assoc, <- !bpow_add. do 2 f_equal. unfold s. lia. }
  set (y := sqrt (IZR m')).
  assert (Hy0 : 0 <= y) by apply sqrt_pos.
  assert (Hy2 : y * y = IZR m').
  { apply sqrt_sqrt. apply IZR_le. lia. }
  pose proof (bpow_pos e') as Hbe.
  assert (Hsq : sqrt (IZR (Z.pos m) * bpow e) = y * bpow e').
  { apply sqrt_lem_1.
    - rewrite HX. apply Rmult_le_pos; [apply IZR_le; lia|].
      apply Rmult_le_pos; lra.
    - apply Rmult_le_pos; lra.
    - rewrite HX, <- Hy2. ring. }
  rewrite Hsq.
  assert (Hq0 : 1 <= IZR q) by (apply IZR_le; lia).
  assert (Hm'R : IZR m' = IZR q * IZR q + IZR r).
  { rewrite Hqr, plus_IZR, mult_IZR. reflexivity. }
  assert (Hr0 : 0 <= IZR r) by (apply IZR_le; lia).
  assert (Hr2 : IZR r <= 2 * IZR q).
  { rewrite <- mult_IZR. apply IZR_le. lia. }
  apply round_aux_rounded; try assumption.
  - rewrite scaled_back_r.
    destruct (Z.eqb_spec r 0) as [Hr0'|Hr0'].
    + cbn [inloc]. subst r. rewrite Rplus_0_r in Hm'R. nra.
    + assert (1 <= IZR r) by (apply IZR_le; lia).
      destruct (Z.leb_spec r q) as [Hrq|Hrq]; cbn [inloc].
      * assert (IZR r <= IZR q) by (apply IZR_le; lia). split; nra.
      * assert (IZR q + 1 <= IZR r).
        { rewrite <- plus_IZR. apply IZR_le. lia. }
        split; nra.
  - rewrite Hdq.
    replace ((d + s + 1) / 2 + e')%Z with ((d + e + 1) / 2)%Z; [exact He1|].
    unfold s. replace (d + (e - 2 * e') + 1)%Z with (d + e + 1 + (- e') * 2)%Z by ring.
    rewrite Z.div_add by lia. lia.
  - (* no overflow *)
    assert (Hlt : (y * bpow e') * (y * bpow e') < bpow (emax - 1) * bpow (emax - 1)).
    { rewrite <- bpow_add.
      replace (emax - 1 + (emax - 1))%Z with (2 * (emax - 1))%Z by lia.
      replace (y * bpow e' * (y * bpow e')) with (IZR m' * (bpow e' * bpow e'))
        by (rewrite <- Hy2; ring).
      rewrite <- HX. exact Hov. }
    pose proof (bpow_pos (emax - 1)).
    assert (0 <= y * bpow e') by (apply Rmult_le_pos; lra).
    nra.
Qed.

End Sqrt.

Open Scope Z_scope.

(** ** Square roots of perfect squares *)

Open Scope R_scope.

(** The [float] square root of a perfect square below [2 ^ 24] is exact. *)
Lemma SFsqrt_square x v :
  is_finite_SF x = true -> (0 < v <= 4096)%Z -> SF2R x = IZR (v * v) ->
  is_finite_SF (F32.sqrt x) = true /\ SF2R (F32.sqrt x) = IZR v.
Proof.
  intros Fx Hv Ex.
  assert (Hv1 : 1 <= IZR v <= 4096) by (split; apply IZR_le; lia).
  assert (Hv2 : 1 <= IZR (v * v) <= 16777216) by (split; apply IZR_le; nia).
  assert (Px : 0 < SF2R x) by lra.
  destruct (pos_finite_inv x Fx Px) as (m & e & ->).
  cbn [SF2R cond_Zopp] in Ex.
  assert (Hov : IZR (Z.pos m) * bpow e < bpow (2 * (128 - 1))).
  { rewrite Ex. apply Rle_lt_trans with 16777216; [lra|].
    apply Rlt_le_trans with (bpow 25); [bpow_eval; lra | apply bpow_le; lia]. }
  pose proof (SFsqrt_rounded 24 128 ltac:(lia) ltac:(lia) m e Hov) as R.
  rewrite Ex, mult_IZR, sqrt_square in R by lra.
  split; [exact (rounded_finite _ _ _ _ R)|].
  apply (rounded_exact 24 128 ltac:(lia) _ _ v 0 R).
  - rewrite bpow_0. ring.
  - change (2 ^ 24)%Z with 16777216%Z. lia.
  - unfold emin. lia.
Qed.

(** The quotient [sum2 / n] when the mean square is the perfect square
    [r * r]: it is exact. *)
Lemma mean_square_square n r :
  (0 < n)%Z -> (0 < r)%Z -> (n * (r * r) <= 2 ^ 24)%Z ->
  valid_binary 24 128 (mean_square (F32.of_Z (n * (r * r))) n) = true /\
  is_finite_SF (mean_square (F32.of_Z (n * (r * r))) n) = true /\
  SF2R (mean_square (F32.of_Z (n * (r * r))) n) = IZR (r * r).
Proof.
  intros Hn Hr Hs. unfold mean_square.
  change (2 ^ 24)%Z with 16777216%Z in Hs.
  destruct (F32_of_Z_value (n * (r * r))) as (_ & FS & ES);
    [change (2 ^ 24)%Z with 16777216%Z; nia|].
  destruct (F32_of_Z_value n) as (_ & Fn & En);
    [change (2 ^ 24)%Z with 16777216%Z; nia|].
  assert (Hq : IZR (n * (r * r)) / IZR n = IZR (r * r)).
  { rewrite (mult_IZR n). field. apply not_0_IZR. lia. }
  assert (Hr1 : 1 <= IZR (r * r) <= 16777216) by (split; apply IZR_le; nia).
  assert (R : rounded 24 128 (F32.div (F32.of_Z (n * (r * r))) (F32.of_Z n))
                (IZR (r * r))).
  { rewrite <- Hq, <- ES, <- En.
    apply SFdiv_rounded; try lia; try assumption.
    - rewrite ES. apply IZR_lt. nia.
    - rewrite En. apply IZR_lt. lia.
    - rewrite ES, En, Hq. unfold emin.
      apply Rle_trans with (bpow 0); [apply bpow_le; lia | rewrite bpow_0; lra].
    - rewrite ES, En, Hq.
      apply Rle_lt_trans with 16777216; [lra|].
      apply Rlt_le_trans with (bpow 25); [bpow_eval; lra | apply bpow_le; lia]. }
  split; [exact (rounded_valid _ _ _ _ R)|].
  split; [exact (rounded_finite _ _ _ _ R)|].
  destruct (Z.eq_dec (r * r) 16777216) as [E|E].
  - apply (rounded_exact 24 128 ltac:(lia) _ _ 8388608 1 R).
    + rewrite E, bpow_1. lra.
    + reflexivity.
    + unfold emin. lia.
  - apply (rounded_exact 24 128 ltac:(lia) _ _ (r * r) 0 R).
    + rewrite bpow_0. ring.
    + change (2 ^ 24)%Z with 16777216%Z. nia.
    + unfold emin. lia.
Qed.

(** From the mean square to the value returned. *)
Lemma rms_of_square q r :
  is_finite_SF q = true -> (0 < r <= 4096)%Z -> SF2R q = IZR (r * r) ->
  float_to_u16 (F32.sqrt q) = Some r.
Proof.
  intros Fq Hr Eq.
  destruct (SFsqrt_square q r Fq Hr Eq) as [Fs Es].
  unfold float_to_u16.
  rewrite (SFtrunc_of_value _ r 0 Fs ltac:(lia) ltac:(lia)).
  - change (2 ^ 0)%Z with 1%Z. rewrite Z.div_1_r.
    destruct (Z.leb_spec 0 r); [|lia].
    destruct (Z.leb_spec r 65535); [|lia]. reflexivity.
  - rewrite Es. change (- 0)%Z with 0%Z. rewrite bpow_0. ring.
Qed.

Open Scope Z_scope.

Lemma sum_squares_In l v : In v l -> v * v <= sum_squares l.
Proof.
  induction l as [|x l IH]; [intros []|].
  rewrite sum_squares_cons. pose proof (sum_squares_nonneg l).
  intros [->|Hin]; [lia|]. specialize (IH Hin). nia.
Qed.

Lemma sum_squares_constant l v :
  Forall (fun x => x = v) l -> sum_squares l = Z.of_nat (length l) * (v * v).
Proof.
  induction 1 as [|x l Hx Hl IH].
  - reflexivity.
  - rewrite sum_squares_cons, IH. subst x. cbn [length]. lia.
Qed.

(** Without rounding the accumulator of [read_rms] is the sum of squares. *)
Lemma read_sum2_exact adc pin n st :
  sum_squares (map to_u16 (samples adc pin (length (trace st)) (Z.to_nat n)))
  <= 2 ^ 24 ->
  fst (read_sum2 adc pin n st)
  = F32.of_Z
      (sum_squares (map to_u16 (samples adc pin (length (trace st)) (Z.to_nat n)))).
Proof.
  intros Hs. rewrite read_sum2_run. cbn [fst].
  set (S := samples adc pin (length (trace st)) (Z.to_nat n)) in *.
  rewrite (fold_left_map
             (fun sum2 v => F32.add sum2 (F32.of_Z (to_i32 (v * v)))) to_u16).
  rewrite fold_sum2_squares.
  - apply (fold_sum2_exact (map to_u16 S) 0); lia.
  - pose proof (Forall_to_u16 S) as Hr. rewrite Forall_forall in *.
    intros v Hv. specialize (Hr v Hv). cbn in Hr.
    pose proof (sum_squares_In _ _ Hv). change (2 ^ 24) with 16777216 in Hs. nia.
Qed.

Lemma F32_of_Z_count_pos n :
  1 <= n < 2 ^ 32 -> exists m e, F32.of_Z n = S754_finite false m e.
Proof.
  intros Hn.
  assert (Hov : (IZR n < bpow (128 - 1))%R).
  { apply Rlt_le_trans with (bpow 32); [|apply bpow_le; lia].
    rewrite bpow_IZR by lia. apply IZR_lt. lia. }
  pose proof (of_Z_rounded 24 128 ltac:(lia) ltac:(lia) n ltac:(lia) Hov) as R.
  apply pos_finite_inv.
  - exact (rounded_finite _ _ _ _ R).
  - apply (rounded_pos 24 128 ltac:(lia) _ _ R).
    apply Rle_trans with (bpow 0); [apply bpow_le; unfold emin; lia|].
    rewrite bpow_0. apply IZR_le. lia.
Qed.

(** ** Squares that overflow [int] *)

Lemma to_i32_square_neg v :
  46340 < v <= 65535 ->
  to_i32 (v * v) = - (2 ^ 32 - v * v) /\ 131071 <= 2 ^ 32 - v * v <= 2147479015.
Proof.
  intros Hv. unfold to_i32.
  change (2 ^ 32) with 4294967296. change (2 ^ 31) with 2147483648.
  replace (v * v + 2147483648) with (v * v - 2147483648 + 1 * 4294967296) by ring.
  rewrite Z.mod_add by lia. rewrite Z.mod_small by nia. nia.
Qed.

Lemma F32_of_Z_neg b : 0 < b -> F32.of_Z (- b) = SFopp (F32.of_Z b).
Proof.
  intros Hb. destruct b as [|p|p]; try lia.
  unfold F32.of_Z. cbn [Z.opp binary_normalize]. apply binary_round_opp.
Qed.

Lemma SFadd_opp_opp prec emax ma ea mb eb :
  SFadd prec emax (SFopp (S754_finite false ma ea)) (SFopp (S754_finite false mb eb))
  = SFopp (SFadd prec emax (S754_finite false ma ea) (S754_finite false mb eb)).
Proof.
  cbn [SFopp negb SFadd cond_Zopp Z.opp Z.add binary_normalize].
  apply binary_round_opp.
Qed.

Lemma SFdiv_opp_l prec emax ma ea mb eb :
  SFdiv prec emax (SFopp (S754_finite false ma ea)) (S754_finite false mb eb)
  = SFopp (SFdiv prec emax (S754_finite false ma ea) (S754_finite false mb eb)).
Proof.
  cbn [SFopp negb SFdiv xorb].
  destruct (SFdiv_core_binary prec emax (Z.pos ma) ea (Z.pos mb) eb) as [[mz ez] lz].
  apply binary_round_aux_opp.
Qed.

Open Scope R_scope.

Lemma pow_1u_bound k :
  INR k * (2 * u32) <= 1 -> (1 + u32) ^ k <= 1 + 2 * u32 * INR k.
Proof.
  pose proof u32_bounds as Hu.
  induction k as [|k IH]; intros Hk.
  - cbn. lra.
  - rewrite S_INR in *. pose proof (pos_INR k) as H0.
    specialize (IH ltac:(nra)). cbn [pow].
    set (Q := (1 + u32) ^ k) in *. clearbody Q.
    assert (H1 : u32 * (INR k * (2 * u32)) <= u32 * 1)
      by (apply Rmult_le_compat_l; lra).
    assert (H2 : (1 + u32) * Q <= (1 + u32) * (1 + 2 * u32 * INR k))
      by (apply Rmult_le_compat_l; lra).
    lra.
Qed.

Lemma pow_1u_le_2 k : (Z.of_nat k <= 8388608)%Z -> 1 <= (1 + u32) ^ k <= 2.
Proof.
  intros Hk. pose proof u32_bounds as Hu. split.
  - apply pow_R1_Rle. lra.
  - assert (HK : INR k <= 8388608) by (rewrite INR_IZR_INZ; apply IZR_le; exact Hk).
    pose proof (pos_INR k).
    eapply Rle_trans; [apply pow_1u_bound|]; rewrite u32_val; lra.
Qed.

(** The [float] of the magnitude of a wrapped square. *)
Lemma F32_of_wrapped b :
  (131071 <= b <= 2147479015)%Z ->
  exists m e, F32.of_Z b = S754_finite false m e /\
    131070 <= SF2R (F32.of_Z b) <= 2147483648.
Proof.
  intros Hb.
  assert (H1 : 131071 <= IZR b) by (apply IZR_le; lia).
  assert (H2 : IZR b <= 2147479015) by (apply IZR_le; lia).
  assert (Hov : IZR b < bpow (128 - 1)).
  { apply Rlt_le_trans with (bpow 32); [bpow_eval; lra | apply bpow_le; lia]. }
  pose proof (of_Z_rounded 24 128 ltac:(lia) ltac:(lia) b ltac:(lia) Hov) as R.
  assert (Hn : bpow (emin 24 128 + 24 - 1) <= IZR b).
  { apply Rle_trans with (bpow 0); [apply bpow_le; unfold emin; lia|].
    rewrite bpow_0. lra. }
  pose proof (rounded_rel 24 128 _ _ R Hn) as Hrel.
  apply Rabs_le_inv in Hrel.
  change (bpow (Z.opp 24)) with u32 in Hrel. rewrite u32_val in Hrel.
  change (binary_normalize 24 128 b 0 false) with (F32.of_Z b) in *.
  assert (P : 0 < SF2R (F32.of_Z b)) by lra.
  destruct (pos_finite_inv _ (rounded_finite _ _ _ _ R) P) as (m & e & E).
  exists m, e. split; [exact E|]. lra.
Qed.

(** Once negative, the accumulator of [read_rms] stays negative while the
    squares keep overflowing. *)
Lemma fold_neg_squares l : forall a k,
  Forall (fun v => 46340 < v <= 65535)%Z l ->
  is_finite_SF a = true -> (1 <= k)%nat ->
  (Z.of_nat (k + length l) <= 8388608)%Z ->
  65536 <= SF2R a <= 4294967296 * (INR k * (1 + u32) ^ k) ->
  exists a',
    fold_left (fun sum2 v => F32.add sum2 (F32.of_Z (to_i32 (v * v)))) l (SFopp a)
    = SFopp a' /\
    is_finite_SF a' = true /\
    65536 <= SF2R a'
    <= 4294967296 * (INR (k + length l) * (1 + u32) ^ (k + length l)).
Proof.
  induction l as [|v l IH]; intros a k Hl Fa Hk Hlen Ha.
  - exists a. cbn [fold_left length]. rewrite Nat.add_0_r. auto.
  - inversion Hl as [|? ? Hv Hl']; subst. cbn [fold_left length] in *.
    destruct (to_i32_square_neg v Hv) as [Ev Hb]. rewrite Ev.
    rewrite F32_of_Z_neg by lia.
    destruct (F32_of_wrapped _ Hb) as (mb & eb & Eb & Bb).
    assert (Pa : 0 < SF2R a) by lra.
    destruct (pos_finite_inv a Fa Pa) as (ma & ea & ->).
    rewrite Eb in *. unfold F32.add. rewrite SFadd_opp_opp.
    destruct (pow_1u_le_2 k ltac:(lia)) as [Q1 Q2].
    assert (HK : 1 <= INR k <= 8388608).
    { rewrite INR_IZR_INZ. split; apply IZR_le; lia. }
    set (Q := (1 + u32) ^ k) in *.
    set (ra := SF2R (S754_finite false ma ea)) in *.
    set (rb := SF2R (S754_finite false mb eb)) in *.
    assert (HP : INR k * Q <= 8388608 * 2) by (apply Rmult_le_compat; lra).
    assert (HP1 : INR k * 1 <= INR k * Q) by (apply Rmult_le_compat_l; lra).
    assert (Hov : ra + rb < bpow (128 - 1)).
    { apply Rlt_le_trans with (bpow 60); [bpow_eval; lra | apply bpow_le; lia]. }
    assert (Pb : 0 < rb) by lra.
    pose proof (SFadd_rounded 24 128 ltac:(lia) ltac:(lia)
                  (S754_finite false ma ea) (S754_finite false mb eb)
                  Fa eq_refl Pa Pb Hov) as R.
    fold ra rb in R.
    assert (Hn : bpow (emin 24 128 + 24 - 1) <= ra + rb).
    { apply Rle_trans with (bpow 0); [apply bpow_le; unfold emin; lia|].
      rewrite bpow_0. lra. }
    pose proof (rounded_rel 24 128 _ _ R Hn) as Hrel.
    apply Rabs_le_inv in Hrel.
    change (bpow (Z.opp 24)) with u32 in Hrel.
    pose proof u32_val as Hu.
    destruct (IH (SFadd 24 128 (S754_finite false ma ea) (S754_finite false mb eb))
                (S k) Hl' (rounded_finite _ _ _ _ R) ltac:(lia) ltac:(lia))
      as (a' & E' & F' & B').
    + rewrite S_INR. cbn [pow]. fold Q.
      replace (4294967296 * ((INR k + 1) * ((1 + u32) * Q)))
        with ((1 + u32) * (4294967296 * (INR k * Q) + 4294967296 * Q)) by ring.
      set (P := INR k * Q) in *. clearbody P Q ra rb.
      rewrite Hu in *. split; [lra|].
      apply Rle_trans with ((1 + / 16777216) * (ra + rb)); [lra|].
      apply Rmult_le_compat_l; lra.
    + exists a'. rewrite Nat.add_succ_r. auto.
Qed.

(** A negative sum of squares has no root mean square. *)
Lemma rms_of_negative a n :
  is_finite_SF a = true -> 65536 <= SF2R a <= 72057594037927936 ->
  (1 <= n <= 8388608)%Z ->
  float_to_u16 (F32.sqrt (mean_square (SFopp a) n)) = None.
Proof.
  intros Fa Ha Hn.
  assert (Pa : 0 < SF2R a) by lra.
  destruct (pos_finite_inv a Fa Pa) as (ma & ea & ->).
  destruct (F32_of_Z_count_pos n ltac:(lia)) as (mn & en & En).
  destruct (F32_of_Z_value n) as (_ & Fn & Vn);
    [change (2 ^ 24)%Z with 16777216%Z; lia|].
  unfold mean_square, F32.div, F32.prec, F32.emax. rewrite En in *.
  rewrite SFdiv_opp_l.
  assert (Hn1 : 1 <= IZR n <= 8388608) by (split; apply IZR_le; lia).
  set (ra := SF2R (S754_finite false ma ea)) in *.
  pose proof (Rdiv_bounds ra (IZR n) 8388608 ltac:(lra) Hn1) as Hq.
  assert (Hnorm : bpow (emin 24 128 + 24 - 1) <= ra / IZR n).
  { apply Rle_trans with (bpow (-8)); [apply bpow_le; unfold emin; lia|].
    bpow_eval. lra. }
  assert (Hov : ra / IZR n < bpow (128 - 1)).
  { apply Rlt_le_trans with (bpow 60); [bpow_eval; lra | apply bpow_le; lia]. }
  rewrite <- Vn in Hnorm, Hov, Hq.
  pose proof (SFdiv_rounded 24 128 ltac:(lia) ltac:(lia)
                (S754_finite false ma ea) (S754_finite false mn en)
                Fa eq_refl Pa ltac:(lra) Hnorm Hov) as R.
  pose proof (rounded_rel 24 128 _ _ R Hnorm) as Hrel.
  apply Rabs_le_inv in Hrel.
  change (bpow (Z.opp 24)) with u32 in Hrel. rewrite u32_val in Hrel.
  fold ra in R, Hrel.
  set (q := SFdiv 24 128 (S754_finite false ma ea) (S754_finite false mn en)) in *.
  set (x := ra / SF2R (S754_finite false mn en)) in *.
  assert (Bq : / 256 <= SF2R q <= 144115188075855872) by lra.
  destruct (pos_finite_inv q (rounded_finite _ _ _ _ R) ltac:(lra)) as (mq & eq & Eq).
  rewrite Eq. reflexivity.
Qed.

Open Scope Z_scope.

(** ** The temperature formula *)

Open Scope R_scope.

Lemma pow_5_bounds : 1 - 6 * u32 <= (1 - u32) ^ 5 /\ (1 + u32) ^ 5 <= 1 + 6 * u32.
Proof. rewrite u32_val. cbn [pow]. lra. Qed.

(** After at most five roundings the relative error is below [6 * 2^-24]. *)
Lemma approx_tight k v x :
  (k <= 5)%nat -> 0 <= x -> approx k v x -> Rabs (v - x) <= 6 * u32 * x.
Proof.
  intros Hk Hx H. apply (approx_weaken k 5) in H; try assumption.
  destruct H as [H1 H2]. destruct pow_5_bounds as [P1 P2].
  set (P := (1 - u32) ^ 5) in *. set (Q := (1 + u32) ^ 5) in *. clearbody P Q.
  pose proof u32_bounds.
  apply Rabs_le. split; nra.
Qed.

Lemma near64_abs r x :
  near 53 1024 r x -> Rabs x <= 1000 ->
  Rabs (SF2R r - x) <= / 1000000000000.
Proof.
  intros (_ & _ & E) Hx. eapply Rle_trans; [exact E|].
  unfold emin. change (3 - 1024 - 53 - 1)%Z with (-1075)%Z.
  assert (H : bpow (-1075) <= bpow (-60)) by (apply bpow_le; lia).
  eapply Rle_trans; [apply Rplus_le_compat_l; exact H|].
  change (Z.opp 53) with (-53)%Z.
  pose proof (Rabs_pos x). bpow_eval. lra.
Qed.

Lemma near32_abs r x :
  near 24 128 r x ->
  Rabs (SF2R r - x) <= u32 * Rabs x + / 1000000000000.
Proof.
  intros (_ & _ & E). eapply Rle_trans; [exact E|].
  unfold emin. change (3 - 128 - 24 - 1)%Z with (-150)%Z.
  assert (H : bpow (-150) <= bpow (-60)) by (apply bpow_le; lia).
  apply Rplus_le_compat; [apply Req_le; reflexivity|].
  eapply Rle_trans; [exact H|]. bpow_eval. lra.
Qed.

Lemma small_lt_bpow x e : Rabs x <= 1000 -> (10 <= e)%Z -> Rabs x < bpow e.
Proof.
  intros Hx He. assert (bpow 10 <= bpow e) by (apply bpow_le; lia).
  assert (bpow 10 = 1024) by (bpow_eval; reflexivity). lra.
Qed.

(** [25.0 + 583.0904 * (0.719 - voltage)], returned as [float], for a
    [voltage] that is within [8 * 2^-24] of the real [V] in [[0, 1.2]]. *)
Lemma temperature_from_double dv V :
  valid_binary 53 1024 dv = true -> is_finite_SF dv = true ->
  0 <= V <= 12 / 10 -> Rabs (SF2R dv - V) <= 8 * u32 ->
  is_finite_SF
    (F32.of_double
       (F64.add (F64.of_Z 25)
          (F64.mul (F64.decimal 5830904 10000)
             (F64.sub (F64.decimal 719 1000) dv)))) = true /\
  Rabs (SF2R
          (F32.of_double
             (F64.add (F64.of_Z 25)
                (F64.mul (F64.decimal 5830904 10000)
                   (F64.sub (F64.decimal 719 1000) dv))))
        - (25 + 5830904 / 10000 * (719 / 1000 - V)))
  <= / 1000.
Proof.
  intros Vdv Fdv HV Hdv.
  destruct (F64_decimal 719 1000 ltac:(lia) ltac:(lia) ltac:(apply safe_intro; lra))
    as (Vc & Fc & _ & Ac).
  apply approx_tight in Ac; [|lia|lra].
  destruct (F64_decimal 5830904 10000 ltac:(lia) ltac:(lia)
              ltac:(apply safe_intro; lra)) as (Vk & Fk & _ & Ak).
  apply approx_tight in Ak; [|lia|lra].
  destruct (F64_of_Z 25 ltac:(lia)) as (V25 & F25 & _ & A25).
  apply approx_0_inv in A25.
  set (c := F64.decimal 719 1000) in *.
  set (k := F64.decimal 5830904 10000) in *.
  set (c25 := F64.of_Z 25) in *.
  pose proof u32_val as Hu.
  apply Rabs_le_inv in Ac, Ak, Hdv.
  (* 0.719 - voltage *)
  assert (B1 : Rabs (SF2R c - SF2R dv) <= 1000) by (apply Rabs_le; lra).
  assert (N1 : near 53 1024 (F64.sub c dv) (SF2R c - SF2R dv)).
  { apply (SFsub_near 53 1024); try lia; try assumption.
    apply Rle_lt_trans with 8; [|apply Rlt_le_trans with (bpow 10);
      [bpow_eval; lra | apply bpow_le; lia]].
    assert (Rabs (SF2R c) <= 2) by (apply Rabs_le; lra).
    assert (Rabs (SF2R dv) <= 2) by (apply Rabs_le; lra). lra. }
  pose proof (near64_abs _ _ N1 B1) as E1. apply Rabs_le_inv in E1.
  destruct N1 as (V1 & F1 & _).
  set (t1 := F64.sub c dv) in *.
  (* 583.0904 * ... *)
  assert (B2' : Rabs (SF2R k * SF2R t1) <= 500) by (apply Rabs_le; split; nra).
  assert (B2 : Rabs (SF2R k * SF2R t1) <= 1000) by lra.
  assert (N2 : near 53 1024 (F64.mul k t1) (SF2R k * SF2R t1)).
  { apply (SFmul_near 53 1024); try lia; try assumption.
    apply small_lt_bpow; [exact B2 | lia]. }
  pose proof (near64_abs _ _ N2 B2) as E2. apply Rabs_le_inv in E2.
  destruct N2 as (V2 & F2 & _).
  set (t2 := F64.mul k t1) in *.
  (* 25.0 + ... *)
  apply Rabs_le_inv in B2'.
  assert (B3 : Rabs (SF2R c25 + SF2R t2) <= 1000) by (apply Rabs_le; lra).
  assert (N3 : near 53 1024 (F64.add c25 t2) (SF2R c25 + SF2R t2)).
  { apply (SFadd_near 53 1024); try lia; try assumption.
    apply Rle_lt_trans with 1024; [|apply Rlt_le_trans with (bpow 11);
      [bpow_eval; lra | apply bpow_le; lia]].
    assert (Rabs (SF2R c25) <= 25) by (apply Rabs_le; lra).
    assert (Rabs (SF2R t2) <= 999) by (apply Rabs_le; lra). lra. }
  pose proof (near64_abs _ _ N3 B3) as E3. apply Rabs_le_inv in E3.
  destruct N3 as (V3 & F3 & _).
  set (t3 := F64.add c25 t2) in *.
  (* the result as a float *)
  apply Rabs_le_inv in B3.
  assert (B4 : Rabs (SF2R t3) <= 1000) by (apply Rabs_le; lra).
  assert (N4 : near 24 128 (F32.of_double t3) (SF2R t3)).
  { apply (SFconvert_near 24 128); try lia; try assumption.
    apply small_lt_bpow; [exact B4 | lia]. }
  pose proof (near32_abs _ _ N4) as E4.
  destruct N4 as (_ & F4 & _).
  split; [exact F4|].
  assert (E4' : Rabs (SF2R (F32.of_double t3) - SF2R t3) <= 1001 * u32).
  { eapply Rle_trans; [exact E4|]. rewrite Hu in *. nra. }
  apply Rabs_le_inv in E4'.
  (* the budget *)
  set (r1 := SF2R t1) in *. set (r2 := SF2R t2) in *. set (r3 := SF2R t3) in *.
  set (rr := SF2R (F32.of_double t3)) in *.
  set (rc := SF2R c) in *. set (rk := SF2R k) in *. set (rd := SF2R dv) in *.
  clearbody r1 r2 r3 rr rc rk rd. rewrite A25 in *. rewrite Hu in *.
  assert (D1 : - (13 / 16777216) <= r1 - (719 / 1000 - V) <= 13 / 16777216) by lra.
  assert (D2 : - (10300 / 16777216)
               <= rk * r1 - 5830904 / 10000 * (719 / 1000 - V)
               <= 10300 / 16777216).
  { replace (rk * r1 - 5830904 / 10000 * (719 / 1000 - V))
      with ((rk - 5830904 / 10000) * r1
            + 5830904 / 10000 * (r1 - (719 / 1000 - V))) by ring.
    assert (- (3 / 4) <= r1 <= 3 / 4) by lra.
    assert (- (2700 / 16777216) <= (rk - 5830904 / 10000) * r1 <= 2700 / 16777216)
      by (split; nra).
    lra. }
  apply Rabs_le. lra.
Qed.

(** [(float)sum / 255.0 / 65535.0 * 1.2], stored in a [float] and widened
    again for the formula. *)
Lemma temperature_voltage sum :
  (0 <= sum <= 255 * 65535)%Z ->
  valid_binary 53 1024
    (F64.of_float
       (F32.of_double
          (F64.mul
             (F64.div (F64.div (F64.of_float (F32.of_Z sum)) (F64.of_Z 255))
                (F64.of_Z 65535))
             (F64.decimal 12 10)))) = true /\
  is_finite_SF
    (F64.of_float
       (F32.of_double
          (F64.mul
             (F64.div (F64.div (F64.of_float (F32.of_Z sum)) (F64.of_Z 255))
                (F64.of_Z 65535))
             (F64.decimal 12 10)))) = true /\
  Rabs (SF2R
          (F64.of_float
             (F32.of_double
                (F64.mul
                   (F64.div (F64.div (F64.of_float (F32.of_Z sum)) (F64.of_Z 255))
                      (F64.of_Z 65535))
                   (F64.decimal 12 10))))
        - IZR sum / 255 / 65535 * (12 / 10))
  <= 8 * u32.
Proof.
  intros Hsum. destruct (Z.eq_dec sum 0) as [->|Hne].
  - split; [reflexivity|]. split; [reflexivity|].
    change (SF2R _) with 0. pose proof u32_bounds.
    rewrite Rabs_pos_eq; lra.
  - assert (H1 : 1 <= IZR sum) by (apply IZR_le; lia).
    assert (H2 : IZR sum <= 16711425) by (apply IZR_le; lia).
    assert (T : tracks64
                  (F64.of_float
                     (F32.of_double
                        (F64.mul
                           (F64.div (F64.div (F64.of_float (F32.of_Z sum)) (F64.of_Z 255))
                              (F64.of_Z 65535))
                           (F64.decimal 12 10))))
                  5 (IZR sum / 255 / 65535 * (12 / 10))).
    { apply F64_of_float; [|apply safe_intro; lra|lia].
      apply F32_of_double; [|apply safe_intro; lra|lia].
      apply (F64_mul _ _ 2 1); [| |apply safe_intro; lra|lia].
      - apply (F64_div _ _ 1); [|apply (F64_of_Z 65535); lia|apply safe_intro; lra|lia].
        apply (F64_div _ _ 0); [|apply (F64_of_Z 255); lia|apply safe_intro; lra|lia].
        apply F64_of_float; [|apply safe_intro; lra|lia].
        apply F32_of_Z. lia.
      - apply (F64_decimal 12 10); [lia|lia|apply safe_intro; lra]. }
    destruct T as (V & F & Hx & A).
    split; [exact V|]. split; [exact F|].
    apply approx_tight in A; [|lia|lra].
    eapply Rle_trans; [exact A|]. pose proof u32_bounds. nra.
Qed.

Lemma temperature_close sum :
  (0 <= sum <= 255 * 65535)%Z ->
  is_finite_SF
    (F32.of_double
       (F64.add (F64.of_Z 25)
          (F64.mul (F64.decimal 5830904 10000)
             (F64.sub (F64.decimal 719 1000)
                (F64.of_float
                   (F32.of_double
                      (F64.mul
                         (F64.div
                            (F64.div (F64.of_float (F32.of_Z sum)) (F64.of_Z 255))
                            (F64.of_Z 65535))
                         (F64.decimal 12 10)))))))) = true /\
  Rabs (SF2R
          (F32.of_double
             (F64.add (F64.of_Z 25)
                (F64.mul (F64.decimal 5830904 10000)
                   (F64.sub (F64.decimal 719 1000)
                      (F64.of_float
                         (F32.of_double
                            (F64.mul
                               (F64.div
                                  (F64.div (F64.of_float (F32.of_Z sum))
                                     (F64.of_Z 255))
                                  (F64.of_Z 65535))
                               (F64.decimal 12 10))))))))
        - (25 + 5830904 / 10000
                * (719 / 1000 - IZR sum / 255 / 65535 * (12 / 10))))
  <= / 1000.
Proof.
  intros Hsum.
  destruct (temperature_voltage sum Hsum) as (V & F & E).
  apply temperature_from_double; try assumption.
  assert (0 <= IZR sum) by (apply IZR_le; lia).
  assert (IZR sum <= 16711425) by (apply IZR_le; lia).
  lra.
Qed.

Open Scope Z_scope.

Lemma measure_temperature_value adc st :
  fst (measure_temperature adc st)
  = F32.of_double
      (F64.add (F64.of_Z 25)
         (F64.mul (F64.decimal 5830904 10000)
            (F64.sub (F64.decimal 719 1000)
               (F64.of_float
                  (F32.of_double
                     (F64.mul
                        (F64.div
                           (F64.div
                              (F64.of_float
                                 (F32.of_Z
                                    (fst (sum_255 adc 38
                                            (snd (analogReference INTERNAL st))))))
                              (F64.of_Z 255))
                           (F64.of_Z 65535))
                        (F64.decimal 12 10))))))).
Proof.
  unfold measure_temperature, bind. cbn [analogReference snd].
  destruct (sum_255 adc 38 _). reflexivity.
Qed.

(** ** Accumulated rounding errors *)

Open Scope R_scope.


Lemma pow_1mu_bound k : 1 - u32 * INR k <= (1 - u32) ^ k.
Proof.
  pose proof u32_bounds as Hu.
  induction k as [|k IH]; [cbn; lra|].
  rewrite S_INR. cbn [pow]. pose proof (pos_INR k) as H0.
  set (Q := (1 - u32) ^ k) in *. clearbody Q.
  assert (H1 : (1 - u32) * (1 - u32 * INR k) <= (1 - u32) * Q)
    by (apply Rmult_le_compat_l; lra).
  assert (H2 : 0 <= u32 * u32 * INR k).
  { apply Rmult_le_pos; [apply Rmult_le_pos; lra | exact H0]. }
  lra.
Qed.

Lemma pow_1mu_le_1 k : 0 < (1 - u32) ^ k <= 1.
Proof.
  pose proof u32_bounds as Hu. split.
  - apply pow_lt. lra.
  - apply Rle_trans with (1 ^ k); [apply pow_incr; lra | rewrite pow1; lra].
Qed.

Lemma F32_of_Z_approx z :
  (0 < z < 2 ^ 32)%Z ->
  exists m e, F32.of_Z z = S754_finite false m e /\
    IZR z * (1 - u32) <= SF2R (F32.of_Z z) <= IZR z * (1 + u32).
Proof.
  intros Hz.
  assert (H1 : 1 <= IZR z) by (apply IZR_le; lia).
  assert (Hov : IZR z < bpow (128 - 1)).
  { apply Rlt_le_trans with (bpow 32); [|apply bpow_le; lia].
    rewrite bpow_IZR by lia. apply IZR_lt. lia. }
  pose proof (of_Z_rounded 24 128 ltac:(lia) ltac:(lia) z ltac:(lia) Hov) as R.
  assert (Hn : bpow (emin 24 128 + 24 - 1) <= IZR z).
  { apply Rle_trans with (bpow 0); [apply bpow_le; unfold emin; lia|].
    rewrite bpow_0. lra. }
  pose proof (rounded_rel 24 128 _ _ R Hn) as Hrel.
  apply Rabs_le_inv in Hrel.
  change (bpow (Z.opp 24)) with u32 in Hrel.
  change (binary_normalize 24 128 z 0 false) with (F32.of_Z z) in *.
  pose proof u32_bounds as Hu.
  assert (P : 0 < SF2R (F32.of_Z z)) by nra.
  destruct (pos_finite_inv _ (rounded_finite _ _ _ _ R) P) as (m & e & E).
  exists m, e. split; [exact E|]. lra.
Qed.

(** The accumulator of [read_rms] while no square overflows: after [k]
    samples with exact sum of squares [T] it is [+0] if [T = 0], and
    otherwise within [k] roundings of [T]. *)
Lemma fold_squares_approx l : forall a k T,
  Forall (fun v => 0 <= v <= 46340)%Z l ->
  (Z.of_nat (k + length l) <= 8388608)%Z ->
  (0 <= T <= Z.of_nat k * 2147483648)%Z ->
  (T = 0%Z /\ a = S754_zero false) \/
  ((0 < T)%Z /\ (1 <= k)%nat /\ is_finite_SF a = true /\
   IZR T * (1 - u32) ^ k <= SF2R a <= IZR T * (1 + u32) ^ k) ->
  ((T + sum_squares l = 0)%Z /\
   fold_left (fun sum2 v => F32.add sum2 (F32.of_Z (v * v))) l a = S754_zero false) \/
  ((0 < T + sum_squares l)%Z /\
   is_finite_SF (fold_left (fun sum2 v => F32.add sum2 (F32.of_Z (v * v))) l a) = true /\
   IZR (T + sum_squares l) * (1 - u32) ^ (k + length l)
   <= SF2R (fold_left (fun sum2 v => F32.add sum2 (F32.of_Z (v * v))) l a)
   <= IZR (T + sum_squares l) * (1 + u32) ^ (k + length l)).
Proof.
  pose proof u32_bounds as Hu.
  induction l as [|v l IH]; intros a k T Hl Hlen HS Ha.
  - cbn [fold_left length sum_squares sum_list map fold_right].
    rewrite Z.add_0_r, Nat.add_0_r.
    destruct Ha as [[-> ->]|(H1 & _ & H2 & H3)]; [left; auto | right; auto].
  - apply Forall_cons_iff in Hl. destruct Hl as [Hv Hl].
    rewrite sum_squares_cons. cbn [fold_left length] in *.
    rewrite Z.add_assoc. rewrite Nat.add_succ_r in *.
    apply (IH _ (S k)); try assumption; [nia|].
    destruct (Z.eq_dec v 0) as [->|Hv0].
    + (* a sample equal to 0 *)
      change (F32.of_Z (0 * 0)) with (S754_zero false). rewrite Z.add_0_r.
      destruct Ha as [[-> ->]|(H1 & Hk & H2 & [H3 H4])].
      * left. split; reflexivity.
      * right.
        assert (Pa : 0 < SF2R a).
        { destruct (pow_1mu_le_1 k). assert (1 <= IZR T) by (apply IZR_le; lia). nra. }
        destruct (pos_finite_inv a H2 Pa) as (ma & ea & ->).
        split; [exact H1|]. split; [lia|]. split; [reflexivity|].
        change (F32.add (S754_finite false ma ea) (S754_zero false))
          with (S754_finite false ma ea).
        cbn [pow]. destruct (pow_1mu_le_1 k) as [P0 P1].
        assert (Q1 : 1 <= (1 + u32) ^ k) by (apply pow_R1_Rle; lra).
        assert (HS1 : 1 <= IZR T) by (apply IZR_le; lia).
        set (P := (1 - u32) ^ k) in *. set (Q := (1 + u32) ^ k) in *.
        clearbody P Q. split; nra.
    + (* a positive sample *)
      assert (Hz : (0 < v * v < 2147483648)%Z) by nia.
      destruct (F32_of_Z_approx (v * v) ltac:(lia)) as (mz & ez & Ez & Bz).
      assert (Hz1 : 1 <= IZR (v * v) <= 2147483648) by (split; apply IZR_le; lia).
      right. split; [lia|]. split; [lia|].
      destruct Ha as [[-> ->]|(H1 & Hk & H2 & [H3 H4])].
      * rewrite Z.add_0_l. rewrite Ez in *.
        change (F32.add (S754_zero false) (S754_finite false mz ez))
          with (S754_finite false mz ez).
        split; [reflexivity|]. cbn [pow].
        destruct (pow_1mu_le_1 k) as [P0 P1].
        assert (Q1 : 1 <= (1 + u32) ^ k) by (apply pow_R1_Rle; lra).
        set (P := (1 - u32) ^ k) in *. set (Q := (1 + u32) ^ k) in *.
        clearbody P Q.
        assert (IZR (v * v) * (1 - u32) * P <= IZR (v * v) * (1 - u32) * 1)
          by (apply Rmult_le_compat_l; [apply Rmult_le_pos|]; lra).
        assert (IZR (v * v) * (1 + u32) * 1 <= IZR (v * v) * (1 + u32) * Q)
          by (apply Rmult_le_compat_l; [apply Rmult_le_pos|]; lra).
        lra.
      * assert (HS1 : 1 <= IZR T) by (apply IZR_le; lia).
        assert (HS2 : IZR T <= 8388608 * 2147483648).
        { rewrite <- mult_IZR. apply IZR_le. nia. }
        destruct (pow_1mu_le_1 k) as [P0 P1].
        destruct (pow_1u_le_2 k ltac:(lia)) as [Q1 Q2].
        assert (P2 : (1 - u32) ^ k <= 1 - u32).
        { destruct k as [|k0]; [lia|]. cbn [pow].
          destruct (pow_1mu_le_1 k0). nra. }
        assert (Q3 : 1 + u32 <= (1 + u32) ^ k).
        { destruct k as [|k0]; [lia|]. cbn [pow].
          assert (1 <= (1 + u32) ^ k0) by (apply pow_R1_Rle; lra). nra. }
        assert (Pa : 0 < SF2R a) by nra.
        destruct (pos_finite_inv a H2 Pa) as (ma & ea & ->).
        rewrite Ez in *.
        set (ra := SF2R (S754_finite false ma ea)) in *.
        set (rz := SF2R (S754_finite false mz ez)) in *.
        set (P := (1 - u32) ^ k) in *. set (Q := (1 + u32) ^ k) in *.
        assert (Hrz : / 2 <= rz <= 4294967296) by (split; nra).
        assert (Hra : ra <= 8388608 * 2147483648 * 2).
        { apply Rle_trans with (IZR T * Q); [lra|].
          apply Rmult_le_compat; lra. }
        assert (Hov : ra + rz < bpow (128 - 1)).
        { apply Rlt_le_trans with (bpow 60); [bpow_eval; lra | apply bpow_le; lia]. }
        assert (Pz : 0 < rz) by lra.
        pose proof (SFadd_rounded 24 128 ltac:(lia) ltac:(lia)
                      (S754_finite false ma ea) (S754_finite false mz ez)
                      eq_refl eq_refl Pa Pz Hov) as R.
        fold ra rz in R.
        assert (Hn : bpow (emin 24 128 + 24 - 1) <= ra + rz).
        { apply Rle_trans with (bpow (-1)); [apply bpow_le; unfold emin; lia|].
          bpow_eval. lra. }
        pose proof (rounded_rel 24 128 _ _ R Hn) as Hrel.
        apply Rabs_le_inv in Hrel.
        change (bpow (Z.opp 24)) with u32 in Hrel.
        split; [exact (rounded_finite _ _ _ _ R)|].
        unfold F32.add, F32.prec, F32.emax.
        set (r := SF2R (SFadd 24 128 (S754_finite false ma ea)
                          (S754_finite false mz ez))) in *.
        rewrite plus_IZR. cbn [pow]. fold P Q.
        clearbody r ra rz P Q.
        assert (L1 : (IZR T + IZR (v * v)) * P <= ra + rz).
        { assert (IZR (v * v) * P <= IZR (v * v) * (1 - u32))
            by (apply Rmult_le_compat_l; lra). lra. }
        assert (U1 : ra + rz <= (IZR T + IZR (v * v)) * Q).
        { assert (IZR (v * v) * (1 + u32) <= IZR (v * v) * Q)
            by (apply Rmult_le_compat_l; lra). lra. }
        split.
        -- apply Rle_trans with ((1 - u32) * (ra + rz)); [|lra].
           replace ((IZR T + IZR (v * v)) * ((1 - u32) * P))
             with ((1 - u32) * ((IZR T + IZR (v * v)) * P)) by ring.
           apply Rmult_le_compat_l; lra.
        -- apply Rle_trans with ((1 + u32) * (ra + rz)); [lra|].
           replace ((IZR T + IZR (v * v)) * ((1 + u32) * Q))
             with ((1 + u32) * ((IZR T + IZR (v * v)) * Q)) by ring.
           apply Rmult_le_compat_l; lra.
Qed.

Lemma float_to_u16_defined x :
  is_finite_SF x = true -> 0 <= SF2R x < 65536 ->
  exists r, float_to_u16 x = Some r.
Proof.
  intros Fx Hx. unfold float_to_u16.
  destruct (SFtrunc x) as [z|] eqn:Ez.
  - destruct (SFtrunc_floor x z Ez ltac:(lra)) as [H1 H2].
    assert (Hz : (0 <= z <= 65535)%Z).
    { split.
      - apply Z.lt_succ_r. apply lt_IZR. rewrite succ_IZR. lra.
      - apply Z.lt_succ_r. apply lt_IZR. rewrite succ_IZR.
        change (IZR 65535 + 1) with (65535 + 1). lra. }
    destruct (Z.leb_spec 0 z); [|lia]. destruct (Z.leb_spec z 65535); [|lia].
    exists z. reflexivity.
  - destruct x; try discriminate Fx; discriminate Ez.
Qed.

Lemma sq_le a b : 0 <= a -> 0 <= b -> a * a <= b * b -> a <= b.
Proof. intros. nra. Qed.

(** From the accumulated sum of squares to the value returned. *)
Lemma rms_pipeline a T n :
  (1 <= n <= 4194304)%Z -> (0 < T <= n * 2147395600)%Z ->
  is_finite_SF a = true ->
  IZR T * (1 - u32) ^ Z.to_nat n <= SF2R a <= IZR T * (1 + u32) ^ Z.to_nat n ->
  exists r,
    float_to_u16 (F32.sqrt (mean_square a n)) = Some r /\
    sqrt (IZR T / IZR n) * (1 - (IZR n + 3) * u32) - 1 < IZR r
    <= sqrt (IZR T / IZR n) * (1 + (IZR n + 3) * u32).
Proof.
  intros Hn HT Fa [Ha1 Ha2].
  pose proof u32_val as Hu. pose proof u32_bounds as Hu'.
  set (k := Z.to_nat n) in *.
  assert (HN : 1 <= IZR n <= 4194304) by (split; apply IZR_le; lia).
  assert (Hk : INR k = IZR n).
  { unfold k. rewrite INR_IZR_INZ, Z2Nat.id by lia. reflexivity. }
  assert (HT1 : 1 <= IZR T) by (apply IZR_le; lia).
  assert (HT2 : IZR T <= IZR n * 2147395600).
  { rewrite <- mult_IZR. apply IZR_le. lia. }
  (* the powers *)
  pose proof (pow_1mu_bound (S k)) as PS. pose proof (pow_1u_bound (S k)) as QS.
  rewrite S_INR, Hk in PS, QS. specialize (QS ltac:(rewrite Hu; lra)).
  destruct (pow_1mu_le_1 k) as [P0 P1].
  destruct (pow_1u_le_2 k ltac:(unfold k; lia)) as [Q1 Q2].
  pose proof (pow_1mu_bound k) as Pk. rewrite Hk in Pk.
  cbn [pow] in PS, QS.
  set (P := (1 - u32) ^ k) in *. set (Q := (1 + u32) ^ k) in *.
  set (ra := SF2R a) in *.
  assert (Hra : / 2 <= ra <= IZR T * 2).
  { split.
    - apply Rle_trans with (IZR T * P); [|exact Ha1].
      apply Rle_trans with (1 * (3 / 4)); [lra|].
      apply Rmult_le_compat; try lra. rewrite Hu in Pk. lra.
    - apply Rle_trans with (IZR T * Q); [exact Ha2|].
      apply Rmult_le_compat_l; lra. }
  assert (Pa : 0 < ra) by lra.
  (* the mean *)
  destruct (F32_of_Z_count_pos n ltac:(lia)) as (mn & en & En).
  destruct (F32_of_Z_value n) as (_ & Fn & Vn);
    [change (2 ^ 24)%Z with 16777216%Z; lia|].
  unfold mean_square, F32.div, F32.prec, F32.emax. rewrite En in *.
  set (w := IZR T / IZR n).
  assert (Hin : 0 < / IZR n <= 1).
  { split; [apply Rinv_0_lt_compat; lra|].
    rewrite <- Rinv_1. apply Rinv_le_contravar; lra. }
  assert (Hw : / 4194304 <= w <= 2147395600).
  { unfold w, Rdiv. split.
    - apply Rle_trans with (1 * / IZR n); [|apply Rmult_le_compat_r; lra].
      rewrite Rmult_1_l. apply Rinv_le_contravar; lra.
    - apply Rle_trans with (IZR n * 2147395600 * / IZR n);
        [apply Rmult_le_compat_r; lra|].
      replace (IZR n * 2147395600 * / IZR n) with 2147395600 by (field; lra). lra. }
  set (x := ra / SF2R (S754_finite false mn en)).
  assert (Hx : w * P <= x <= w * Q).
  { unfold x, w, Rdiv. rewrite Vn. split.
    - replace (IZR T * / IZR n * P) with (IZR T * P * / IZR n) by ring.
      apply Rmult_le_compat_r; lra.
    - replace (IZR T * / IZR n * Q) with (IZR T * Q * / IZR n) by ring.
      apply Rmult_le_compat_r; lra. }
  assert (Hx2 : / 8388608 <= x <= 4294967296).
  { split.
    - apply Rle_trans with (w * P); [|lra].
      apply Rle_trans with (/ 4194304 * (3 / 4)); [lra|].
      apply Rmult_le_compat; try lra. rewrite Hu in Pk. lra.
    - apply Rle_trans with (w * Q); [lra|].
      apply Rle_trans with (2147395600 * 2); [|lra].
      apply Rmult_le_compat; lra. }
  assert (Hnorm : bpow (emin 24 128 + 24 - 1) <= x).
  { apply Rle_trans with (bpow (-23)); [apply bpow_le; unfold emin; lia|].
    bpow_eval. lra. }
  assert (Hov : x < bpow (128 - 1)).
  { apply Rlt_le_trans with (bpow 60); [bpow_eval; lra | apply bpow_le; lia]. }
  assert (Pn : 0 < SF2R (S754_finite false mn en)) by (rewrite Vn; lra).
  set (q := SFdiv 24 128 a (S754_finite false mn en)).
  assert (R : rounded 24 128 q x).
  { exact (SFdiv_rounded 24 128 ltac:(lia) ltac:(lia) a
             (S754_finite false mn en) Fa eq_refl Pa Pn Hnorm Hov). }
  assert (Hrel : Rabs (SF2R q - x) <= u32 * x)
    by exact (rounded_rel 24 128 q x R Hnorm).
  apply Rabs_le_inv in Hrel.
  assert (Hq : x * (1 - u32) <= SF2R q <= x * (1 + u32)) by lra.
  assert (Hux : 0 <= u32 * x <= / 1000000 * x)
    by (split; [apply Rmult_le_pos | apply Rmult_le_compat_r]; lra).
  assert (Hq2 : / 16777216 <= SF2R q <= 8589934592) by lra.
  destruct (pos_finite_inv q (rounded_finite _ _ _ _ R) ltac:(lra)) as (mq & eq & Eq).
  (* the square root *)
  assert (Hov2 : IZR (Z.pos mq) * bpow eq < bpow (2 * (128 - 1))).
  { replace (IZR (Z.pos mq) * bpow eq) with (SF2R q) by (rewrite Eq; reflexivity).
    apply Rle_lt_trans with 8589934592; [lra|].
    apply Rlt_le_trans with (bpow 60); [bpow_eval; lra | apply bpow_le; lia]. }
  pose proof (SFsqrt_rounded 24 128 ltac:(lia) ltac:(lia) mq eq Hov2) as R2.
  replace (IZR (Z.pos mq) * bpow eq) with (SF2R q) in R2
    by (rewrite Eq; reflexivity).
  unfold F32.sqrt, F32.prec, F32.emax. fold q. rewrite Eq.
  set (c := SFsqrt 24 128 (S754_finite false mq eq)) in *.
  set (t := sqrt (SF2R q)) in *.
  assert (Ht0 : 0 <= t) by apply sqrt_pos.
  assert (Ht2 : t * t = SF2R q) by (apply sqrt_sqrt; lra).
  assert (Ht1 : / 4096 <= t).
  { apply sq_le; [lra | exact Ht0 | rewrite Ht2; lra]. }
  assert (Hn2 : bpow (emin 24 128 + 24 - 1) <= t).
  { apply Rle_trans with (bpow (-12)); [apply bpow_le; unfold emin; lia|].
    bpow_eval. lra. }
  assert (Hrel2 : Rabs (SF2R c - t) <= u32 * t)
    by exact (rounded_rel 24 128 c t R2 Hn2).
  apply Rabs_le_inv in Hrel2.
  assert (Hc : t * (1 - u32) <= SF2R c <= t * (1 + u32)) by lra.
  (* the true root mean square *)
  set (rho := sqrt w).
  assert (Hr0 : 0 <= rho) by apply sqrt_pos.
  assert (Hr2 : rho * rho = w) by (apply sqrt_sqrt; lra).
  assert (Hr1 : rho <= 46340).
  { apply sq_le; [exact Hr0 | lra | rewrite Hr2; lra]. }
  set (A := (IZR n + 1) * u32).
  assert (HA : 0 <= A <= 3 / 10) by (unfold A; rewrite Hu; split; nra).
  assert (Hq3 : w * (1 - A) <= SF2R q <= w * (1 + 2 * A)).
  { split.
    - apply Rle_trans with (x * (1 - u32)); [|lra].
      apply Rle_trans with (w * P * (1 - u32)); [|apply Rmult_le_compat_r; lra].
      rewrite Rmult_assoc. apply Rmult_le_compat_l; [lra|].
      unfold A. lra.
    - apply Rle_trans with (x * (1 + u32)); [lra|].
      apply Rle_trans with (w * Q * (1 + u32)); [apply Rmult_le_compat_r; lra|].
      rewrite Rmult_assoc. apply Rmult_le_compat_l; [lra|].
      unfold A. lra. }
  assert (Ht3 : rho * (1 - A) <= t <= rho * (1 + A)).
  { split.
    - apply sq_le; [apply Rmult_le_pos; lra | exact Ht0 |].
      rewrite Ht2.
      replace (rho * (1 - A) * (rho * (1 - A)))
        with (rho * rho * ((1 - A) * (1 - A))) by ring.
      rewrite Hr2. apply Rle_trans with (w * (1 - A)); [|lra].
      apply Rmult_le_compat_l; [lra|]. nra.
    - apply sq_le; [exact Ht0 | apply Rmult_le_pos; lra |].
      rewrite Ht2.
      replace (rho * (1 + A) * (rho * (1 + A)))
        with (rho * rho * ((1 + A) * (1 + A))) by ring.
      rewrite Hr2. apply Rle_trans with (w * (1 + 2 * A)); [lra|].
      apply Rmult_le_compat_l; [lra|]. nra. }
  assert (HB : (IZR n + 3) * u32 = A + 2 * u32) by (unfold A; ring).
  rewrite HB.
  assert (HAu : 0 <= A * u32 <= u32).
  { split; [apply Rmult_le_pos; lra|].
    apply Rle_trans with (1 * u32); [apply Rmult_le_compat_r; lra | lra]. }
  assert (Hc2 : rho * (1 - (A + 2 * u32)) <= SF2R c <= rho * (1 + (A + 2 * u32))).
  { split.
    - apply Rle_trans with (t * (1 - u32)); [|lra].
      apply Rle_trans with (rho * (1 - A) * (1 - u32));
        [|apply Rmult_le_compat_r; lra].
      rewrite Rmult_assoc. apply Rmult_le_compat_l; [lra|].
      replace ((1 - A) * (1 - u32)) with (1 - A - u32 + A * u32) by ring. lra.
    - apply Rle_trans with (t * (1 + u32)); [lra|].
      apply Rle_trans with (rho * (1 + A) * (1 + u32));
        [apply Rmult_le_compat_r; lra|].
      rewrite Rmult_assoc. apply Rmult_le_compat_l; [lra|].
      replace ((1 + A) * (1 + u32)) with (1 + A + u32 + A * u32) by ring. lra. }
  assert (Hc3 : 0 <= SF2R c < 65536).
  { split.
    - apply Rle_trans with (t * (1 - u32)); [apply Rmult_le_pos; lra | lra].
    - apply Rle_lt_trans with (rho * (1 + (A + 2 * u32))); [lra|].
      apply Rle_lt_trans with (46340 * (14 / 10)); [|lra].
      apply Rmult_le_compat; lra. }
  destruct (float_to_u16_defined c (rounded_finite _ _ _ _ R2) Hc3) as (r & Er).
  exists r. split; [exact Er|].
  destruct (float_to_u16_floor c r Er ltac:(lra)) as [_ Hfl].
  lra.
Qed.

Open Scope Z_scope.

Lemma sum_squares_bound l :
  Forall (fun v => 0 <= v <= 46340) l ->
  0 <= sum_squares l <= Z.of_nat (length l) * 2147395600.
Proof.
  induction 1 as [|v l Hv Hl IH].
  - cbn. lia.
  - rewrite sum_squares_cons. cbn [length]. nia.
Qed.

(** * The claims *)

Section Claims.

Variable adc : nat -> Z -> Z.
Variable A1 : Z.

(** ** The cached high voltage *)

(** Claim C9. The cached high voltage [high_voltage_] is 0 at process start,
    and every routine other than [high_voltage] (the two hardware primitives,
    sampling, percentile difference, temperature, reference-voltage
    calibration, running maximum, running RMS and the three current
    measurements) leaves it unchanged. *)
Theorem high_voltage_cache_frame :
  high_voltage_ init = S754_zero false /\
  (forall pin st,
     high_voltage_ (snd (analogRead adc pin st)) = high_voltage_ st) /\
  (forall r st,
     high_voltage_ (snd (analogReference r st)) = high_voltage_ st) /\
  (forall pin n st,
     high_voltage_ (snd (analog_reads_simple adc pin n st)) = high_voltage_ st) /\
  (forall pin n lowp highp st,
     high_voltage_ (snd (u16_percentile_diff adc pin n lowp highp st))
     = high_voltage_ st) /\
  (forall st,
     high_voltage_ (snd (measure_temperature adc st)) = high_voltage_ st) /\
  (forall st, high_voltage_ (snd (measure_aref adc st)) = high_voltage_ st) /\
  (forall pin n st,
     high_voltage_ (snd (read_max adc pin n st)) = high_voltage_ st) /\
  (forall pin n st,
     high_voltage_ (snd (read_rms adc pin n st)) = high_voltage_ st) /\
  (forall n st,
     high_voltage_ (snd (measure_output_current adc n st)) = high_voltage_ st) /\
  (forall n st,
     high_voltage_ (snd (measure_output_current_rms adc n st))
     = high_voltage_ st) /\
  (forall n st,
     high_voltage_ (snd (measure_input_current adc n st)) = high_voltage_ st).
Proof.
  split; [reflexivity|].
  split; [intros; reflexivity|].
  split; [intros; reflexivity|].
  split; [intros; rewrite analog_reads_simple_run; reflexivity|].
  split; [intros; rewrite u16_percentile_diff_state; reflexivity|].
  split; [intros; rewrite measure_temperature_state; reflexivity|].
  split; [intros; rewrite measure_aref_state; reflexivity|].
  split; [intros; rewrite read_max_run; reflexivity|].
  split; [intros; rewrite read_rms_run; reflexivity|].
  split; [intros; rewrite measure_output_current_run; reflexivity|].
  split; [intros; rewrite measure_output_current_rms_state; reflexivity|].
  intros; rewrite measure_input_current_state; reflexivity.
Qed.

(** ** The ADC reference *)

(** Claim C3 (amended). [measure_temperature] selects the internal reference
    for its 255 readings of pin 38 and selects the default reference before
    it returns, so the reference after the call is the one before it whenever
    that was the default. [measure_aref] never selects a reference: its 255
    readings of pin 39 are taken under the reference in force at the call,
    which is still in force afterwards. *)
Theorem reference_mode_scope st :
  trace (snd (measure_temperature adc st)) = reads 38 INTERNAL 255 ++ trace st /\
  aref (snd (measure_temperature adc st)) = DEFAULT /\
  (aref st = DEFAULT -> aref (snd (measure_temperature adc st)) = aref st) /\
  trace (snd (measure_aref adc st)) = reads 39 (aref st) 255 ++ trace st /\
  aref (snd (measure_aref adc st)) = aref st.
Proof.
  rewrite measure_temperature_state, measure_aref_state. cbn [trace aref after_reads].
  split; [reflexivity|]. split; [reflexivity|].
  split; [intros ->; reflexivity|]. split; reflexivity.
Qed.

(** ** Running RMS *)

(** Claim C5 (amended). With [n = 0], [read_rms] takes no sample, divides the
    zero sum by the zero count, which gives NaN, and converts the square root
    of NaN to [uint16_t], a conversion whose result is undefined. It reports
    no error and leaves the state unchanged. *)
Theorem read_rms_zero_count pin st :
  read_sum2 adc pin 0 st = (F32.zero, st) /\
  mean_square F32.zero 0 = S754_nan /\
  read_rms adc pin 0 st = (None, st).
Proof.
  assert (H : read_sum2 adc pin 0 st = (F32.zero, st)).
  { rewrite read_sum2_run. cbn. rewrite after_reads_0. reflexivity. }
  split; [exact H|]. split; [reflexivity|].
  unfold read_rms, bind. rewrite H. reflexivity.
Qed.

(** Claim C2 (amended). For [n >= 1], [read_rms] takes [n] samples,
    accumulates in binary32 the squares computed as [int], and returns the
    binary32 square root of [sum2 / n] converted to its return type
    [uint16_t], that is, truncated toward zero: a value returned is the
    integer part of that root as rounded to [float], and for the samples 3
    and 4 it is 3. *)
Theorem read_rms_truncated pin n st :
  1 <= n ->
  read_rms adc pin n st
  = (float_to_u16
       (F32.sqrt
          (F32.div
             (fold_left
                (fun sum2 v =>
                   F32.add sum2 (F32.of_Z (to_i32 (to_u16 v * to_u16 v))))
                (samples adc pin (length (trace st)) (Z.to_nat n)) F32.zero)
             (F32.of_Z n))),
     after_reads pin (Z.to_nat n) st) /\
  (forall r,
     fst (read_rms adc pin n st) = Some r ->
     0 <= r <= 65535 /\
     (IZR r
      <= SF2R (F32.sqrt (mean_square (fst (read_sum2 adc pin n st)) n))
      < IZR r + 1)%R) /\
  (samples adc pin (length (trace st)) (Z.to_nat n) = [3; 4] ->
   fst (read_rms adc pin n st) = Some 3).
Proof.
  intros Hn. rewrite read_rms_run, read_sum2_run. cbn [fst].
  split; [reflexivity|]. split.
  - intros r Hr. apply float_to_u16_floor; [exact Hr | apply SFsqrt_nonneg].
  - intros HS. rewrite HS.
    assert (n = 2).
    { apply (f_equal (@length Z)) in HS. rewrite samples_length in HS.
      cbn in HS. lia. }
    subst n. reflexivity.
Qed.

(** Claim C10 (amended). In [read_rms] each sample is squared as a 32-bit
    [int] before it is converted to [float] and added. A sample of at most
    46340 has a square within [int], and the bound is tight: every larger
    value has a square above [INT_MAX]. When all samples are at most 46340 the
    accumulated sum is the binary32 sum, in sample order, of the conversions
    of the exact squares; it is the conversion of the exact integer sum of
    squares whenever that sum is at most [2^24]. *)
Theorem read_rms_squares pin n st :
  (forall v, 0 <= v <= 46340 ->
     INT_MIN <= v * v <= INT_MAX /\ to_i32 (v * v) = v * v) /\
  (forall v, 46340 < v -> INT_MAX < v * v) /\
  (Forall (fun v => v <= 46340)
     (map to_u16 (samples adc pin (length (trace st)) (Z.to_nat n))) ->
   fst (read_sum2 adc pin n st)
   = fold_left (fun sum2 v => F32.add sum2 (F32.of_Z (v * v)))
       (map to_u16 (samples adc pin (length (trace st)) (Z.to_nat n)))
       F32.zero /\
   (sum_squares (map to_u16 (samples adc pin (length (trace st)) (Z.to_nat n)))
      <= 2 ^ 24 ->
    fst (read_sum2 adc pin n st)
    = F32.of_Z
        (sum_squares
           (map to_u16 (samples adc pin (length (trace st)) (Z.to_nat n)))))).
Proof.
  split; [|split].
  - intros v Hv. pose proof (square_fits v Hv). split; [assumption|].
    apply to_i32_small. assumption.
  - apply square_overflows.
  - intros Hall. rewrite read_sum2_run. cbn [fst].
    set (S := samples adc pin (length (trace st)) (Z.to_nat n)) in *.
    assert (Hfold :
      fold_left (fun sum2 v => F32.add sum2 (F32.of_Z (to_i32 (to_u16 v * to_u16 v))))
                S F32.zero
      = fold_left (fun sum2 v => F32.add sum2 (F32.of_Z (v * v)))
                  (map to_u16 S) F32.zero).
    { rewrite (fold_left_map
                 (fun sum2 v => F32.add sum2 (F32.of_Z (to_i32 (v * v)))) to_u16).
      apply fold_sum2_squares.
      pose proof (Forall_to_u16 S) as Hr.
      rewrite Forall_forall in *. intros v Hv.
      specialize (Hall v Hv). specialize (Hr v Hv). cbn in *. lia. }
    split; [exact Hfold|].
    intros Hsum. rewrite Hfold.
    apply (fold_sum2_exact (map to_u16 S) 0); lia.
Qed.

(** ** Percentile difference *)

(** Claim C1 (amended). For [3 <= n <= 65535] samples and the percentiles 25
    and 75, the indices computed are [round(0.75 n) = (3n + 2) / 4] and
    [round(0.25 n) = (n + 2) / 4], both within the sequence, and
    [u16_percentile_diff] returns the difference of the sorted samples at
    these two positions; for the samples 10, 20, 30, 40 it returns 20. *)
Theorem percentile_diff_quartiles pin n st :
  3 <= n <= 65535 ->
  percentile_index (F32.of_Z 75) n = Some ((3 * n + 2) / 4) /\
  percentile_index (F32.of_Z 25) n = Some ((n + 2) / 4) /\
  0 <= (n + 2) / 4 <= (3 * n + 2) / 4 /\ (3 * n + 2) / 4 < n /\
  fst (u16_percentile_diff adc pin n (F32.of_Z 25) (F32.of_Z 75) st)
  = Some (nth (Z.to_nat ((3 * n + 2) / 4))
              (sort (map to_u16 (samples adc pin (length (trace st)) (Z.to_nat n)))) 0
          - nth (Z.to_nat ((n + 2) / 4))
              (sort (map to_u16 (samples adc pin (length (trace st)) (Z.to_nat n)))) 0) /\
  (samples adc pin (length (trace st)) (Z.to_nat n) = [10; 20; 30; 40] ->
   fst (u16_percentile_diff adc pin n (F32.of_Z 25) (F32.of_Z 75) st) = Some 20).
Proof.
  intros Hn.
  set (hi := (3 * n + 2) / 4). set (lo := (n + 2) / 4).
  assert (Hlo0 : 0 <= lo) by (apply Z.div_pos; lia).
  assert (Hlohi : lo <= hi) by (apply Z.div_le_mono; lia).
  assert (Hhi : hi < n) by (apply Z.div_lt_upper_bound; lia).
  pose proof (percentile_index_75 n ltac:(lia)) as H75.
  pose proof (percentile_index_25 n ltac:(lia)) as H25.
  fold hi in H75. fold lo in H25.
  assert (Hres :
    fst (u16_percentile_diff adc pin n (F32.of_Z 25) (F32.of_Z 75) st)
    = Some (nth (Z.to_nat hi)
              (sort (map to_u16 (samples adc pin (length (trace st)) (Z.to_nat n)))) 0
            - nth (Z.to_nat lo)
              (sort (map to_u16 (samples adc pin (length (trace st)) (Z.to_nat n)))) 0)).
  { unfold u16_percentile_diff, bind. rewrite analog_reads_simple_run.
    cbn [fst ret]. rewrite H75, H25.
    set (S := sort (map to_u16 (samples adc pin (length (trace st)) (Z.to_nat n)))).
    assert (Hlen : length S = Z.to_nat n).
    { unfold S. rewrite sort_length, length_map, samples_length. reflexivity. }
    assert (Hrange : Forall (fun v => 0 <= v <= 65535) S).
    { apply sort_range, Forall_to_u16. }
    rewrite Forall_forall in Hrange.
    rewrite (nth_error_nth' S 0) by lia.
    rewrite (nth_error_nth' S 0) by lia.
    f_equal.
    assert (nth (Z.to_nat lo) S 0 <= nth (Z.to_nat hi) S 0).
    { apply sorted_nth; [apply sort_sorted | lia]. }
    assert (0 <= nth (Z.to_nat lo) S 0 <= 65535) by (apply Hrange, nth_In; lia).
    assert (0 <= nth (Z.to_nat hi) S 0 <= 65535) by (apply Hrange, nth_In; lia).
    unfold to_u16. apply Z.mod_small. lia. }
  split; [exact H75|]. split; [exact H25|].
  split; [lia|]. split; [exact Hhi|]. split; [exact Hres|].
  intros HS. rewrite Hres, HS.
  assert (n = 4).
  { apply (f_equal (@length Z)) in HS. rewrite samples_length in HS.
    cbn in HS. lia. }
  subst n. reflexivity.
Qed.

(** Claim C4. For a sequence of [1 <= n <= 65535] samples: when the
    percentiles satisfy [0 <= low <= high <= 100] and both computed indices
    lie in [[0, n-1]], both accesses to the sorted samples are in bounds and a
    value is returned; and for [high_percentile = 100] the computed index is
    [n], one past the last position, the access there is out of bounds and no
    value is defined (nothing validates or clamps the index). *)
Theorem percentile_index_in_bounds pin n lowp highp st high_i low_i :
  1 <= n <= 65535 ->
  (F32.leb F32.zero lowp = true -> F32.leb lowp highp = true ->
   F32.leb highp (F32.of_Z 100) = true ->
   percentile_index highp n = Some high_i ->
   percentile_index lowp n = Some low_i ->
   0 <= high_i <= n - 1 -> 0 <= low_i <= n - 1 ->
   exists hi lo,
     nth_error (sort (map to_u16 (samples adc pin (length (trace st)) (Z.to_nat n))))
               (Z.to_nat high_i) = Some hi /\
     nth_error (sort (map to_u16 (samples adc pin (length (trace st)) (Z.to_nat n))))
               (Z.to_nat low_i) = Some lo /\
     fst (u16_percentile_diff adc pin n lowp highp st) = Some (to_u16 (hi - lo))) /\
  percentile_index (F32.of_Z 100) n = Some n /\
  nth_error (sort (map to_u16 (samples adc pin (length (trace st)) (Z.to_nat n))))
            (Z.to_nat n) = None /\
  fst (u16_percentile_diff adc pin n lowp (F32.of_Z 100) st) = None.
Proof.
  intros Hn.
  set (S := sort (map to_u16 (samples adc pin (length (trace st)) (Z.to_nat n)))).
  assert (Hlen : length S = Z.to_nat n).
  { unfold S. rewrite sort_length, length_map, samples_length. reflexivity. }
  pose proof (percentile_index_100 n ltac:(lia)) as H100.
  assert (Hout : nth_error S (Z.to_nat n) = None).
  { apply nth_error_None. lia. }
  split; [|split; [exact H100|split; [exact Hout|]]].
  - intros _ _ _ Hhi Hlo Rhi Rlo.
    exists (nth (Z.to_nat high_i) S 0), (nth (Z.to_nat low_i) S 0).
    assert (E1 : nth_error S (Z.to_nat high_i) = Some (nth (Z.to_nat high_i) S 0))
      by (apply nth_error_nth'; lia).
    assert (E2 : nth_error S (Z.to_nat low_i) = Some (nth (Z.to_nat low_i) S 0))
      by (apply nth_error_nth'; lia).
    split; [exact E1|]. split; [exact E2|].
    unfold u16_percentile_diff, bind. rewrite analog_reads_simple_run.
    cbn [fst ret]. rewrite Hhi, Hlo. fold S. rewrite E1, E2. reflexivity.
  - unfold u16_percentile_diff, bind. rewrite analog_reads_simple_run.
    cbn [fst ret]. rewrite H100. fold S. rewrite Hout.
    destruct (percentile_index lowp n); reflexivity.
Qed.

(** ** Physical scaling *)

(** Claim C6. For a raw reading [R] of the HV feedback pin, in [[0, 65535]],
    [high_voltage] returns [0.5 * ((R / 65536) * 3.3) * (2e6 / 20e3)] (the
    float computed is finite and within a relative error of [2^-20] of the
    real value of the formula), stores the value returned in the cache
    [high_voltage_], and changes nothing else but the ADC trace; any number of
    reads of the cache afterwards return that value and leave the state
    unchanged. *)
Theorem high_voltage_cached st :
  0 <= adc (length (trace st)) A1 <= 65535 ->
  is_finite_SF (fst (high_voltage adc A1 st)) = true /\
  (Rabs (SF2R (fst (high_voltage adc A1 st))
         - / 2 * (IZR (adc (length (trace st)) A1) / 65536 * (33 / 10))
           * (2000000 / 20000))
   <= / 1048576
      * (/ 2 * (IZR (adc (length (trace st)) A1) / 65536 * (33 / 10))
         * (2000000 / 20000)))%R /\
  high_voltage_ (snd (high_voltage adc A1 st)) = fst (high_voltage adc A1 st) /\
  aref (snd (high_voltage adc A1 st)) = aref st /\
  trace (snd (high_voltage adc A1 st)) = (A1, aref st) :: trace st /\
  (forall k,
     for_loop k (fun _ => get_high_voltage_) (fst (high_voltage adc A1 st))
       (snd (high_voltage adc A1 st))
     = (fst (high_voltage adc A1 st), snd (high_voltage adc A1 st))).
Proof.
  intros HR. rewrite high_voltage_run. cbn zeta. cbn [fst snd high_voltage_ aref trace].
  set (R := adc (length (trace st)) A1) in *.
  set (v := F32.of_double _).
  split; [|split; [|split; [reflexivity|split; [reflexivity|split; [reflexivity|]]]]].
  - destruct (Z.eq_dec R 0) as [HR0|HR0].
    + unfold v. rewrite HR0. reflexivity.
    + eapply tracks_finite.
      apply (high_voltage_tracks _ _ (raw_to_voltage_tracks R ltac:(lia))).
      assert (1 <= IZR R)%R by (apply IZR_le; lia).
      assert (IZR R <= 65535)%R by (apply IZR_le; lia). lra.
  - destruct (Z.eq_dec R 0) as [HR0|HR0].
    + unfold v. rewrite HR0.
      change (SF2R _) with 0%R. rewrite Rabs_pos_eq; lra.
    + assert (1 <= IZR R)%R by (apply IZR_le; lia).
      assert (IZR R <= 65535)%R by (apply IZR_le; lia).
      replace (/ 2 * (IZR R / 65536 * (33 / 10)) * (2000000 / 20000))%R
        with (/ 2 * (IZR R / 65536 * (33 / 10) * 2000000 / 20000))%R by field.
      eapply tracks_close; [|apply Nat.le_refl].
      apply (high_voltage_tracks _ _ (raw_to_voltage_tracks R ltac:(lia))). lra.
  - intros k. induction k as [|k IH]; [reflexivity|].
    cbn [for_loop]. unfold bind at 1. cbn [get_high_voltage_ high_voltage_].
    exact IH.
Qed.

(** Claim C7. [measure_output_current] takes the running maximum [M] of [n]
    fresh samples of pin 2 and returns [(M / 65536 * 3.3) / (51e3 / 5.1e3)]:
    the intermediate voltage and the current returned are finite floats within
    a relative error of [2^-20] of the real values of the formulas. When the
    maximum is 32768 the voltage is 1.65 and the current 0.165, to that
    precision. *)
Theorem measure_output_current_peak n st :
  1 <= n ->
  fst (read_max adc 2 n st)
  = list_max (map to_u16 (samples adc 2 (length (trace st)) (Z.to_nat n))) /\
  snd (measure_output_current adc n st) = after_reads 2 (Z.to_nat n) st /\
  fst (measure_output_current adc n st)
  = output_current_of_voltage (raw_to_voltage (fst (read_max adc 2 n st))) /\
  is_finite_SF (fst (measure_output_current adc n st)) = true /\
  (Rabs (SF2R (raw_to_voltage (fst (read_max adc 2 n st)))
         - IZR (fst (read_max adc 2 n st)) / 65536 * (33 / 10))
   <= / 1048576 * (IZR (fst (read_max adc 2 n st)) / 65536 * (33 / 10)))%R /\
  (Rabs (SF2R (fst (measure_output_current adc n st))
         - IZR (fst (read_max adc 2 n st)) / 65536 * (33 / 10) / (51000 / 5100))
   <= / 1048576
      * (IZR (fst (read_max adc 2 n st)) / 65536 * (33 / 10) / (51000 / 5100)))%R /\
  (fst (read_max adc 2 n st) = 32768 ->
   (Rabs (SF2R (raw_to_voltage (fst (read_max adc 2 n st))) - 165 / 100)
    <= / 1048576 * (165 / 100))%R /\
   (Rabs (SF2R (fst (measure_output_current adc n st)) - 165 / 1000)
    <= / 1048576 * (165 / 1000))%R).
Proof.
  intros Hn. rewrite measure_output_current_run. cbn [fst snd].
  assert (HM : fst (read_max adc 2 n st)
               = list_max (map to_u16 (samples adc 2 (length (trace st)) (Z.to_nat n)))).
  { rewrite read_max_run. cbn [fst]. rewrite fold_max_list_max by lia.
    pose proof (list_max_nonneg
                  (map to_u16 (samples adc 2 (length (trace st)) (Z.to_nat n)))).
    lia. }
  assert (HMr : 0 <= fst (read_max adc 2 n st) <= 65535).
  { rewrite HM. split; [apply list_max_nonneg|].
    apply list_max_bound; [lia|].
    eapply Forall_impl; [|apply Forall_to_u16]. cbn. intros; lia. }
  set (M := fst (read_max adc 2 n st)) in *.
  assert (Hgen :
    is_finite_SF (output_current_of_voltage (raw_to_voltage M)) = true /\
    (Rabs (SF2R (raw_to_voltage M) - IZR M / 65536 * (33 / 10))
     <= / 1048576 * (IZR M / 65536 * (33 / 10)))%R /\
    (Rabs (SF2R (output_current_of_voltage (raw_to_voltage M))
           - IZR M / 65536 * (33 / 10) / (51000 / 5100))
     <= / 1048576 * (IZR M / 65536 * (33 / 10) / (51000 / 5100)))%R).
  { destruct (Z.eq_dec M 0) as [HM0|HM0].
    - rewrite HM0. split; [reflexivity|].
      change (SF2R (raw_to_voltage 0)) with 0%R.
      change (SF2R (output_current_of_voltage (raw_to_voltage 0))) with 0%R.
      split; rewrite Rabs_pos_eq; lra.
    - assert (1 <= IZR M)%R by (apply IZR_le; lia).
      assert (IZR M <= 65535)%R by (apply IZR_le; lia).
      pose proof (raw_to_voltage_tracks M ltac:(lia)) as Tv.
      assert (Tc : tracks32 (output_current_of_voltage (raw_to_voltage M)) 6
                     (IZR M / 65536 * (33 / 10) / 10)).
      { apply output_current_tracks; [exact Tv | lra]. }
      replace (51000 / 5100)%R with 10%R by field.
      split; [exact (tracks_finite _ _ _ _ _ Tc)|].
      split; eapply tracks_close; try eassumption; lia. }
  destruct Hgen as (G1 & G2 & G3).
  split; [exact HM|]. split; [reflexivity|]. split; [reflexivity|].
  split; [exact G1|]. split; [exact G2|]. split; [exact G3|].
  intros HM32. rewrite HM32 in G2, G3.
  replace (IZR 32768 / 65536 * (33 / 10))%R with (165 / 100)%R in G2 by field.
  replace (IZR 32768 / 65536 * (33 / 10) / (51000 / 5100))%R
    with (165 / 1000)%R in G3 by field.
  rewrite HM32. split; assumption.
Qed.

(** Claim C8. With readings in [[0, 65535]], [measure_aref] reads 255 samples
    of pin 39 and returns [1.195 * 65535 / mean], where [mean] is their
    arithmetic mean, that is [1.195 * 65535 * 255 / sum] (a finite float
    within a relative error of [2^-20] of the real value) when the sum is not
    zero; when it is zero the division by zero gives [+infinity]. *)
Theorem measure_aref_mean st :
  (forall i, 0 <= adc i 39 <= 65535) ->
  snd (measure_aref adc st) = after_reads 39 255 st /\
  fst (sum_255 adc 39 st) = sum_list (samples adc 39 (length (trace st)) 255) /\
  (0 < fst (sum_255 adc 39 st) ->
   is_finite_SF (fst (measure_aref adc st)) = true /\
   (Rabs (SF2R (fst (measure_aref adc st))
          - 1195 / 1000 * 65535 / (IZR (fst (sum_255 adc 39 st)) / 255))
    <= / 1048576
       * (1195 / 1000 * 65535 / (IZR (fst (sum_255 adc 39 st)) / 255)))%R /\
   (1195 / 1000 * 65535 / (IZR (fst (sum_255 adc 39 st)) / 255)
    = 1195 / 1000 * 65535 * 255 / IZR (fst (sum_255 adc 39 st)))%R) /\
  (fst (sum_255 adc 39 st) = 0 -> fst (measure_aref adc st) = S754_infinity false).
Proof.
  intros Hadc.
  pose proof (sum_255_exact adc 39 st (Hadc)) as [Hsum Hb].
  pose proof (measure_aref_value adc st) as Hval.
  split; [apply measure_aref_state|]. split; [exact Hsum|].
  rewrite Hval.
  split.
  - intros Hpos. apply aref_close. lia.
  - intros ->. reflexivity.
Qed.
End Claims.

(** * Witnesses and counterexamples *)

(** C3, witness: from the initial state. *)
Lemma reference_mode_scope_witness :
  aref init = DEFAULT /\
  aref (snd (measure_temperature (stream []) init)) = aref init.
Proof.
  split; [reflexivity|].
  exact (proj1 (proj2 (proj2 (reference_mode_scope (stream []) init))) eq_refl).
Defined.

(** C3, counterexample: the readings of [measure_aref] are taken under the
    default reference when that is the one in force. *)
Lemma measure_aref_reads_under_default :
  trace (snd (measure_aref (stream []) init)) = reads 39 DEFAULT 255 /\
  ~ Forall (fun ev => snd ev = INTERNAL)
      (trace (snd (measure_aref (stream []) init))).
Proof.
  rewrite measure_aref_state. split; [reflexivity|].
  intros H. inversion H as [|ev l Hev Hl]. discriminate Hev.
Qed.

(** C5, counterexample: with [n = 0] the division by zero is performed and
    the value returned is the undefined one. *)
Lemma read_rms_zero_divides :
  F32.of_Z 0 = S754_zero false /\
  mean_square (fst (read_sum2 (stream []) 0 0 init)) 0 = S754_nan /\
  read_rms (stream []) 0 0 init = (None, init).
Proof.
  split; [reflexivity|]. split; [reflexivity|]. reflexivity.
Qed.

(** C2, witness: the samples 3 and 4. *)
Lemma read_rms_truncated_witness :
  1 <= 2 /\ fst (read_rms (stream [3; 4]) 0 2 init) = Some 3.
Proof.
  split; [lia|].
  exact (proj2 (proj2 (read_rms_truncated (stream [3; 4]) 0 2 init ltac:(lia)))
           eq_refl).
Defined.

(** C2, counterexample: for the samples 3 and 4 the value returned is the
    integer 3, below the square root of 12.5 computed just before. *)
Lemma read_rms_3_4_returns_3 :
  fst (read_rms (stream [3; 4]) 0 2 init) = Some 3 /\
  F32.sqrt (mean_square (fst (read_sum2 (stream [3; 4]) 0 2 init)) 2)
  = S754_finite false 14829104 (-22) /\
  (IZR 3 < SF2R (S754_finite false 14829104 (-22)))%R.
Proof.
  split; [reflexivity|]. split; [reflexivity|].
  cbn [SF2R cond_Zopp]. bpow_eval. lra.
Qed.

(** C10, witness: the samples 3 and 4. *)
Lemma read_rms_squares_witness :
  (0 <= 3 <= 46340 /\ to_i32 (3 * 3) = 3 * 3) /\
  (46340 < 46341 /\ INT_MAX < 46341 * 46341) /\
  fst (read_sum2 (stream [3; 4]) 0 2 init) = F32.of_Z 25.
Proof.
  pose proof (read_rms_squares (stream [3; 4]) 0 2 init) as (H1 & H2 & H3).
  split; [|split].
  - split; [lia|]. apply (H1 3). lia.
  - split; [lia|]. apply (H2 46341). lia.
  - apply H3.
    + apply Forall_forall. intros v Hv. vm_compute in Hv.
      destruct Hv as [<-|[<-|[]]]; lia.
    + vm_compute. intros H. discriminate H.
Defined.

(** C10, counterexample: the samples 4096, 1, 1 are all at most 46340, yet
    the accumulated sum stays at [2^24] while the exact sum of squares,
    [2^24 + 2], is itself a float. *)
Lemma read_sum2_not_exact :
  Forall (fun v => v <= 46340) (map to_u16 [4096; 1; 1]) /\
  fst (read_sum2 (stream [4096; 1; 1]) 0 3 init) = S754_finite false 8388608 1 /\
  F32.of_Z (sum_squares (map to_u16 [4096; 1; 1])) = S754_finite false 8388609 1 /\
  fst (read_sum2 (stream [4096; 1; 1]) 0 3 init)
  <> F32.of_Z (sum_squares (map to_u16 [4096; 1; 1])).
Proof.
  split.
  { apply Forall_forall. intros v Hv. vm_compute in Hv.
    destruct Hv as [<-|[<-|[<-|[]]]]; lia. }
  split; [reflexivity|]. split; [reflexivity|].
  intros H. vm_compute in H. discriminate H.
Qed.

(** C1, witness: the samples 10, 20, 30, 40. *)
Lemma percentile_diff_quartiles_witness :
  3 <= 4 <= 65535 /\
  fst (u16_percentile_diff (stream [10; 20; 30; 40]) 0 4
         (F32.of_Z 25) (F32.of_Z 75) init) = Some 20.
Proof.
  split; [lia|].
  apply (percentile_diff_quartiles (stream [10; 20; 30; 40]) 0 4 init); [lia|].
  reflexivity.
Defined.

(** C1, counterexample: with a single sample the index computed for the 75th
    percentile is 1, past the end of the sequence, and no value is defined. *)
Lemma percentile_diff_one_sample :
  percentile_index (F32.of_Z 75) 1 = Some 1 /\
  nth_error (sort (map to_u16 (samples (stream [10]) 0 0 1))) 1 = None /\
  fst (u16_percentile_diff (stream [10]) 0 1 (F32.of_Z 25) (F32.of_Z 75) init)
  = None.
Proof. split; [reflexivity|]. split; reflexivity. Qed.

(** C4, witness: four samples and the percentiles 25 and 75. *)
Lemma percentile_index_in_bounds_witness :
  1 <= 4 <= 65535 /\
  (exists hi lo,
     nth_error (sort (map to_u16 (samples (stream [10; 20; 30; 40]) 0 0 4))) 3
     = Some hi /\
     nth_error (sort (map to_u16 (samples (stream [10; 20; 30; 40]) 0 0 4))) 1
     = Some lo /\
     fst (u16_percentile_diff (stream [10; 20; 30; 40]) 0 4
            (F32.of_Z 25) (F32.of_Z 75) init) = Some (to_u16 (hi - lo))) /\
  percentile_index (F32.of_Z 100) 4 = Some 4.
Proof.
  split; [lia|].
  destruct (percentile_index_in_bounds (stream [10; 20; 30; 40]) 0 4
              (F32.of_Z 25) (F32.of_Z 75) init 3 1 ltac:(lia))
    as (H1 & H2 & _).
  split; [|exact H2].
  apply H1; try reflexivity; lia.
Defined.

(** C6, witness: a mid-scale reading on pin 15. *)
Lemma high_voltage_cached_witness :
  0 <= stream [32768] 0%nat 15 <= 65535 /\
  high_voltage_ (snd (high_voltage (stream [32768]) 15 init))
  = fst (high_voltage (stream [32768]) 15 init).
Proof.
  split; [cbn; lia|].
  apply (high_voltage_cached (stream [32768]) 15 init). cbn. lia.
Defined.

(** C7, witness: a single sample, 32768. *)
Lemma measure_output_current_peak_witness :
  1 <= 1 /\ fst (read_max (stream [32768]) 2 1 init) = 32768 /\
  (Rabs (SF2R (fst (measure_output_current (stream [32768%Z]) 1%Z init))
         - 165 / 1000)
   <= / 1048576 * (165 / 1000))%R.
Proof.
  split; [lia|]. split; [reflexivity|].
  apply (measure_output_current_peak (stream [32768]) 1 init); [lia | reflexivity].
Defined.

(** C8, witness: a converter that always reads 32768. *)
Lemma measure_aref_mean_witness :
  (forall i : nat, 0 <= (fun (_ : nat) (_ : Z) => 32768) i 39 <= 65535) /\
  snd (measure_aref (fun _ _ => 32768) init) = after_reads 39 255 init.
Proof.
  split; [intros; lia|].
  apply (measure_aref_mean (fun _ _ => 32768) init). intros; lia.
Defined.

(** * Further properties of the sampling routines *)

(** X1. [analog_reads_simple] returns exactly [n_samples] values: the
    successive conversions of the pin in acquisition order, each narrowed to
    16 bits. It performs exactly [n_samples] conversions and changes nothing
    else; for [n_samples = 0] the result is empty and the state untouched. *)
Theorem analog_reads_simple_samples adc pin n st :
  length (fst (analog_reads_simple adc pin n st)) = Z.to_nat n /\
  Forall (fun v => 0 <= v <= 65535) (fst (analog_reads_simple adc pin n st)) /\
  (forall i, (i < Z.to_nat n)%nat ->
     nth i (fst (analog_reads_simple adc pin n st)) 0
     = to_u16 (adc (length (trace st) + i)%nat pin)) /\
  snd (analog_reads_simple adc pin n st) = after_reads pin (Z.to_nat n) st /\
  (n <= 0 -> analog_reads_simple adc pin n st = ([], st)).
Proof.
  rewrite analog_reads_simple_run. cbn [fst snd].
  split; [|split; [|split; [|split]]].
  - rewrite length_map. apply samples_length.
  - apply Forall_to_u16.
  - intros i Hi. unfold samples. rewrite map_map.
    rewrite (nth_indep _ 0 (to_u16 (adc (length (trace st) + 0)%nat pin)))
      by (rewrite length_map, length_seq; exact Hi).
    rewrite (map_nth (fun i => to_u16 (adc (length (trace st) + i)%nat pin))).
    rewrite seq_nth by exact Hi. reflexivity.
  - reflexivity.
  - intros Hn. replace (Z.to_nat n) with 0%nat by lia.
    rewrite after_reads_0. reflexivity.
Qed.

Lemma analog_reads_simple_samples_witness :
  analog_reads_simple (stream [7; 8]) 5 0 init = ([], init) /\
  nth 1 (fst (analog_reads_simple (stream [7; 65536 + 8]) 5 2 init)) 0 = 8.
Proof.
  split.
  - apply (analog_reads_simple_samples (stream [7; 8]) 5 0 init). lia.
  - rewrite (proj1 (proj2 (proj2
      (analog_reads_simple_samples (stream [7; 65536 + 8]) 5 2 init))) 1%nat)
      by (cbn; lia).
    reflexivity.
Defined.

(** X2. [read_max] returns a 16-bit value that no sample exceeds, and for
    [n >= 1] it is one of the samples; for [n = 0] it returns 0 without any
    conversion. *)
Theorem read_max_is_maximum adc pin n st :
  0 <= fst (read_max adc pin n st) <= 65535 /\
  Forall (fun v => v <= fst (read_max adc pin n st))
    (map to_u16 (samples adc pin (length (trace st)) (Z.to_nat n))) /\
  (1 <= n ->
   In (fst (read_max adc pin n st))
      (map to_u16 (samples adc pin (length (trace st)) (Z.to_nat n)))) /\
  (n <= 0 -> read_max adc pin n st = (0, st)).
Proof.
  rewrite read_max_run. cbn [fst snd].
  rewrite fold_max_list_max by lia.
  set (S := map to_u16 (samples adc pin (length (trace st)) (Z.to_nat n))).
  pose proof (list_max_nonneg S) as H0.
  rewrite Z.max_r by exact H0.
  split; [|split; [|split]].
  - split; [exact H0|]. apply list_max_bound; [lia|].
    eapply Forall_impl; [|apply Forall_to_u16]. cbn. intros; lia.
  - apply list_max_upper.
  - intros Hn. apply list_max_In.
    + intros HS. apply (f_equal (@length Z)) in HS. unfold S in HS.
      rewrite length_map, samples_length in HS. cbn in HS. lia.
    + eapply Forall_impl; [|apply Forall_to_u16]. cbn. intros; lia.
  - intros Hn. subst S. replace (Z.to_nat n) with 0%nat by lia.
    rewrite after_reads_0. reflexivity.
Qed.

Lemma read_max_is_maximum_witness :
  In (fst (read_max (stream [3; 9; 4]) 0 3 init))
     (map to_u16 (samples (stream [3; 9; 4]) 0 (length (trace init)) (Z.to_nat 3))) /\
  read_max (stream [3; 9; 4]) 0 0 init = (0, init).
Proof.
  split.
  - apply (read_max_is_maximum (stream [3; 9; 4]) 0 3 init). lia.
  - apply (read_max_is_maximum (stream [3; 9; 4]) 0 0 init). lia.
Defined.

(** X3. [read_max] composes: the maximum over [n + m] conversions is the
    larger of the maximum over the first [n] and the maximum over the [m]
    conversions that follow, and the final states agree. *)
Theorem read_max_split adc pin n m st :
  0 <= n -> 0 <= m ->
  read_max adc pin (n + m) st
  = (Z.max (fst (read_max adc pin n st))
           (fst (read_max adc pin m (snd (read_max adc pin n st)))),
     snd (read_max adc pin m (snd (read_max adc pin n st)))).
Proof.
  intros Hn Hm. rewrite !read_max_run. cbn [fst snd].
  rewrite after_reads_trace_length, after_reads_add.
  rewrite !fold_max_list_max by lia.
  rewrite Z2Nat.inj_add by lia.
  rewrite samples_app, map_app, list_max_app.
  f_equal. pose proof (list_max_nonneg
    (map to_u16 (samples adc pin (length (trace st)) (Z.to_nat n)))).
  pose proof (list_max_nonneg
    (map to_u16 (samples adc pin (length (trace st) + Z.to_nat n) (Z.to_nat m)))).
  lia.
Qed.

Lemma read_max_split_witness :
  read_max (stream [3; 9; 4; 1]) 0 (1 + 3) init
  = (Z.max (fst (read_max (stream [3; 9; 4; 1]) 0 1 init))
           (fst (read_max (stream [3; 9; 4; 1]) 0 3
                   (snd (read_max (stream [3; 9; 4; 1]) 0 1 init)))),
     snd (read_max (stream [3; 9; 4; 1]) 0 3
            (snd (read_max (stream [3; 9; 4; 1]) 0 1 init)))).
Proof.
  apply (read_max_split (stream [3; 9; 4; 1]) 0 1 3 init); lia.
Defined.

(** X4. The result of [u16_percentile_diff] depends on the multiset of the
    samples only: two runs whose 16-bit samples are permutations of each
    other return the same value, whatever the percentiles. *)
Theorem percentile_diff_permutation adc adc' pin pin' n lowp highp st st' :
  Permutation (map to_u16 (samples adc pin (length (trace st)) (Z.to_nat n)))
              (map to_u16 (samples adc' pin' (length (trace st')) (Z.to_nat n))) ->
  fst (u16_percentile_diff adc pin n lowp highp st)
  = fst (u16_percentile_diff adc' pin' n lowp highp st').
Proof.
  intros Hp. unfold u16_percentile_diff, bind.
  rewrite !analog_reads_simple_run. cbn [fst ret].
  rewrite (sort_permutation _ _ Hp). reflexivity.
Qed.

Lemma percentile_diff_permutation_witness :
  fst (u16_percentile_diff (stream [10; 20; 30; 40]) 0 4
         (F32.of_Z 25) (F32.of_Z 75) init)
  = fst (u16_percentile_diff (stream [40; 10; 30; 20]) 1 4
         (F32.of_Z 25) (F32.of_Z 75) init).
Proof.
  apply (percentile_diff_permutation (stream [10; 20; 30; 40])
           (stream [40; 10; 30; 20]) 0 1 4 (F32.of_Z 25) (F32.of_Z 75) init init).
  change (Permutation [10; 20; 30; 40] [40; 10; 30; 20]).
  apply (perm_trans (l' := [10; 40; 30; 20])); [|apply perm_swap].
  apply perm_skip.
  apply (perm_trans (l' := [40; 20; 30])); [|apply perm_skip, perm_swap].
  apply (perm_trans (l' := [20; 40; 30])); [|apply perm_swap].
  apply perm_skip, perm_swap.
Defined.

(** X5. When both indices are inside the sample vector and the low index
    does not exceed the high one, [u16_percentile_diff] returns the exact
    difference of the two order statistics: it is non-negative and at most
    the spread (largest minus smallest sample). *)
Theorem percentile_diff_ordered adc pin n lowp highp st low_i high_i :
  percentile_index lowp n = Some low_i ->
  percentile_index highp n = Some high_i ->
  0 <= low_i <= high_i -> high_i < n ->
  fst (u16_percentile_diff adc pin n lowp highp st)
  = Some (nth (Z.to_nat high_i)
            (sort (map to_u16 (samples adc pin (length (trace st)) (Z.to_nat n)))) 0
          - nth (Z.to_nat low_i)
            (sort (map to_u16 (samples adc pin (length (trace st)) (Z.to_nat n)))) 0) /\
  0 <= nth (Z.to_nat high_i)
         (sort (map to_u16 (samples adc pin (length (trace st)) (Z.to_nat n)))) 0
       - nth (Z.to_nat low_i)
         (sort (map to_u16 (samples adc pin (length (trace st)) (Z.to_nat n)))) 0
    <= list_max (map to_u16 (samples adc pin (length (trace st)) (Z.to_nat n)))
       - list_min (map to_u16 (samples adc pin (length (trace st)) (Z.to_nat n))).
Proof.
  intros Hlo Hhi Hord Hn.
  unfold u16_percentile_diff, bind. rewrite analog_reads_simple_run.
  cbn [fst ret]. rewrite Hhi, Hlo.
  set (L := map to_u16 (samples adc pin (length (trace st)) (Z.to_nat n))).
  assert (Hlen : length (sort L) = Z.to_nat n).
  { rewrite sort_length. unfold L. rewrite length_map. apply samples_length. }
  assert (Hh : (Z.to_nat high_i < length (sort L))%nat) by lia.
  assert (Hl : (Z.to_nat low_i < length (sort L))%nat) by lia.
  rewrite (nth_error_nth' _ 0 Hh), (nth_error_nth' _ 0 Hl).
  assert (Hmono : nth (Z.to_nat low_i) (sort L) 0 <= nth (Z.to_nat high_i) (sort L) 0).
  { apply sorted_nth; [apply sort_sorted | lia]. }
  assert (Hin : forall i, (i < length (sort L))%nat ->
            list_min L <= nth i (sort L) 0 <= list_max L).
  { intros i Hi.
    assert (HinL : In (nth i (sort L) 0) L).
    { apply (Permutation_in _ (Permutation_sym (sort_perm L))), nth_In, Hi. }
    pose proof (list_max_upper L) as Hu. pose proof (list_min_lower L) as Hd.
    rewrite Forall_forall in Hu, Hd. split; [apply Hd | apply Hu]; exact HinL. }
  pose proof (Hin _ Hh) as Bh. pose proof (Hin _ Hl) as Bl.
  assert (Hr : Forall (fun v => 0 <= v <= 65535) (sort L))
    by (apply sort_range, Forall_to_u16).
  rewrite Forall_forall in Hr.
  pose proof (Hr _ (nth_In _ 0 Hh)) as Rh. pose proof (Hr _ (nth_In _ 0 Hl)) as Rl.
  split; [|lia].
  f_equal. unfold to_u16. apply Z.mod_small. lia.
Qed.

Lemma percentile_diff_ordered_witness :
  fst (u16_percentile_diff (stream [40; 10; 30; 20]) 0 4
         (F32.of_Z 25) (F32.of_Z 75) init)
  = Some (nth (Z.to_nat 3) (sort (map to_u16
            (samples (stream [40; 10; 30; 20]) 0 (length (trace init)) (Z.to_nat 4)))) 0
          - nth (Z.to_nat 1) (sort (map to_u16
            (samples (stream [40; 10; 30; 20]) 0 (length (trace init)) (Z.to_nat 4)))) 0).
Proof.
  apply (percentile_diff_ordered (stream [40; 10; 30; 20]) 0 4
           (F32.of_Z 25) (F32.of_Z 75) init 1 3);
    [vm_compute; reflexivity | vm_compute; reflexivity | lia | lia].
Defined.

(** X6. When both indices are inside the sample vector but the low index
    exceeds the high one (percentiles passed in the wrong order), the
    subtraction is narrowed to [uint16_t]: the result is 0 if the two order
    statistics are equal and otherwise 65536 minus their distance. *)
Theorem percentile_diff_swapped adc pin n lowp highp st low_i high_i :
  percentile_index lowp n = Some low_i ->
  percentile_index highp n = Some high_i ->
  0 <= high_i < low_i -> low_i < n ->
  nth (Z.to_nat high_i)
    (sort (map to_u16 (samples adc pin (length (trace st)) (Z.to_nat n)))) 0
  <= nth (Z.to_nat low_i)
    (sort (map to_u16 (samples adc pin (length (trace st)) (Z.to_nat n)))) 0 /\
  fst (u16_percentile_diff adc pin n lowp highp st)
  = Some (if nth (Z.to_nat high_i)
               (sort (map to_u16 (samples adc pin (length (trace st)) (Z.to_nat n)))) 0
             =? nth (Z.to_nat low_i)
               (sort (map to_u16 (samples adc pin (length (trace st)) (Z.to_nat n)))) 0
          then 0
          else 65536
               - (nth (Z.to_nat low_i)
                    (sort (map to_u16 (samples adc pin (length (trace st)) (Z.to_nat n)))) 0
                  - nth (Z.to_nat high_i)
                    (sort (map to_u16 (samples adc pin (length (trace st)) (Z.to_nat n)))) 0)).
Proof.
  intros Hlo Hhi Hord Hn.
  unfold u16_percentile_diff, bind. rewrite analog_reads_simple_run.
  cbn [fst ret]. rewrite Hhi, Hlo.
  set (L := map to_u16 (samples adc pin (length (trace st)) (Z.to_nat n))).
  assert (Hlen : length (sort L) = Z.to_nat n).
  { rewrite sort_length. unfold L. rewrite length_map. apply samples_length. }
  assert (Hh : (Z.to_nat high_i < length (sort L))%nat) by lia.
  assert (Hl : (Z.to_nat low_i < length (sort L))%nat) by lia.
  rewrite (nth_error_nth' _ 0 Hh), (nth_error_nth' _ 0 Hl).
  assert (Hmono : nth (Z.to_nat high_i) (sort L) 0 <= nth (Z.to_nat low_i) (sort L) 0).
  { apply sorted_nth; [apply sort_sorted | lia]. }
  assert (Hr : Forall (fun v => 0 <= v <= 65535) (sort L))
    by (apply sort_range, Forall_to_u16).
  rewrite Forall_forall in Hr.
  pose proof (Hr _ (nth_In _ 0 Hh)) as Rh. pose proof (Hr _ (nth_In _ 0 Hl)) as Rl.
  split; [exact Hmono|]. f_equal.
  set (hi := nth (Z.to_nat high_i) (sort L) 0) in *.
  set (lo := nth (Z.to_nat low_i) (sort L) 0) in *.
  unfold to_u16. destruct (Z.eqb_spec hi lo) as [->|Hne].
  - rewrite Z.sub_diag. reflexivity.
  - change (2 ^ 16) with 65536.
    replace (hi - lo) with (65536 - (lo - hi) + (-1) * 65536) by ring.
    rewrite Z.mod_add by lia. apply Z.mod_small. lia.
Qed.

Lemma percentile_diff_swapped_witness :
  fst (u16_percentile_diff (stream [40; 10; 30; 20]) 0 4
         (F32.of_Z 75) (F32.of_Z 25) init)
  = Some 65516.
Proof.
  exact (proj2 (percentile_diff_swapped (stream [40; 10; 30; 20]) 0 4
           (F32.of_Z 75) (F32.of_Z 25) init 3 1
           eq_refl eq_refl ltac:(lia) ltac:(lia))).
Defined.

(** X7. With [n_samples = 0] the sample vector is empty, so whatever the
    percentiles are both element accesses fall outside it:
    [u16_percentile_diff] has no defined result, and it performs no
    conversion. *)
Theorem percentile_diff_no_samples adc pin lowp highp st :
  u16_percentile_diff adc pin 0 lowp highp st = (None, st).
Proof.
  unfold u16_percentile_diff, bind. rewrite analog_reads_simple_run.
  cbn [Z.to_nat samples seq map sort fst snd ret].
  rewrite after_reads_0.
  destruct (percentile_index highp 0) as [hi|]; [|reflexivity].
  destruct (percentile_index lowp 0) as [lo|]; [|reflexivity].
  rewrite nth_error_nil_None. reflexivity.
Qed.

(** X8. Every sampling routine other than [measure_temperature] leaves the
    analog reference and the cached high voltage as they were and only
    appends its conversions to the history: [n] conversions of the given pin
    for [analog_reads_simple], [u16_percentile_diff], [read_max] and
    [read_rms] (also when their result is undefined), [n] conversions of
    pin 2 for the two output-current routines, of pin 3 for
    [measure_input_current], and 255 conversions of pin 39 for
    [measure_aref], all under the reference in force at the call. *)
Theorem sampling_effect adc pin n lowp highp st :
  snd (analog_reads_simple adc pin n st) = after_reads pin (Z.to_nat n) st /\
  snd (u16_percentile_diff adc pin n lowp highp st) = after_reads pin (Z.to_nat n) st /\
  snd (read_max adc pin n st) = after_reads pin (Z.to_nat n) st /\
  snd (read_rms adc pin n st) = after_reads pin (Z.to_nat n) st /\
  snd (measure_output_current adc n st) = after_reads 2 (Z.to_nat n) st /\
  snd (measure_output_current_rms adc n st) = after_reads 2 (Z.to_nat n) st /\
  snd (measure_input_current adc n st) = after_reads 3 (Z.to_nat n) st /\
  snd (measure_aref adc st) = after_reads 39 255 st /\
  aref (after_reads pin (Z.to_nat n) st) = aref st /\
  high_voltage_ (after_reads pin (Z.to_nat n) st) = high_voltage_ st /\
  trace (after_reads pin (Z.to_nat n) st)
  = repeat (pin, aref st) (Z.to_nat n) ++ trace st.
Proof.
  rewrite analog_reads_simple_run, u16_percentile_diff_state, read_max_run,
    read_rms_run, measure_output_current_run, measure_output_current_rms_state,
    measure_input_current_state, measure_aref_state.
  cbn [snd]. repeat (split; [reflexivity|]). reflexivity.
Qed.

(** * Further properties of the scaling routines and benchmarks *)

Lemma F32_of_Z_count z :
  0 <= z <= 255 * 65535 ->
  is_finite_SF (F32.of_Z z) = true /\ SF2R (F32.of_Z z) = IZR z.
Proof.
  intros Hz. destruct (Z.eq_dec z 0) as [->|Hz0].
  - split; reflexivity.
  - destruct (F32_of_Z_value z) as (_ & F & E); [|auto].
    change (2 ^ 24) with 16777216. lia.
Qed.

(** X9. In the 255-sample loop shared by [measure_temperature] and
    [measure_aref] nothing is lost: for 16-bit readings the [uint32_t]
    accumulator never wraps, it holds the exact sum, which stays below
    [2 ^ 24], and the conversion [(float)sum] is therefore exact. *)
Theorem sum_255_float_exact adc pin st :
  (forall i, 0 <= adc i pin <= 65535) ->
  fst (sum_255 adc pin st) = sum_list (samples adc pin (length (trace st)) 255) /\
  0 <= fst (sum_255 adc pin st) < 2 ^ 24 /\
  is_finite_SF (F32.of_Z (fst (sum_255 adc pin st))) = true /\
  SF2R (F32.of_Z (fst (sum_255 adc pin st)))
  = IZR (sum_list (samples adc pin (length (trace st)) 255)).
Proof.
  intros Hadc. destruct (sum_255_exact adc pin st Hadc) as [E B].
  rewrite <- E.
  destruct (F32_of_Z_count _ B) as [F V].
  split; [reflexivity|]. split; [|split; assumption].
  change (2 ^ 24) with 16777216. lia.
Qed.

Lemma sum_255_float_exact_witness :
  fst (sum_255 (fun _ _ => 65535) 39 init) = 16711425.
Proof.
  rewrite (proj1 (sum_255_float_exact (fun _ _ => 65535) 39 init
                    ltac:(intros i; lia))).
  reflexivity.
Defined.

(** X10. [measure_input_current] returns, for every [n], a finite value
    within a relative error of [2 ^ -20] of
    [(M / 65536 * 3.3) / 0.03], where [M] is the largest of the [n] 16-bit
    samples taken on pin 3 (0 when [n = 0]). *)
Theorem measure_input_current_value adc n st :
  fst (read_max adc 3 n st)
  = list_max (map to_u16 (samples adc 3 (length (trace st)) (Z.to_nat n))) /\
  is_finite_SF (fst (measure_input_current adc n st)) = true /\
  (Rabs (SF2R (fst (measure_input_current adc n st))
         - IZR (list_max (map to_u16 (samples adc 3 (length (trace st)) (Z.to_nat n))))
           / 65536 * (33 / 10) / (3 / 100))
   <= / 1048576
      * (IZR (list_max (map to_u16 (samples adc 3 (length (trace st)) (Z.to_nat n))))
         / 65536 * (33 / 10) / (3 / 100)))%R.
Proof.
  assert (HM : fst (read_max adc 3 n st)
               = list_max (map to_u16 (samples adc 3 (length (trace st)) (Z.to_nat n)))).
  { rewrite read_max_run. cbn [fst]. rewrite fold_max_list_max by lia.
    pose proof (list_max_nonneg
                  (map to_u16 (samples adc 3 (length (trace st)) (Z.to_nat n)))).
    lia. }
  split; [exact HM|].
  unfold measure_input_current, bind.
  destruct (read_max adc 3 n st) as [M st'] eqn:E. cbn [fst snd ret] in *.
  rewrite <- HM.
  assert (HMr : 0 <= M <= 65535).
  { rewrite HM. split; [apply list_max_nonneg|].
    apply list_max_bound; [lia|].
    eapply Forall_impl; [|apply Forall_to_u16]. cbn. intros; lia. }
  exact (proj2 (scaled_reading_close M HMr)).
Qed.

(** X11. [measure_output_current_rms] has no defined result exactly when
    [read_rms] on pin 2 has none; otherwise, for the 16-bit value [r] that
    [read_rms] returns, the result is finite and within a relative error of
    [2 ^ -20] of [(r / 65536 * 3.3) / (51e3 / 5.1e3)]. *)
Theorem measure_output_current_rms_value adc n st :
  (fst (read_rms adc 2 n st) = None ->
   fst (measure_output_current_rms adc n st) = None) /\
  (forall r, fst (read_rms adc 2 n st) = Some r ->
     0 <= r <= 65535 /\
     exists v, fst (measure_output_current_rms adc n st) = Some v /\
       is_finite_SF v = true /\
       (Rabs (SF2R v - IZR r / 65536 * (33 / 10) / (51000 / 5100))
        <= / 1048576 * (IZR r / 65536 * (33 / 10) / (51000 / 5100)))%R).
Proof.
  unfold measure_output_current_rms, bind.
  pose proof (read_rms_run adc 2 n st) as Hrun.
  destruct (read_rms adc 2 n st) as [raw st'].
  injection Hrun as Hraw _. cbn [fst ret]. split.
  - intros ->. reflexivity.
  - intros r ->. symmetry in Hraw.
    assert (Hr : 0 <= r <= 65535).
    { unfold float_to_u16 in Hraw.
      destruct (SFtrunc _) as [z|]; [|discriminate Hraw].
      destruct ((0 <=? z) && (z <=? 65535)) eqn:Hb; [|discriminate Hraw].
      injection Hraw as <-. apply andb_prop in Hb. destruct Hb as [H0 H1].
      apply Z.leb_le in H0, H1. lia. }
    split; [exact Hr|].
    exists (output_current_of_voltage (raw_to_voltage r)).
    split; [reflexivity|]. exact (proj1 (scaled_reading_close r Hr)).
Qed.

Lemma measure_output_current_rms_value_witness :
  fst (measure_output_current_rms (stream []) 0 init) = None /\
  0 <= 3 <= 65535.
Proof.
  split.
  - exact (proj1 (measure_output_current_rms_value (stream []) 0 init) eq_refl).
  - exact (proj1 (proj2 (measure_output_current_rms_value (stream [3; 4]) 2 init)
                    3 eq_refl)).
Defined.

(** X12. [benchmark_analog_read] performs exactly [n_samples] conversions of
    the pin and returns a finite number of seconds within a relative error of
    [2 ^ -20] of the microsecond difference [end - start], taken modulo
    [2 ^ 32], divided by a million; a counter that wrapped around once
    between the two readings still gives the true elapsed time. *)
Theorem benchmark_analog_read_elapsed adc start stop pin n st :
  snd (benchmark_analog_read adc start stop pin n st)
  = after_reads pin (Z.to_nat n) st /\
  is_finite_SF (fst (benchmark_analog_read adc start stop pin n st)) = true /\
  (Rabs (SF2R (fst (benchmark_analog_read adc start stop pin n st))
         - IZR ((stop - start) mod 2 ^ 32) / 1000000)
   <= / 1048576 * (IZR ((stop - start) mod 2 ^ 32) / 1000000))%R /\
  (0 <= stop < start -> start < 2 ^ 32 ->
   (stop - start) mod 2 ^ 32 = stop + 2 ^ 32 - start).
Proof.
  pose proof (for_loop_analogRead adc (fun _ v => to_u16 v) pin (Z.to_nat n) 0 st)
    as Hloop.
  unfold benchmark_analog_read. unfold bind in *. rewrite Hloop.
  cbn [fst snd ret].
  split; [reflexivity|]. split; [|split].
  - exact (proj1 (elapsed_seconds_close start stop)).
  - exact (proj2 (elapsed_seconds_close start stop)).
  - intros H1 H2.
    replace (stop - start) with (stop + 2 ^ 32 - start + (-1) * 2 ^ 32) by ring.
    rewrite Z.mod_add by lia. apply Z.mod_small. lia.
Qed.

Lemma benchmark_analog_read_elapsed_witness :
  (5 - 4294967290) mod 2 ^ 32 = 5 + 2 ^ 32 - 4294967290.
Proof.
  apply (benchmark_analog_read_elapsed (stream []) 4294967290 5 0 0 init); lia.
Defined.

(** X13. [benchmmark_u16_percentile_diff] performs
    [n_repeats * n_samples] conversions of the pin. Its result is the elapsed
    time when [n_repeats = 0] or when a single [u16_percentile_diff] with the
    same arguments is defined, and it is undefined as soon as one repetition
    is made of a call that is undefined. *)
Theorem benchmark_percentile_diff_elapsed adc start stop pin n lowp highp reps st :
  snd (benchmmark_u16_percentile_diff adc start stop pin n lowp highp reps st)
  = after_reads pin (Z.to_nat reps * Z.to_nat n) st /\
  (reps <= 0 ->
   fst (benchmmark_u16_percentile_diff adc start stop pin n lowp highp reps st)
   = Some (elapsed_seconds start stop)) /\
  (fst (u16_percentile_diff adc pin n lowp highp st) <> None ->
   fst (benchmmark_u16_percentile_diff adc start stop pin n lowp highp reps st)
   = Some (elapsed_seconds start stop)) /\
  (1 <= reps -> fst (u16_percentile_diff adc pin n lowp highp st) = None ->
   fst (benchmmark_u16_percentile_diff adc start stop pin n lowp highp reps st)
   = None).
Proof.
  pose proof (percentile_loop adc pin n lowp highp (Z.to_nat reps) true st) as Hloop.
  unfold benchmmark_u16_percentile_diff. unfold bind in *. rewrite Hloop.
  cbn [fst snd ret].
  pose proof (percentile_diff_defined adc pin n lowp highp st) as Hd.
  split; [reflexivity|]. split; [|split].
  - intros Hr. replace (Z.to_nat reps) with 0%nat by lia. reflexivity.
  - intros Hne. destruct (fst (u16_percentile_diff adc pin n lowp highp st));
      [|congruence].
    rewrite <- Hd. destruct (Z.to_nat reps); reflexivity.
  - intros Hr Hnone. rewrite Hnone in Hd. rewrite <- Hd.
    destruct (Z.to_nat reps) eqn:E; [lia|]. reflexivity.
Qed.

Lemma benchmark_percentile_diff_elapsed_witness :
  fst (benchmmark_u16_percentile_diff (stream []) 0 7 0 4
         (F32.of_Z 25) (F32.of_Z 75) 0 init)
  = Some (elapsed_seconds 0 7) /\
  fst (benchmmark_u16_percentile_diff (stream []) 0 7 0 4
         (F32.of_Z 25) (F32.of_Z 75) 3 init)
  = Some (elapsed_seconds 0 7) /\
  fst (benchmmark_u16_percentile_diff (stream []) 0 7 0 1
         (F32.of_Z 25) (F32.of_Z 75) 3 init)
  = None.
Proof.
  split; [|split].
  - exact (proj1 (proj2 (benchmark_percentile_diff_elapsed (stream []) 0 7 0 4
             (F32.of_Z 25) (F32.of_Z 75) 0 init)) ltac:(lia)).
  - apply (proj1 (proj2 (proj2 (benchmark_percentile_diff_elapsed (stream []) 0 7 0 4
             (F32.of_Z 25) (F32.of_Z 75) 3 init)))).
    vm_compute. discriminate.
  - apply (proj2 (proj2 (proj2 (benchmark_percentile_diff_elapsed (stream []) 0 7 0 1
             (F32.of_Z 25) (F32.of_Z 75) 3 init)))); [lia|].
    vm_compute. reflexivity.
Defined.

(** * The temperature reading *)

(** X14. With 16-bit readings, [measure_temperature] returns a finite value
    within 0.001 degree of [25 + 583.0904 * (0.719 - V)], where
    [V = mean / 65535 * 1.2] and [mean] is the exact mean of the 255 samples
    of pin 38: neither the accumulation nor the chain of [float] and
    [double] roundings, including the cancellation in [0.719 - V], costs
    more. *)
Theorem measure_temperature_celsius adc st :
  (forall i, 0 <= adc i 38 <= 65535) ->
  is_finite_SF (fst (measure_temperature adc st)) = true /\
  (Rabs (SF2R (fst (measure_temperature adc st))
         - (25 + 5830904 / 10000
                 * (719 / 1000
                    - IZR (sum_list (samples adc 38 (length (trace st)) 255))
                      / 255 / 65535 * (12 / 10))))
   <= / 1000)%R.
Proof.
  intros Hadc. rewrite measure_temperature_value.
  destruct (sum_255_exact adc 38 (snd (analogReference INTERNAL st)) Hadc) as [E B].
  cbn [analogReference snd trace] in E.
  rewrite <- E. apply temperature_close. exact B.
Qed.

Lemma measure_temperature_celsius_witness :
  is_finite_SF (fst (measure_temperature (fun _ _ => 39000) init)) = true.
Proof.
  apply (measure_temperature_celsius (fun _ _ => 39000) init). intros i. lia.
Defined.

(** * The root mean square *)

(** X15. When the sum of the squares of the [n] samples is at most [2 ^ 24]
    and their mean square is a perfect square [r * r], [read_rms] returns
    [r] exactly: no rounding occurs in the accumulation, the division or the
    square root. In particular a constant sequence of value [v] with
    [n * v * v <= 2 ^ 24] gives [v]. *)
Theorem read_rms_exact_square adc pin n st :
  1 <= n < 2 ^ 32 ->
  (forall r, 0 <= r ->
     sum_squares (map to_u16 (samples adc pin (length (trace st)) (Z.to_nat n)))
     = n * (r * r) ->
     n * (r * r) <= 2 ^ 24 ->
     fst (read_rms adc pin n st) = Some r) /\
  (forall v,
     Forall (fun x => x = v)
       (map to_u16 (samples adc pin (length (trace st)) (Z.to_nat n))) ->
     n * (v * v) <= 2 ^ 24 ->
     fst (read_rms adc pin n st) = Some v).
Proof.
  intros Hn.
  assert (Hgen : forall r, 0 <= r ->
     sum_squares (map to_u16 (samples adc pin (length (trace st)) (Z.to_nat n)))
     = n * (r * r) ->
     n * (r * r) <= 2 ^ 24 ->
     fst (read_rms adc pin n st) = Some r).
  { intros r Hr Hsum Hle.
    rewrite read_rms_run. cbn [fst].
    rewrite read_sum2_exact by (rewrite Hsum; exact Hle).
    rewrite Hsum.
    destruct (Z.eq_dec r 0) as [->|Hr0].
    - replace (n * (0 * 0)) with 0 by lia.
      destruct (F32_of_Z_count_pos n Hn) as (m & e & E).
      unfold mean_square. rewrite E. reflexivity.
    - assert (Hr4 : 0 < r <= 4096).
      { change (2 ^ 24) with 16777216 in Hle. nia. }
      destruct (mean_square_square n r ltac:(lia) ltac:(lia) Hle) as (V & F & E).
      apply rms_of_square; assumption. }
  split; [exact Hgen|].
  intros v Hall Hle.
  pose proof (sum_squares_constant _ _ Hall) as Hsum.
  rewrite length_map, samples_length, Z2Nat.id in Hsum by lia.
  apply Hgen; try assumption.
  pose proof (Forall_to_u16 (samples adc pin (length (trace st)) (Z.to_nat n))) as Hr.
  destruct (map to_u16 (samples adc pin (length (trace st)) (Z.to_nat n)))
    as [|x l] eqn:EL.
  - apply (f_equal (@length Z)) in EL.
    rewrite length_map, samples_length in EL. cbn in EL. lia.
  - inversion Hall; subst. inversion Hr; subst. lia.
Qed.

Lemma read_rms_exact_square_witness :
  fst (read_rms (stream [7; 7; 7]) 0 3 init) = Some 7 /\
  fst (read_rms (stream [1; 7]) 0 2 init) = Some 5.
Proof.
  split.
  - apply (proj2 (read_rms_exact_square (stream [7; 7; 7]) 0 3 init ltac:(lia))).
    + repeat constructor.
    + vm_compute. discriminate.
  - apply (proj1 (read_rms_exact_square (stream [1; 7]) 0 2 init ltac:(lia)));
      [lia | reflexivity | vm_compute; discriminate].
Defined.

(** X16. When every one of the [n] samples, [1 <= n <= 2 ^ 23], exceeds
    46340 (a saturated channel, say), [read_rms] has no defined result:
    each [value * value] leaves the range of [int]; with the wrap-around of
    the target every square is negative, so are the sum and the mean, and
    the square root of a negative number is not a number, which has no
    [uint16_t] value. *)
Theorem read_rms_overflow_undefined adc pin n st :
  1 <= n <= 2 ^ 23 ->
  Forall (fun v => 46340 < v)
    (map to_u16 (samples adc pin (length (trace st)) (Z.to_nat n))) ->
  fst (read_rms adc pin n st) = None.
Proof.
  intros Hn Hall. rewrite read_rms_run, read_sum2_run. cbn [fst].
  set (S := samples adc pin (length (trace st)) (Z.to_nat n)) in *.
  rewrite (fold_left_map
             (fun sum2 v => F32.add sum2 (F32.of_Z (to_i32 (v * v)))) to_u16).
  assert (Hlen : Z.of_nat (length (map to_u16 S)) = n).
  { unfold S. rewrite length_map, samples_length. lia. }
  assert (Hr : Forall (fun v => 46340 < v <= 65535) (map to_u16 S)).
  { pose proof (Forall_to_u16 S) as Hr. rewrite Forall_forall in *.
    intros v Hv. specialize (Hr v Hv). specialize (Hall v Hv). cbn in *. lia. }
  change (2 ^ 23) with 8388608 in Hn.
  destruct (map to_u16 S) as [|v l]; [cbn in Hlen; lia|].
  apply Forall_cons_iff in Hr. destruct Hr as [Hv Hl]. cbn [fold_left].
  destruct (to_i32_square_neg v Hv) as [Ev Hb]. rewrite Ev.
  rewrite F32_of_Z_neg by lia.
  destruct (F32_of_wrapped _ Hb) as (mb & eb & Eb & Bb).
  rewrite Eb in *.
  change (F32.add F32.zero (SFopp (S754_finite false mb eb)))
    with (SFopp (S754_finite false mb eb)).
  cbn [length] in Hlen.
  destruct (fold_neg_squares l (S754_finite false mb eb) 1 Hl eq_refl
              ltac:(lia) ltac:(lia)) as (a' & E' & F' & B').
  { cbn [INR pow]. pose proof u32_bounds. lra. }
  rewrite E'.
  apply rms_of_negative; [exact F' | | lia].
  destruct (pow_1u_le_2 (1 + length l) ltac:(lia)) as [Q1 Q2].
  assert (HK : (1 <= INR (1 + length l) <= 8388608)%R).
  { rewrite INR_IZR_INZ. split; apply IZR_le; lia. }
  assert ((INR (1 + length l) * (1 + u32) ^ (1 + length l) <= 8388608 * 2)%R)
    by (apply Rmult_le_compat; lra).
  lra.
Qed.

Lemma read_rms_overflow_undefined_witness :
  fst (read_rms (stream [65535; 50000; 46341]) 0 3 init) = None.
Proof.
  apply (read_rms_overflow_undefined (stream [65535; 50000; 46341]) 0 3 init).
  - lia.
  - repeat constructor.
Defined.

(** The root is rounded to [float] before the narrowing: single samples past
    [2 ^ 12] whose square is not a [float] still come back unchanged. *)
Lemma read_rms_float_root_examples :
  fst (read_rms (stream [4097]) 0 1 init) = Some 4097 /\
  fst (read_rms (stream [46340]) 0 1 init) = Some 46340 /\
  fst (read_rms (stream [46340; 46340]) 0 2 init) = Some 46340.
Proof. repeat split; reflexivity. Qed.

(** * Accuracy of the root mean square *)

(** X17. While no square overflows (every sample at most 46340) and
    [1 <= n <= 2 ^ 22], [read_rms] is defined, and the integer [r] it returns
    is the true root mean square [rho] of the samples up to the truncation
    and a relative error of [(n + 3) * 2 ^ -24]:
    [rho * (1 - (n + 3) / 2^24) - 1 < r <= rho * (1 + (n + 3) / 2^24)].
    For [n <= 256] this gives [rho - 2 < r < rho + 1]. *)
Theorem read_rms_accuracy adc pin n st :
  1 <= n <= 2 ^ 22 ->
  Forall (fun v => v <= 46340)
    (map to_u16 (samples adc pin (length (trace st)) (Z.to_nat n))) ->
  exists r,
    fst (read_rms adc pin n st) = Some r /\
    0 <= r <= 65535 /\
    (sqrt (IZR (sum_squares
                  (map to_u16 (samples adc pin (length (trace st)) (Z.to_nat n))))
           / IZR n)
     * (1 - (IZR n + 3) / 16777216) - 1 < IZR r
     <= sqrt (IZR (sum_squares
                     (map to_u16 (samples adc pin (length (trace st)) (Z.to_nat n))))
              / IZR n)
        * (1 + (IZR n + 3) / 16777216))%R /\
    (n <= 256 ->
     (sqrt (IZR (sum_squares
                   (map to_u16 (samples adc pin (length (trace st)) (Z.to_nat n))))
            / IZR n) - 2 < IZR r
      < sqrt (IZR (sum_squares
                     (map to_u16 (samples adc pin (length (trace st)) (Z.to_nat n))))
              / IZR n) + 1)%R).
Proof.
  intros Hn Hall. change (2 ^ 22) with 4194304 in Hn.
  rewrite read_rms_run, read_sum2_run. cbn [fst].
  set (L := samples adc pin (length (trace st)) (Z.to_nat n)) in *.
  rewrite (fold_left_map
             (fun sum2 v => F32.add sum2 (F32.of_Z (to_i32 (v * v)))) to_u16).
  assert (Hr : Forall (fun v => 0 <= v <= 46340) (map to_u16 L)).
  { pose proof (Forall_to_u16 L) as Hr. rewrite Forall_forall in *.
    intros v Hv. specialize (Hr v Hv). specialize (Hall v Hv). cbn in *. lia. }
  rewrite fold_sum2_squares by exact Hr.
  change F32.zero with (S754_zero false).
  assert (Hlen : length (map to_u16 L) = Z.to_nat n).
  { unfold L. rewrite length_map. apply samples_length. }
  pose proof (sum_squares_bound _ Hr) as HT. rewrite Hlen, Z2Nat.id in HT by lia.
  pose proof (fold_squares_approx (map to_u16 L) (S754_zero false) 0 0 Hr
                ltac:(rewrite Hlen; cbn [Nat.add]; lia) ltac:(lia)
                (or_introl (conj eq_refl eq_refl))) as Hfold.
  rewrite Z.add_0_l, Hlen in Hfold. cbn [Nat.add] in Hfold.
  assert (HN : (1 <= IZR n <= 4194304)%R) by (split; apply IZR_le; lia).
  set (T := sum_squares (map to_u16 L)) in *.
  set (a := fold_left (fun sum2 v => F32.add sum2 (F32.of_Z (v * v)))
              (map to_u16 L) (S754_zero false)) in *.
  assert (Hrho : (0 <= sqrt (IZR T / IZR n) <= 46340)%R).
  { split; [apply sqrt_pos|].
    assert (0 <= IZR T / IZR n <= 2147395600)%R.
    { assert (0 <= IZR T)%R by (apply IZR_le; lia).
      assert (IZR T <= IZR n * 2147395600)%R
        by (rewrite <- mult_IZR; apply IZR_le; lia).
      assert (0 < / IZR n)%R by (apply Rinv_0_lt_compat; lra).
      unfold Rdiv. split; [apply Rmult_le_pos; lra|].
      apply Rle_trans with (IZR n * 2147395600 * / IZR n)%R;
        [apply Rmult_le_compat_r; lra|].
      replace (IZR n * 2147395600 * / IZR n)%R with 2147395600%R by (field; lra).
      lra. }
    apply sq_le; [apply sqrt_pos | lra | rewrite sqrt_sqrt; lra]. }
  assert (Hgen : exists r,
    float_to_u16 (F32.sqrt (mean_square a n)) = Some r /\
    0 <= r <= 65535 /\
    (sqrt (IZR T / IZR n) * (1 - (IZR n + 3) / 16777216) - 1 < IZR r
     <= sqrt (IZR T / IZR n) * (1 + (IZR n + 3) / 16777216))%R).
  { destruct Hfold as [[HT0 Ha]|(HT0 & Fa & Ha)].
    - exists 0. rewrite Ha.
      destruct (F32_of_Z_count_pos n ltac:(lia)) as (mn & en & En).
      unfold mean_square. rewrite En.
      split; [reflexivity|]. split; [lia|].
      rewrite HT0. unfold Rdiv at 1 3. rewrite Rmult_0_l, sqrt_0. lra.
    - destruct (rms_pipeline a T n ltac:(lia) ltac:(lia) Fa Ha) as (r & Er & Br).
      exists r. split; [exact Er|].
      split; [unfold float_to_u16 in Er;
              destruct (SFtrunc _) as [z|]; [|discriminate Er];
              destruct ((0 <=? z) && (z <=? 65535)) eqn:Hb; [|discriminate Er];
              injection Er as <-; apply andb_prop in Hb; destruct Hb as [H0 H1];
              apply Z.leb_le in H0, H1; lia|].
      rewrite u32_val in Br. exact Br. }
  destruct Hgen as (r & Er & Hr65 & Br).
  exists r. split; [exact Er|]. split; [exact Hr65|]. split; [exact Br|].
  intros Hn256.
  assert (IZR n <= 256)%R by (apply IZR_le; lia).
  set (rho := sqrt (IZR T / IZR n)) in *. clearbody rho.
  assert (0 <= rho * ((IZR n + 3) / 16777216) <= 46340 * (259 / 16777216))%R.
  { split; [apply Rmult_le_pos; lra|]. apply Rmult_le_compat; lra. }
  lra.
Qed.

Lemma read_rms_accuracy_witness :
  exists r, fst (read_rms (stream [3; 4]) 0 2 init) = Some r /\ 0 <= r <= 65535.
Proof.
  destruct (read_rms_accuracy (stream [3; 4]) 0 2 init ltac:(lia))
    as (r & Er & Hr & _).
  - repeat constructor; vm_compute; discriminate.
  - exists r. split; assumption.
Defined.

(** * Extreme and middle percentiles *)

(** X18. For [2 <= n <= 65535] samples the percentile 0 selects index 0,
    the smallest sample, and the percentile 50 selects index
    [(n + 1) / 2]: [u16_percentile_diff] with the percentiles 0 and 50
    returns the sorted sample at that index minus the minimum. For odd [n]
    this index lies one above the middle of the vector; with three samples
    it is the largest one. *)
Theorem percentile_diff_min_to_middle adc pin n st :
  2 <= n <= 65535 ->
  percentile_index (F32.of_Z 0) n = Some 0 /\
  percentile_index (F32.of_Z 50) n = Some ((n + 1) / 2) /\
  fst (u16_percentile_diff adc pin n (F32.of_Z 0) (F32.of_Z 50) st)
  = Some (nth (Z.to_nat ((n + 1) / 2))
            (sort (map to_u16 (samples adc pin (length (trace st)) (Z.to_nat n)))) 0
          - list_min (map to_u16 (samples adc pin (length (trace st)) (Z.to_nat n)))) /\
  (n = 3 ->
   fst (u16_percentile_diff adc pin n (F32.of_Z 0) (F32.of_Z 50) st)
   = Some (list_max (map to_u16 (samples adc pin (length (trace st)) (Z.to_nat n)))
           - list_min (map to_u16 (samples adc pin (length (trace st)) (Z.to_nat n))))).
Proof.
  intros Hn.
  pose proof (percentile_index_0 n ltac:(change (2 ^ 16) with 65536; lia)) as H0.
  pose proof (percentile_index_50 n ltac:(change (2 ^ 16) with 65536; lia)) as H50.
  set (L := map to_u16 (samples adc pin (length (trace st)) (Z.to_nat n))).
  assert (Hlen : length L = Z.to_nat n).
  { unfold L. rewrite length_map. apply samples_length. }
  assert (Hne : L <> []).
  { intros E. rewrite E in Hlen. cbn in Hlen. lia. }
  assert (Hr : Forall (fun v => 0 <= v <= 65535) L) by apply Forall_to_u16.
  assert (Hr' : Forall (fun v => v <= 65535) L).
  { eapply Forall_impl; [|exact Hr]. cbn. intros; lia. }
  assert (Hmid : 0 <= (n + 1) / 2 < n).
  { split; [apply Z.div_pos; lia | apply Z.div_lt_upper_bound; lia]. }
  assert (Hres :
    fst (u16_percentile_diff adc pin n (F32.of_Z 0) (F32.of_Z 50) st)
    = Some (nth (Z.to_nat ((n + 1) / 2)) (sort L) 0 - list_min L)).
  { unfold u16_percentile_diff, bind. rewrite analog_reads_simple_run.
    cbn [fst ret]. fold L. rewrite H0, H50.
    assert (Hslen : length (sort L) = Z.to_nat n) by (rewrite sort_length; exact Hlen).
    assert (Hh : (Z.to_nat ((n + 1) / 2) < length (sort L))%nat) by lia.
    assert (Hl : (Z.to_nat 0 < length (sort L))%nat) by lia.
    rewrite (nth_error_nth' _ 0 Hh), (nth_error_nth' _ 0 Hl).
    change (Z.to_nat 0) with 0%nat. rewrite (sort_head_min L Hne Hr').
    f_equal. unfold to_u16. apply Z.mod_small.
    pose proof (sort_range _ _ Hr) as Hs. rewrite Forall_forall in Hs.
    pose proof (Hs _ (nth_In _ 0 Hh)) as B1.
    pose proof (list_min_In L Hne Hr') as Hin.
    rewrite Forall_forall in Hr. pose proof (Hr _ Hin) as B2.
    assert (list_min L <= nth (Z.to_nat ((n + 1) / 2)) (sort L) 0).
    { rewrite <- (sort_head_min L Hne Hr').
      apply sorted_nth; [apply sort_sorted | lia]. }
    cbn in B1, B2. lia. }
  split; [exact H0|]. split; [exact H50|]. split; [exact Hres|].
  intros ->. rewrite Hres. do 2 f_equal.
  change (Z.to_nat ((3 + 1) / 2)) with 2%nat.
  assert (Hslen : length (sort L) = 3%nat) by (rewrite sort_length; exact Hlen).
  apply Z.le_antisymm.
  - pose proof (list_max_upper L) as Hu. rewrite Forall_forall in Hu.
    apply Hu. apply (Permutation_in _ (Permutation_sym (sort_perm L))).
    apply nth_In. lia.
  - assert (Hin : In (list_max L) L).
    { apply list_max_In; [exact Hne|].
      eapply Forall_impl; [|exact Hr]. cbn. intros; lia. }
    apply (Permutation_in _ (sort_perm L)) in Hin.
    destruct (In_nth _ _ 0 Hin) as (i & Hi & <-).
    apply sorted_nth; [apply sort_sorted | lia].
Qed.

Lemma percentile_diff_min_to_middle_witness :
  fst (u16_percentile_diff (stream [30; 10; 20]) 0 3 (F32.of_Z 0) (F32.of_Z 50) init)
  = Some 20.
Proof.
  rewrite (proj2 (proj2 (proj2
            (percentile_diff_min_to_middle (stream [30; 10; 20]) 0 3 init
               ltac:(lia)))) eq_refl).
  reflexivity.
Defined.

(** X19. The index does not depend on which [round] the toolchain supplies:
    for the percentiles 25, 50, 75 and 100 and [1 <= n <= 65535] the
    Arduino macro [(long)(x + 0.5)] and the [math.h] function give the same
    integer on [(percentile / 100.) * n_samples]. *)
Theorem round_macro_agrees n p :
  0 < n < 2 ^ 16 -> In p [25; 50; 75; 100] ->
  round_macro
    (F64.mul (F64.div (F64.of_float (F32.of_Z p)) (F64.of_Z 100)) (F64.of_Z n))
  = round
      (F64.mul (F64.div (F64.of_float (F32.of_Z p)) (F64.of_Z 100)) (F64.of_Z n)).
Proof.
  intros Hn Hp.
  destruct Hp as [<-|[<-|[<-|[<-|[]]]]].
  - apply (round_macro_quarters _ 1 n); try lia; try reflexivity.
    change (F64.div (F64.of_float (F32.of_Z 25)) (F64.of_Z 100))
      with (S754_finite false 4503599627370496 (-54)).
    cbn [SF2R cond_Zopp]. change (- (2)) with (-2). bpow_eval. lra.
  - apply (round_macro_quarters _ 2 n); try lia; try reflexivity.
    change (F64.div (F64.of_float (F32.of_Z 50)) (F64.of_Z 100))
      with (S754_finite false 4503599627370496 (-53)).
    cbn [SF2R cond_Zopp]. change (- (2)) with (-2). bpow_eval. lra.
  - apply (round_macro_quarters _ 3 n); try lia; try reflexivity.
    change (F64.div (F64.of_float (F32.of_Z 75)) (F64.of_Z 100))
      with (S754_finite false 6755399441055744 (-53)).
    cbn [SF2R cond_Zopp]. change (- (2)) with (-2). bpow_eval. lra.
  - apply (round_macro_quarters _ 4 n); try lia; try reflexivity.
    change (F64.div (F64.of_float (F32.of_Z 100)) (F64.of_Z 100))
      with (S754_finite false 4503599627370496 (-52)).
    cbn [SF2R cond_Zopp]. change (- (2)) with (-2). bpow_eval. lra.
Qed.

Lemma round_macro_agrees_witness :
  round_macro
    (F64.mul (F64.div (F64.of_float (F32.of_Z 75)) (F64.of_Z 100)) (F64.of_Z 10))
  = round
      (F64.mul (F64.div (F64.of_float (F32.of_Z 75)) (F64.of_Z 100)) (F64.of_Z 10)).
Proof.
  apply (round_macro_agrees 10 75); [lia | cbn; auto].
Defined.
